(** * Path addressing and key capture in ap0nia/mobius

    A shallow embedding of the path resolver ([_update], [_get], [deepSet])
    and of the key-capture proxies ([keysProxy], [createDraftProxy]) of the
    form library, over a model of the JavaScript data they traverse.

    Data trees are the values of the model: [undefined], [null], booleans,
    numbers (IEEE doubles, [SpecFloat.spec_float]), strings, plain objects
    and arrays.  An object is its own string-keyed properties; an array is
    its [length] together with its own properties, the elements being the
    properties named by array indices.  The characters of a string are
    code units below 256; symbol-keyed properties are outside the model.

    A property access goes through the prototype chain.  The model knows
    the names of the members of the built-in prototypes, as ECMA-262
    defines them, and not their values, which are functions and the
    prototype objects themselves: a read that finds no own property under
    a name the value inherits, and an assignment that would run the
    setter of [__proto__], are [Unmodelled].

    The object [Object.create(null)], which [deepSet], [deepFind] and the
    callers of [keysProxy] start from, is modelled as the empty object
    [{}].  That object inherits nothing: under the name of a member of
    [Object.prototype] the code finds nothing on it and goes on, where
    the model is [Unmodelled].

    The modules of the repository are ES modules, hence strict-mode code:
    assigning to a property of a primitive throws a [TypeError]. *)

From Stdlib Require Import Floats.SpecFloat Ascii String ZArith NArith.
From stdpp Require Import gmap strings list fin_maps pretty.

Local Open Scope string_scope.
Local Open Scope nat_scope.
Local Open Scope list_scope.
Set Warnings "-register-all".

(** ** Completions *)

Inductive error := TypeError | RangeError.

(** A call returns a value or throws.  [Unmodelled] marks the runs the
    model does not follow: those that leave the data tree for a built-in
    prototype (see [get_property] and [set_property]), and the few that
    depend on the engine's conversion between numbers and strings beyond
    the integers (see [StringToNumber] and [NumberToString]): an
    assignment of a string or an array to the [length] of an array, and a
    numeric key of [deepSet] that is not a plain decimal integer. *)
Inductive outcome (A : Type) :=
| Ok (a : A)
| Throw (e : error)
| Unmodelled.

Arguments Ok {A} a.
Arguments Throw {A} e.
Arguments Unmodelled {A}.

#[global] Instance outcome_bind : MBind outcome := fun A B f m =>
  match m with
  | Ok a => f a
  | Throw e => Throw e
  | Unmodelled => Unmodelled
  end.

#[global] Instance outcome_ret : MRet outcome := fun A a => Ok a.

(** ** Numbers *)

Abbreviation number := spec_float.

Definition NaN : number := S754_nan.
Definition Zero : number := S754_zero false.

(** The double nearest to a natural number: the number itself, with a
    mantissa of 53 bits, when it has at most 53 bits, and the rounding of
    [SpecFloat] beyond. *)
Definition Number_of_N (n : N) : number :=
  match n with
  | N0 => S754_zero false
  | Npos p =>
      let d := (53 - Z.pos (digits2_pos p))%Z in
      if (0 <=? d)%Z
      then S754_finite false (Z.to_pos (Z.pos p * 2 ^ d)) (- d)
      else binary_normalize 53 1024 (Z.pos p) 0 false
  end.

(** The natural number a double is, when it is one. *)
Definition Number_to_N (x : number) : option N :=
  match x with
  | S754_zero _ => Some 0%N
  | S754_finite false m e =>
      if (0 <=? e)%Z then Some (Z.to_N (Z.pos m * 2 ^ e))
      else if (Z.pos m mod 2 ^ (- e) =? 0)%Z
           then Some (Z.to_N (Z.pos m / 2 ^ (- e)))
           else None
  | _ => None
  end.

Definition number_is_nan (x : number) : bool :=
  match x with S754_nan => true | _ => false end.

Definition number_is_zero (x : number) : bool :=
  match x with S754_zero _ => true | _ => false end.

Definition number_same (x y : number) : bool :=
  match x, y with
  | S754_zero a, S754_zero b => Bool.eqb a b
  | S754_infinity a, S754_infinity b => Bool.eqb a b
  | S754_nan, S754_nan => true
  | S754_finite a m e, S754_finite b m' e' =>
      Bool.eqb a b && Pos.eqb m m' && Z.eqb e e'
  | _, _ => false
  end.

(** ** Characters and strings *)

Definition is_digit (c : ascii) : bool :=
  let n := nat_of_ascii c in (48 <=? n)%nat && (n <=? 57)%nat.

Definition is_hex_digit (c : ascii) : bool :=
  let n := nat_of_ascii c in
  is_digit c || ((65 <=? n)%nat && (n <=? 70)%nat)
             || ((97 <=? n)%nat && (n <=? 102)%nat).

Definition is_octal_digit (c : ascii) : bool :=
  let n := nat_of_ascii c in (48 <=? n)%nat && (n <=? 55)%nat.

Definition is_binary_digit (c : ascii) : bool :=
  let n := nat_of_ascii c in (48 <=? n)%nat && (n <=? 49)%nat.

(** StrWhiteSpaceChar among the code units below 256: TAB, LF, VT, FF, CR,
    SP and NBSP. *)
Definition is_whitespace (c : ascii) : bool :=
  let n := nat_of_ascii c in
  ((9 <=? n)%nat && (n <=? 13)%nat) || (n =? 32)%nat || (n =? 160)%nat.

Fixpoint string_forall (p : ascii → bool) (s : string) : bool :=
  match s with
  | EmptyString => true
  | String c s' => p c && string_forall p s'
  end.

Fixpoint string_exists (p : ascii → bool) (s : string) : bool :=
  match s with
  | EmptyString => false
  | String c s' => p c || string_exists p s'
  end.

Definition nonempty (s : string) : bool :=
  match s with EmptyString => false | String _ _ => true end.

Fixpoint drop_while (p : ascii → bool) (s : string) : string :=
  match s with
  | EmptyString => EmptyString
  | String c s' => if p c then drop_while p s' else s
  end.

Fixpoint take_while (p : ascii → bool) (s : string) : string :=
  match s with
  | EmptyString => EmptyString
  | String c s' => if p c then String c (take_while p s') else EmptyString
  end.

(** [s] without its trailing white space. *)
Fixpoint trim_end (s : string) : string :=
  match s with
  | EmptyString => EmptyString
  | String c s' =>
      match trim_end s' with
      | EmptyString => if is_whitespace c then EmptyString
                       else String c EmptyString
      | t => String c t
      end
  end.

Definition trim (s : string) : string :=
  trim_end (drop_while is_whitespace s).

(** [String.prototype.split] with a separator that matches exactly one
    character of the class [d]: the pieces between the separators, empty
    pieces included. *)
Fixpoint split_on (d : ascii → bool) (s : string) : list string :=
  match s with
  | EmptyString => [EmptyString]
  | String c s' =>
      if d c then EmptyString :: split_on d s'
      else match split_on d s' with
           | seg :: segs => String c seg :: segs
           | [] => [String c EmptyString]
           end
  end.

(** [Array.prototype.join] on an array of strings ([toString] is
    [join ","]). *)
Fixpoint join (sep : string) (ks : list string) : string :=
  match ks with
  | [] => EmptyString
  | [k] => k
  | k :: ks' => k +:+ sep +:+ join sep ks'
  end.

(** ** Numeric strings

    [+s] on a string is StringToNumber: [NaN] unless [s], trimmed of white
    space, is empty or a StrNumericLiteral (ECMA-262, 7.1.4.1). *)

Definition is_sign (c : ascii) : bool :=
  Ascii.eqb c "+" || Ascii.eqb c "-".

Definition exponent_part_opt (s : string) : bool :=
  match s with
  | EmptyString => true
  | String c r =>
      if Ascii.eqb c "e" || Ascii.eqb c "E" then
        let r' := match r with
                  | String c' r'' => if is_sign c' then r'' else r
                  | EmptyString => r
                  end in
        nonempty r' && string_forall is_digit r'
      else false
  end.

Definition unsigned_decimal_literal (s : string) : bool :=
  String.eqb s "Infinity" ||
  let d1 := take_while is_digit s in
  match drop_while is_digit s with
  | String c r2 =>
      if Ascii.eqb c "." then
        (nonempty d1 || nonempty (take_while is_digit r2))
        && exponent_part_opt (drop_while is_digit r2)
      else nonempty d1 && exponent_part_opt (String c r2)
  | EmptyString => nonempty d1
  end.

Definition non_decimal_integer_literal (s : string) : bool :=
  match s with
  | String z (String x r) =>
      Ascii.eqb z "0" && nonempty r &&
      (if Ascii.eqb x "x" || Ascii.eqb x "X" then string_forall is_hex_digit r
       else if Ascii.eqb x "o" || Ascii.eqb x "O"
            then string_forall is_octal_digit r
       else if Ascii.eqb x "b" || Ascii.eqb x "B"
            then string_forall is_binary_digit r
       else false)
  | _ => false
  end.

Definition str_numeric_literal (s : string) : bool :=
  non_decimal_integer_literal s ||
  match s with
  | String c r =>
      if is_sign c then unsigned_decimal_literal r
      else unsigned_decimal_literal s
  | EmptyString => false
  end.

Definition is_numeric_string (s : string) : bool :=
  match trim s with
  | EmptyString => true
  | t => str_numeric_literal t
  end.

(** [isNaN(+s)], the predicate that chooses between [{}] and [[]] in
    [_update], [innerKeysProxy], [createInnerProxy] and [deepSet]. *)
Definition isNaN_of_string (s : string) : bool := negb (is_numeric_string s).

Fixpoint digits_value (acc : N) (s : string) : N :=
  match s with
  | EmptyString => acc
  | String c s' =>
      digits_value (10 * acc + N.of_nat (nat_of_ascii c - 48)) s'
  end.

(** StringToNumber, where the model interprets it: [NaN] for the strings
    that are not numeric, zero for the blank ones, and the nearest double
    for plain decimal integers.  Signed, fractional, exponent and radix
    literals and [Infinity] are numbers the model does not compute. *)
Definition StringToNumber (s : string) : option number :=
  if isNaN_of_string s then Some NaN
  else match trim s with
       | EmptyString => Some Zero
       | t => if string_forall is_digit t
              then Some (Number_of_N (digits_value 0 t)) else None
       end.

(** Number::toString, where the model interprets it: the integers up to
    2^53 print as their decimal digits. *)
Definition NumberToString (x : number) : option string :=
  match x with
  | S754_nan => Some "NaN"
  | S754_zero _ => Some "0"
  | S754_infinity s => Some (if s then "-Infinity" else "Infinity")
  | S754_finite s m e =>
      match Number_to_N (S754_finite false m e) with
      | Some n =>
          if (n <=? 2 ^ 53)%N
          then Some ((if s then "-" else "") +:+ pretty n) else None
      | None => None
      end
  end.

(** ** Values *)

Inductive value :=
| VUndef
| VNull
| VBool (b : bool)
| VNum (n : number)
| VStr (s : string)
| VObj (props : gmap string value)
| VArr (len : N) (props : gmap string value).

(** The object literal [{k1: v1, ...}] and the array literal [[v0, ...]]. *)
Definition js_object (l : list (string * value)) : value :=
  VObj (list_to_map l).

Definition js_array (l : list value) : value :=
  VArr (N.of_nat (length l))
       (list_to_map (imap (fun i v => (pretty (N.of_nat i), v)) l)).

Definition is_nullish (v : value) : bool :=
  match v with VUndef | VNull => true | _ => false end.

Definition is_container (v : value) : bool :=
  match v with VObj _ | VArr _ _ => true | _ => false end.

Definition ToBoolean (v : value) : bool :=
  match v with
  | VUndef | VNull => false
  | VBool b => b
  | VNum n => negb (number_is_zero n || number_is_nan n)
  | VStr s => nonempty s
  | VObj _ | VArr _ _ => true
  end.

(** Structural comparison of two trees. *)
Fixpoint value_eqb (a b : value) : bool :=
  match a, b with
  | VUndef, VUndef | VNull, VNull => true
  | VBool x, VBool y => Bool.eqb x y
  | VNum x, VNum y => number_same x y
  | VStr x, VStr y => String.eqb x y
  | VObj m1, VObj m2 =>
      (size m1 =? size m2)%nat &&
      map_fold (fun k x acc =>
                  acc && match m2 !! k with
                         | Some y => value_eqb x y
                         | None => false
                         end) true m1
  | VArr l1 m1, VArr l2 m2 =>
      N.eqb l1 l2 && (size m1 =? size m2)%nat &&
      map_fold (fun k x acc =>
                  acc && match m2 !! k with
                         | Some y => value_eqb x y
                         | None => false
                         end) true m1
  | _, _ => false
  end.

(** [a === b].  Primitives compare by value ([NaN] differs from itself,
    the two zeros are equal).  Objects and arrays compare by identity; the
    code compares a node reached by walking down a tree with the root of
    that tree, and a node below the root is a proper subtree, which is
    never structurally equal to the whole tree ([value_eqb_size]), so the
    structural comparison decides identity there. *)
Definition strict_eq (a b : value) : bool :=
  match a, b with
  | VUndef, VUndef | VNull, VNull => true
  | VBool x, VBool y => Bool.eqb x y
  | VNum x, VNum y => SFeqb x y
  | VStr x, VStr y => String.eqb x y
  | VObj _, VObj _ | VArr _ _, VArr _ _ => value_eqb a b
  | _, _ => false
  end.

(** An array index is a canonical numeric string below 2^32 - 1. *)
Definition is_array_index (k : string) : option N :=
  match k with
  | EmptyString => None
  | String c r =>
      if string_forall is_digit k && implb (nonempty r) (negb (Ascii.eqb c "0"))
      then let n := digits_value 0 k in
           if (n <? 2 ^ 32 - 1)%N then Some n else None
      else None
  end.

(** ** Property access *)

Definition ToNumber (v : value) : outcome number :=
  match v with
  | VUndef => Ok NaN
  | VNull => Ok Zero
  | VBool b => Ok (if b then Number_of_N 1 else Zero)
  | VNum n => Ok n
  | VStr s => match StringToNumber s with
              | Some n => Ok n
              | None => Unmodelled
              end
  | VObj _ => Ok NaN
  | VArr _ _ => Unmodelled
  end.

(** The names of the string-keyed members of the built-in prototypes
    (ECMA-262, with its annex B), [length] apart, which every array and
    every string has as a property of its own. *)
Definition Object_prototype : list string :=
  ["constructor"; "__defineGetter__"; "__defineSetter__"; "hasOwnProperty";
   "__lookupGetter__"; "__lookupSetter__"; "isPrototypeOf";
   "propertyIsEnumerable"; "toString"; "valueOf"; "__proto__";
   "toLocaleString"].

Definition Array_prototype : list string :=
  ["constructor"; "at"; "concat"; "copyWithin"; "fill"; "find"; "findIndex";
   "findLast"; "findLastIndex"; "lastIndexOf"; "pop"; "push"; "reverse";
   "shift"; "unshift"; "slice"; "sort"; "splice"; "includes"; "indexOf";
   "join"; "keys"; "entries"; "values"; "forEach"; "filter"; "flat";
   "flatMap"; "map"; "every"; "some"; "reduce"; "reduceRight";
   "toLocaleString"; "toString"; "toReversed"; "toSorted"; "toSpliced";
   "with"].

Definition String_prototype : list string :=
  ["constructor"; "anchor"; "at"; "big"; "blink"; "bold"; "charAt";
   "charCodeAt"; "codePointAt"; "concat"; "endsWith"; "fontcolor";
   "fontsize"; "fixed"; "includes"; "indexOf"; "isWellFormed"; "italics";
   "lastIndexOf"; "link"; "localeCompare"; "match"; "matchAll"; "normalize";
   "padEnd"; "padStart"; "repeat"; "replace"; "replaceAll"; "search";
   "slice"; "small"; "split"; "strike"; "sub"; "substr"; "substring"; "sup";
   "startsWith"; "toString"; "toWellFormed"; "trim"; "trimStart";
   "trimLeft"; "trimEnd"; "trimRight"; "toLocaleLowerCase";
   "toLocaleUpperCase"; "toLowerCase"; "toUpperCase"; "valueOf"].

Definition Number_prototype : list string :=
  ["constructor"; "toExponential"; "toFixed"; "toPrecision"; "toString";
   "valueOf"; "toLocaleString"].

Definition Boolean_prototype : list string :=
  ["constructor"; "toString"; "valueOf"].

Definition has_name (names : list string) (k : string) : bool :=
  existsb (String.eqb k) names.

(** [o] has a member named [k] on its prototype chain. *)
Definition inherits (o : value) (k : string) : bool :=
  match o with
  | VUndef | VNull => false
  | VBool _ => has_name Boolean_prototype k || has_name Object_prototype k
  | VNum _ => has_name Number_prototype k || has_name Object_prototype k
  | VStr _ => has_name String_prototype k || has_name Object_prototype k
  | VObj _ => has_name Object_prototype k
  | VArr _ _ => has_name Array_prototype k || has_name Object_prototype k
  end.

(** The property [k] that [o] has of its own, if any. *)
Definition own_property (o : value) (k : string) : option value :=
  match o with
  | VStr s =>
      if String.eqb k "length"
      then Some (VNum (Number_of_N (N.of_nat (String.length s))))
      else match is_array_index k with
           | Some i => match String.get (N.to_nat i) s with
                       | Some c => Some (VStr (String c EmptyString))
                       | None => None
                       end
           | None => None
           end
  | VObj m => m !! k
  | VArr len m =>
      if String.eqb k "length" then Some (VNum (Number_of_N len))
      else m !! k
  | _ => None
  end.

(** [o[k]], read: the own property, else the inherited member, else
    [undefined]. *)
Definition get_property (o : value) (k : string) : outcome value :=
  match o with
  | VUndef | VNull => Throw TypeError
  | _ =>
      match own_property o k with
      | Some v => Ok v
      | None => if inherits o k then Unmodelled else Ok VUndef
      end
  end.

Definition below_length (l : N) (k : string) : bool :=
  match is_array_index k with
  | Some i => (i <? l)%N
  | None => true
  end.

(** [a.length = v] on an array. *)
Definition ArraySetLength (len : N) (m : gmap string value) (v : value)
  : outcome value :=
  n ← ToNumber v;
  match Number_to_N n with
  | Some l =>
      if (l <? 2 ^ 32)%N
      then Ok (VArr l (filter (fun kv => below_length l kv.1 = true) m))
      else Throw RangeError
  | None => Throw RangeError
  end.

(** The assignment [o[k] = v] calls the setter of [__proto__], inherited
    from [Object.prototype]: [o] has no property of that name of its
    own. *)
Definition calls_setter (m : gmap string value) (k : string) : bool :=
  String.eqb k "__proto__"
  && match m !! k with Some _ => false | None => true end.

(** [o[k] = v], in strict mode; the result is the state of [o] after the
    assignment.  The other members of the prototypes are writable data
    properties: the assignment creates or replaces the own property. *)
Definition set_property (o : value) (k : string) (v : value) : outcome value :=
  match o with
  | VObj m =>
      if calls_setter m k then Unmodelled else Ok (VObj (<[k:=v]> m))
  | VArr len m =>
      if String.eqb k "length" then ArraySetLength len m v
      else if calls_setter m k then Unmodelled
      else match is_array_index k with
           | Some i => Ok (VArr (N.max len (i + 1)) (<[k:=v]> m))
           | None => Ok (VArr len (<[k:=v]> m))
           end
  | VBool _ | VNum _ | VStr _ =>
      if String.eqb k "__proto__" then Unmodelled else Throw TypeError
  | VUndef | VNull => Throw TypeError
  end.

(** The state of [o] once the node it holds under [k] has been mutated in
    place into [c]: nothing but that slot changes. *)
Definition with_child (o : value) (k : string) (c : value) : value :=
  match o with
  | VObj m => VObj (<[k:=c]> m)
  | VArr len m => VArr len (<[k:=c]> m)
  | _ => o
  end.

(** The structured clone of a data tree is a tree of the same shape that
    shares no node with the original; in a model without a store that is
    the tree itself, and the original is untouched by construction. *)
Definition structuredClone (v : value) : value := v.

(** ** utils/_update.ts *)

Definition _isRecord (v : value) : bool :=
  match v with VObj _ => true | _ => false end.

Definition isArray (v : value) : bool :=
  match v with VArr _ _ => true | _ => false end.

Definition _isPrimitive (v : value) : bool :=
  negb (_isRecord v) && negb (isArray v).

(** A path argument: a string, or an array of keys. *)
Inductive path :=
| PString (s : string)
| PArray (ks : list string).

Definition is_path_delimiter (c : ascii) : bool :=
  Ascii.eqb c "." || Ascii.eqb c "[" || Ascii.eqb c "]".

(** [s.match(/[^.[\]]+/g) || []]: the maximal runs of characters other
    than [.], [[] and []], that is, the non-empty pieces between them. *)
Definition match_segments (s : string) : list string :=
  List.filter nonempty (split_on is_path_delimiter s).

Definition empty_container (next : string) : value :=
  if isNaN_of_string next then VObj ∅ else VArr 0 ∅.

(** [_isPrimitive(property[section])].  An own property is tested as it
    is.  A member that [property] inherits is a function, which is neither
    a record nor an array, save [__proto__], which is the prototype
    object. *)
Definition is_primitive_at (property : value) (section : string)
  : outcome bool :=
  match property with
  | VUndef | VNull => Throw TypeError
  | _ =>
      match own_property property section with
      | Some child => Ok (_isPrimitive child)
      | None => if String.eqb section "__proto__" then Unmodelled else Ok true
      end
  end.

(** The [for] loop of [_update] and the assignment after it, from the node
    [property] with [section] the key at hand and [rest] the keys after
    it. *)
Fixpoint update_loop (property : value) (section : string)
    (rest : list string) (v : value) : outcome value :=
  match rest with
  | [] => set_property property section v
  | next :: rest' =>
      isPrimitive ← is_primitive_at property section;
      property' ← (if isPrimitive : bool
                   then set_property property section (empty_container next)
                   else Ok property);
      child ← get_property property' section;
      child' ← update_loop child next rest' v;
      Ok (with_child property' section child')
  end.

(** The loop started on [splitPath], with [section = splitPath[0]]. *)
Definition update_keys (property : value) (ks : list string) (v : value)
  : outcome value :=
  match ks with
  | [] => Ok property
  | section :: rest => update_loop property section rest v
  end.

Definition _update (obj : value) (p : path) (v : value) : outcome value :=
  let copy := structuredClone (if is_nullish obj then VObj ∅ else obj) in
  let splitPath := match p with
                   | PString s => match_segments s
                   | PArray ks => ks
                   end in
  match last splitPath with
  | None => Ok copy
  | Some lastSection =>
      if nonempty lastSection then update_keys copy splitPath v
      else Ok copy
  end.

(** ** utils/_get.ts *)

Definition path_to_string (p : path) : string :=
  match p with
  | PString s => s
  | PArray ks => join "," ks
  end.

(** The separators of [/[,[\]]+?/] and of [/[,[\].]+?/]; the lazy [+?]
    matches one character at a time. *)
Definition is_bracket_separator (c : ascii) : bool :=
  Ascii.eqb c "," || Ascii.eqb c "[" || Ascii.eqb c "]".

Definition is_any_separator (c : ascii) : bool :=
  is_bracket_separator c || Ascii.eqb c ".".

(** [keys.reduce((res, key) => res !== null && res !== undefined ? res[key]
    : res, obj)]. *)
Fixpoint reduce_keys (res : value) (keys : list string) : outcome value :=
  match keys with
  | [] => Ok res
  | key :: keys' =>
      res' ← (if is_nullish res then Ok res else get_property res key);
      reduce_keys res' keys'
  end.

Definition travel (obj : value) (p : string) (sep : ascii → bool)
  : outcome value :=
  reduce_keys obj (List.filter nonempty (split_on sep p)).

Definition _get (obj : value) (p : path) (defaultValue : value)
  : outcome value :=
  let s := path_to_string p in
  first ← travel obj s is_bracket_separator;
  result ← (if ToBoolean first then Ok first
            else travel obj s is_any_separator);
  Ok (if strict_eq result VUndef || strict_eq result obj
      then defaultValue else result).

(** ** deepSet (lib/index.ts) *)

(** An element of [keys]: a string, or the number a numeric string was
    converted to. *)
Inductive pkey :=
| KString (s : string)
| KNumber (n : number).

(** [isNaN(+k) ? k : +k] *)
Definition to_pkey (k : string) : outcome pkey :=
  if isNaN_of_string k then Ok (KString k)
  else match StringToNumber k with
       | Some n => Ok (KNumber n)
       | None => Unmodelled
       end.

Fixpoint map_outcome {A B} (f : A → outcome B) (l : list A)
  : outcome (list B) :=
  match l with
  | [] => Ok []
  | a :: l' => b ← f a; bs ← map_outcome f l'; Ok (b :: bs)
  end.

Definition ToPropertyKey (k : pkey) : outcome string :=
  match k with
  | KString s => Ok s
  | KNumber n => match NumberToString n with
                 | Some s => Ok s
                 | None => Unmodelled
                 end
  end.

(** [!isNaN(+k)] on an element of [keys]. *)
Definition pkey_is_numeric (k : pkey) : bool :=
  match k with
  | KString s => negb (isNaN_of_string s)
  | KNumber n => negb (number_is_nan n)
  end.

(** The [for] loop of [deepSet] and the assignment after it. *)
Fixpoint deepSet_loop (current : value) (key : pkey) (rest : list pkey)
    (v : value) : outcome value :=
  k ← ToPropertyKey key;
  match rest with
  | [] => set_property current k v
  | next :: rest' =>
      child ← get_property current k;
      current' ← (if is_nullish child
                  then set_property current k
                         (if pkey_is_numeric next then VArr 0 ∅ else VObj ∅)
                  else Ok current);
      child ← get_property current' k;
      child' ← deepSet_loop child next rest' v;
      Ok (with_child current' k child')
  end.

Definition deepSet (obj : value) (p : string) (v : value) : outcome value :=
  let obj := match obj with VUndef => VObj ∅ | _ => obj end in
  keys ← map_outcome to_pkey (split_on (Ascii.eqb ".") p);
  match keys with
  | key :: rest => deepSet_loop obj key rest v
  | [] => set_property obj "undefined" v
  end.

(** ** Key-capture proxies (lib/proxy.ts, createForm)

    A proxy closes over a value of the bound structure.  The bound
    structure is a tree and is the store the traps act on; a container in
    it is referred to by the keys that lead to it from the root, a
    primitive is held by value.  A reference is used by the one chain of
    accesses that produced it, as in [callback(proxy)(value)]; within
    such a chain it always denotes a node, and the traps are [Unmodelled]
    on a reference that does not. *)

Inductive ref :=
| RNode (keys : list string)
| RPrim (v : value).

Definition child_slot (o : value) (k : string) : option value :=
  match o with
  | VObj m | VArr _ m => m !! k
  | _ => None
  end.

Fixpoint node_at (root : value) (p : list string) : option value :=
  match p with
  | [] => Some root
  | k :: p' => c ← child_slot root k; node_at c p'
  end.

Fixpoint update_at (root : value) (p : list string)
    (f : value → outcome value) : outcome value :=
  match p with
  | [] => f root
  | k :: p' =>
      match child_slot root k with
      | Some c => c' ← update_at c p' f; Ok (with_child root k c')
      | None => Unmodelled
      end
  end.

Definition ref_of (object : value) : ref :=
  if is_container object then RNode [] else RPrim object.

Definition ref_get (st : value) (r : ref) (k : string) : outcome value :=
  match r with
  | RPrim v => get_property v k
  | RNode p => match node_at st p with
               | Some o => get_property o k
               | None => Unmodelled
               end
  end.

Definition ref_set (st : value) (r : ref) (k : string) (v : value)
  : outcome value :=
  match r with
  | RPrim c => set_property c k v ≫= (fun _ => Ok st)
  | RNode p => update_at st p (fun o => set_property o k v)
  end.

(** The reference to [r[k]], whose value is [v]. *)
Definition ref_child (r : ref) (k : string) (v : value) : ref :=
  match r with
  | RNode p => if is_container v then RNode (p ++ [k]) else RPrim v
  | RPrim _ => RPrim v
  end.

(** A proxy: the outer one, with a [get] trap only, or an inner one
    closing over [object] ([prev]) and [properties] ([keys]). *)
Inductive accessor :=
| Outer (object : ref)
| Inner (object : ref) (properties : list string).

(** What calling a proxy returns: the key chain, or a value. *)
Inductive returned :=
| Keys (ks : list string)
| Value (v : value).

Definition keysProxy (object : value) : accessor := Outer (ref_of object).
Definition createDraftProxy (y : value) : accessor := Outer (ref_of y).

(** [properties.slice(-1)[0]] and [keys[keys.length - 1]], as a property
    key. *)
Definition last_key (properties : list string) : string :=
  default "undefined" (last properties).

(** The [get] trap of [innerKeysProxy] and of [createInnerProxy]:
    [object[last] ??= isNaN(+p.toString()) ? {} : []], then the inner proxy
    on [object[last]] and [[...properties, p]]. *)
Definition inner_get (st : value) (object : ref) (properties : list string)
    (p : string) : outcome (value * accessor) :=
  let k := last_key properties in
  cur ← ref_get st object k;
  st' ← (if is_nullish cur then ref_set st object k (empty_container p)
         else Ok st);
  cur ← ref_get st' object k;
  Ok (st', Inner (ref_child object k cur) (properties ++ [p])).

Definition trap_get (st : value) (a : accessor) (p : string)
  : outcome (value * accessor) :=
  match a with
  | Outer object => Ok (st, Inner object [p])
  | Inner object properties => inner_get st object properties p
  end.

(** The property accesses of a callback such as [f => f.user.name.first]. *)
Fixpoint access (st : value) (a : accessor) (chain : list string)
  : outcome (value * accessor) :=
  match chain with
  | [] => Ok (st, a)
  | p :: chain' => r ← trap_get st a p; access r.1 r.2 chain'
  end.

(** Calling a proxy of [keysProxy]: [apply: () => properties]; the outer
    proxy has no [apply] trap and calls [noop]. *)
Definition keysProxy_apply (st : value) (a : accessor) (arg : value)
  : outcome (value * returned) :=
  match a with
  | Outer _ => Ok (st, Value VUndef)
  | Inner _ properties => Ok (st, Keys properties)
  end.

(** Calling a proxy of [createDraftProxy] in createForm (unnamed/part_001):
    a defined argument is assigned to [prev[lastKey]]; the keys are
    returned either way. *)
Definition createInnerProxy_apply (st : value) (a : accessor) (arg : value)
  : outcome (value * returned) :=
  match a with
  | Outer _ => Ok (st, Value VUndef)
  | Inner prev keys =>
      st' ← (if negb (strict_eq arg VUndef)
             then ref_set st prev (last_key keys) arg else Ok st);
      Ok (st', Keys keys)
  end.

(** Calling a proxy of [createDraftProxy] in lib/index.ts: a defined
    argument is assigned and the keys are returned; without one,
    [prev[lastKey]] is returned. *)
Definition createInnerProxy_apply_index (st : value) (a : accessor)
    (arg : value) : outcome (value * returned) :=
  match a with
  | Outer _ => Ok (st, Value VUndef)
  | Inner prev keys =>
      if negb (strict_eq arg VUndef) then
        st' ← ref_set st prev (last_key keys) arg; Ok (st', Keys keys)
      else
        v ← ref_get st prev (last_key keys); Ok (st, Value v)
  end.

(** ** Predicates of the statements *)

(** The number of nodes of a tree. *)
Fixpoint vsize (v : value) : nat :=
  match v with
  | VObj m => S (map_fold (fun _ x acc => vsize x + acc) 0 m)
  | VArr _ m => S (map_fold (fun _ x acc => vsize x + acc) 0 m)
  | _ => 1
  end.

Definition not_length (k : string) : bool := negb (String.eqb k "length").

(** A key that is neither [length] nor [__proto__]: an assignment under
    it creates or replaces a property in every mapping and sequence. *)
Definition ordinary (k : string) : bool :=
  not_length k && negb (String.eqb k "__proto__").

(** A key that a path in text form gives back: not empty and free of
    [.], [[], []] and [,]. *)
Definition textual_key (k : string) : bool :=
  nonempty k && negb (string_exists is_any_separator k).

(** The names of all the members of the built-in prototypes. *)
Definition prototype_names : list string :=
  Object_prototype ++ Array_prototype ++ String_prototype
  ++ Number_prototype ++ Boolean_prototype.

(** The key [k] names a slot of [o]: not the [length] of an array. *)
Definition slot_key (o : value) (k : string) : bool :=
  negb (isArray o) || not_length k.

(** The assignment [node[k] = v] creates or replaces the slot [k] of the
    mapping or sequence [node], whatever [v]. *)
Definition assignable (node : value) (k : string) : bool :=
  match node with
  | VObj m => negb (calls_setter m k)
  | VArr _ m => not_length k && negb (calls_setter m k)
  | _ => false
  end.

(** The node [_update] goes on with from [node[k]], [next] being the key
    after [k]. *)
Definition next_node (node : value) (k next : string) : value :=
  match child_slot node k with
  | Some c => if _isPrimitive c then empty_container next else c
  | None => empty_container next
  end.

(** Every assignment of the write of [_update] over [ks] from [node]
    creates or replaces a slot of a mapping or a sequence. *)
Fixpoint updatable (node : value) (ks : list string) : bool :=
  match ks with
  | [] => true
  | k :: ks' =>
      assignable node k
      && match ks' with
         | [] => true
         | next :: _ => updatable (next_node node k next) ks'
         end
  end.

(** A key that both resolvers take as it is: not empty, free of [.], [[],
    []] and [,], and not the [length] of an array. *)
Definition plain_key (k : string) : bool :=
  nonempty k && negb (string_exists is_any_separator k) && not_length k.

(** A segment of a dot-separated path that is a member name: not empty,
    free of [.], [[] and []], and not numeric. *)
Definition segment_name (k : string) : bool :=
  nonempty k && negb (string_exists is_path_delimiter k) && isNaN_of_string k.

(** A numeric key in canonical form: the decimal digits of a natural
    number below 2^53, as Number::toString prints it. *)
Definition index_key (k : string) : bool :=
  nonempty k && string_forall is_digit k
  && String.eqb (pretty (digits_value 0 k)) k
  && (digits_value 0 k <? 2 ^ 53)%N.

(** A segment of a dot-separated path: a member name, which may hold a
    comma, or a canonical index. *)
Definition segment_key (k : string) : bool := segment_name k || index_key k.

(** The element of [keys] that stands for the key [k] in [deepSet]. *)
Definition pkey_for (k : string) (pk : pkey) : Prop :=
  ToPropertyKey pk = Ok k ∧ pkey_is_numeric pk = negb (isNaN_of_string k).

Definition has_dot (k : string) : bool := string_exists (Ascii.eqb ".") k.

(** No member name anywhere in the tree contains a [.]. *)
Fixpoint dot_free (v : value) : bool :=
  match v with
  | VObj m =>
      map_fold (fun k x acc => acc && (negb (has_dot k) && dot_free x)) true m
  | VArr _ m =>
      map_fold (fun k x acc => acc && (negb (has_dot k) && dot_free x)) true m
  | _ => true
  end.

(** No boolean, number or string and no inherited member stands in the
    way of the keys: every read on the way, the last key apart, finds a
    mapping or a sequence, or finds [null] or [undefined], where the
    writes go on from the empty container they create. *)
Fixpoint unobstructed (node : value) (ks : list string) : bool :=
  match ks with
  | k :: ((next :: _) as ks') =>
      match get_property node k with
      | Ok c => if is_nullish c then unobstructed (empty_container next) ks'
                else is_container c && unobstructed c ks'
      | _ => false
      end
  | _ => true
  end.

(** The canonicalization rule as section 3 of the specification words it:
    split on any run of [.], [[], []] characters, drop empty segments. *)
Definition spec_canonical_keys (s : string) : list string :=
  List.filter nonempty (split_on is_path_delimiter s).

(** [node[key]] in the data model of section 3 of the specification: the
    member of a mapping, the element of a sequence, nothing in a leaf. *)
Definition spec_lookup (node : value) (key : string) : value :=
  default VUndef (child_slot node key).

(** The walk of section 4.1: from the root, descend into [node[key]];
    a null or undefined node ends the walk. *)
Fixpoint spec_walk (node : value) (keys : list string) : value :=
  match keys with
  | [] => node
  | key :: keys' =>
      if is_nullish node then node else spec_walk (spec_lookup node key) keys'
  end.

(** The read of section 4.1 of the specification over one key list: walk
    the keys from the root; return the default when the value found is
    undefined or is the target itself, and the value found otherwise. *)
Definition spec_resolveRead (target : value) (keys : list string)
    (defaultValue : value) : value :=
  let found := spec_walk target keys in
  if strict_eq found VUndef || strict_eq found target
  then defaultValue else found.

(** The read [node[k]] of the code is a read in the tree: [k] is a slot
    of the mapping or sequence [node], or [node] has no member [k], be it
    inherited. *)
Definition tree_read (node : value) (k : string) : bool :=
  match own_property node k with
  | Some _ => is_container node && slot_key node k
  | None => negb (inherits node k)
  end.

(** Every read of the walk over [ks] from [node] is a read in the tree. *)
Fixpoint tree_walk (node : value) (ks : list string) : bool :=
  match ks with
  | [] => true
  | k :: ks' =>
      is_nullish node
      || (tree_read node k && tree_walk (spec_lookup node k) ks')
  end.

(** The whole run of a caller: build the proxy, let the callback access
    the chain, call the result with [arg]. *)
Definition capture (apply : value → accessor → value → outcome (value * returned))
    (proxy : value → accessor) (target : value) (chain : list string)
    (arg : value) : outcome (value * returned) :=
  r ← access target (proxy target) chain; apply r.1 r.2 arg.

(** ** deepFind (lib/deepFind.ts)

    [deepFind] walks like [deepSet] and stops before the assignment: it
    returns the node that holds the last key and that key.  The object is
    mutated in place, so the model returns its state as well. *)

Fixpoint deepFind_loop (st : value) (penultimate : ref) (key : pkey)
    (rest : list pkey) : outcome (value * ref * pkey) :=
  match rest with
  | [] => Ok (st, penultimate, key)
  | next :: rest' =>
      k ← ToPropertyKey key;
      cur ← ref_get st penultimate k;
      st' ← (if is_nullish cur
             then ref_set st penultimate k
                    (if pkey_is_numeric next then VArr 0 ∅ else VObj ∅)
             else Ok st);
      cur ← ref_get st' penultimate k;
      deepFind_loop st' (ref_child penultimate k cur) next rest'
  end.

(** [split] never returns an empty array, so the last case is not
    reached; [lastKey] would be [undefined] there, the property key
    ["undefined"]. *)
Definition deepFind (obj : value) (p : string)
  : outcome (value * ref * pkey) :=
  let obj := match obj with VUndef => VObj ∅ | _ => obj end in
  keys ← map_outcome to_pkey (split_on (Ascii.eqb ".") p);
  match keys with
  | key :: rest => deepFind_loop obj (ref_of obj) key rest
  | [] => Ok (obj, ref_of obj, KString "undefined")
  end.

(** [found.penultimate[found.lastKey] = v], on the result of [deepFind]. *)
Definition assign_found (found : value * ref * pkey) (v : value)
  : outcome value :=
  k ← ToPropertyKey found.2; ref_set found.1.1 found.1.2 k v.

(** ** createForm over [keysProxy], [_update] and [_get] (the second
    part of lib/deepFind.ts), for a form without a schema

    The stores of the form, with [initialData] resolved.  Without a schema
    [validate] returns its argument, so the derived store [data] holds
    [rawData].  The DOM nodes and the subscriptions are outside the
    model. *)

Record form := Form {
  rawData : value;
  dirty : gmap string bool;
  rawErrors : gmap string value;
  _initialData : value
}.

(** [keys.join('.')] on what calling the proxy returned; the outer proxy
    returns [undefined], which has no [join]. *)
Definition join_keys (r : returned) : outcome string :=
  match r with
  | Keys ks => Ok (join "." ks)
  | Value _ => Throw TypeError
  end.

(** [const keysGetter = callback(keysProxy(Object.create(null)));
    const keys = keysGetter(); const key = keys.join('.')], as in [custom],
    [field], [error] and [resetField]. *)
Definition field_key (chain : list string) : outcome string :=
  r ← capture keysProxy_apply keysProxy (VObj ∅) chain VUndef;
  join_keys r.2.

(** [currentDirty[key] = true]: under [__proto__], unless the record has
    a property of that name, the inherited setter is called, which
    ignores a boolean. *)
Definition mark_dirty (currentDirty : gmap string bool) (key : string)
  : gmap string bool :=
  match currentDirty !! key with
  | None => if String.eqb key "__proto__" then currentDirty
            else <[key := true]> currentDirty
  | Some _ => <[key := true]> currentDirty
  end.

(** [update(key, value)] *)
Definition update (f : form) (key : string) (v : value) : outcome form :=
  let dirty' := mark_dirty (dirty f) key in
  d ← _update (rawData f) (PString key) v;
  Ok (Form d dirty' (rawErrors f) (_initialData f)).

(** The store [value] of [custom]: [_get($data, key) ?? defaultValue]. *)
Definition custom_value (f : form) (key : string) (defaultValue : value)
  : outcome value :=
  r ← _get (rawData f) (PString key) VUndef;
  Ok (if is_nullish r then defaultValue else r).

(** [custom(callback).onChange(newValue)] *)
Definition custom_onChange (f : form) (chain : list string) (v : value)
  : outcome form :=
  key ← field_key chain; update f key v.

(** [resetField(callback)] *)
Definition resetField (f : form) (chain : list string) : outcome form :=
  key ← field_key chain;
  let dirty' := delete key (dirty f) in
  let errors' := delete key (rawErrors f) in
  initial ← _get (_initialData f) (PString key) VUndef;
  d ← _update (rawData f) (PString key) initial;
  Ok (Form d dirty' errors' (_initialData f)).

(** ** createForm (unnamed/part_001), for a form without a schema

    [handleChange] of the action [field]: the callback indexes a draft
    proxy of the data, the result is called with the value of the input,
    a string; the key is marked dirty and the data is stored. *)
Definition handleChange (data : value) (dirty : gmap string bool)
    (chain : list string) (input : string)
  : outcome (value * gmap string bool) :=
  let newData := if is_nullish data then VObj ∅ else data in
  r ← capture createInnerProxy_apply createDraftProxy newData chain
        (VStr input);
  key ← join_keys r.2;
  Ok (r.1, <[key := true]> dirty).

(** ** createForm over [deepSet] and [deepFind] (lib/index.ts)

    The subscription of the action [error]: what it assigns to
    [node.innerHTML] for the content [e] of the store [errors], with the
    state [deepFind] leaves [e] in. *)
Definition error_innerHTML (e : value) (name : string)
  : outcome (value * value) :=
  foundError ← deepFind e name;
  let penultimate := foundError.1.2 in
  let is_null := match penultimate with
                 | RPrim v => is_nullish v
                 | RNode _ => false
                 end in
  if is_null then Ok (foundError.1.1, VStr "")
  else
    k ← ToPropertyKey foundError.2;
    text ← ref_get foundError.1.1 penultimate k;
    Ok (foundError.1.1, text).

(** ** Devices of the proofs *)

(** A boolean, a number or a string. *)
Definition is_scalar (v : value) : bool :=
  negb (is_container v) && negb (is_nullish v).

(** Every boolean, number or string that a walk over keys other than
    [length] finds in [a] is found by the same walk in [b]. *)
Definition keeps_scalars (a b : value) : Prop :=
  ∀ P r, Forall (fun k => not_length k = true) P →
         reduce_keys a P = Ok r → is_scalar r = true →
         reduce_keys b P = Ok r.

(** The value is the number [NaN]. *)
Definition is_NaN (v : value) : bool :=
  match v with VNum x => number_is_nan x | _ => false end.

(** The tree [root] with the node at [p] replaced by [n]. *)
Fixpoint plug (root : value) (p : list string) (n : value) : value :=
  match p with
  | [] => n
  | k :: p' =>
      match child_slot root k with
      | Some c => with_child root k (plug c p' n)
      | None => root
      end
  end.

(** The keys [p] lead from [root] through slots: no key is the [length]
    of a sequence. *)
Fixpoint slots (root : value) (p : list string) : bool :=
  match p with
  | [] => true
  | k :: p' =>
      slot_key root k
      && match child_slot root k with
         | Some c => slots c p'
         | None => false
         end
  end.

(** The node that holds the last key of [ks] once the write of
    [_update] from [n] has gone through the keys before it. *)
Fixpoint end_node (n : value) (ks : list string) : value :=
  match ks with
  | k :: ((next :: _) as ks') => end_node (next_node n k next) ks'
  | _ => n
  end.

(** Every node the keys go through, the last one apart, is a container
    of the tree. *)
Fixpoint present (node : value) (ks : list string) : bool :=
  match ks with
  | k :: ((_ :: _) as ks') =>
      match get_property node k with
      | Ok c => is_container c && present c ks'
      | _ => false
      end
  | _ => true
  end.

(** * Properties *)

(** ** Splitting and joining *)

Section Splitting.
Variable d : ascii → bool.

Lemma split_on_cons s : ∃ seg segs, split_on d s = seg :: segs.
Proof.
  induction s as [|c s [seg [segs IH]]]; simpl; [by eauto|].
  destruct (d c); [by eauto|]. rewrite IH. by eauto.
Qed.

Lemma split_on_free k :
  string_exists d k = false → split_on d k = [k].
Proof.
  induction k as [|c k IH]; simpl; [done|].
  intros [Hc Hk]%orb_false_iff. rewrite Hc, (IH Hk). done.
Qed.

Lemma split_on_app_sep k c s :
  string_exists d k = false → d c = true →
  split_on d (k +:+ String c s) = k :: split_on d s.
Proof.
  intros Hk Hc. induction k as [|c' k IH]; simpl.
  - by rewrite Hc.
  - simpl in Hk. apply orb_false_iff in Hk as [Hc' Hk].
    rewrite Hc', (IH Hk). done.
Qed.

Lemma split_on_join c ks :
  d c = true → ks ≠ [] →
  Forall (fun k => string_exists d k = false) ks →
  split_on d (join (String c EmptyString) ks) = ks.
Proof.
  intros Hc Hne Hks. induction Hks as [|k ks Hk Hks IH]; [done|].
  destruct ks as [|k' ks].
  - simpl. by apply split_on_free.
  - change (join (String c EmptyString) (k :: k' :: ks))
      with (k +:+ String c EmptyString
              +:+ join (String c EmptyString) (k' :: ks)).
    change (String c EmptyString +:+ ?s) with (String c s).
    rewrite split_on_app_sep by done. rewrite IH; done.
Qed.

Lemma filter_nonempty_id ks :
  Forall (fun k => nonempty k = true) ks → List.filter nonempty ks = ks.
Proof.
  induction 1 as [|k ks Hk _ IH]; simpl; [done|]. by rewrite Hk, IH.
Qed.

Lemma keys_of_join c ks :
  d c = true →
  Forall (fun k => nonempty k = true) ks →
  Forall (fun k => string_exists d k = false) ks →
  List.filter nonempty (split_on d (join (String c EmptyString) ks)) = ks.
Proof.
  intros Hc Hne Hks. destruct ks as [|k ks]; [done|].
  rewrite split_on_join by done. by apply filter_nonempty_id.
Qed.
End Splitting.

Lemma split_on_ext d1 d2 s :
  string_forall (fun c => Bool.eqb (d1 c) (d2 c)) s = true →
  split_on d1 s = split_on d2 s.
Proof.
  induction s as [|c s IH]; simpl; [done|].
  intros [Hc Hs]%andb_true_iff. apply Bool.eqb_prop in Hc.
  rewrite Hc, (IH Hs). done.
Qed.

(** ** Trees: size and structural comparison *)

Lemma map_fold_all (p : string → value → bool) (m : gmap string value) :
  map_fold (fun k x acc => acc && p k x) true m = true ↔
  ∀ k x, m !! k = Some x → p k x = true.
Proof.
  apply (map_fold_weak_ind (fun r m =>
           r = true ↔ ∀ k x, m !! k = Some x → p k x = true)); clear m.
  - split; [|done]. intros _ k x. by rewrite lookup_empty.
  - intros i x m r Hi IH. rewrite andb_true_iff, IH. split.
    + intros [Hm Hx] k y. rewrite lookup_insert. case_decide; [|by auto].
      intros [= <-]. by subst.
    + intros H. split.
      * intros k y Hk. apply H. rewrite lookup_insert_ne; [done|].
        intros ->. by rewrite Hi in Hk.
      * apply H. by rewrite lookup_insert_eq.
Qed.

Lemma map_fold_sum (f : value → nat) (m : gmap string value) k x :
  m !! k = Some x →
  map_fold (fun _ y acc => f y + acc) 0 m
  = f x + map_fold (fun _ y acc => f y + acc) 0 (delete k m).
Proof.
  intros Hk. apply (map_fold_delete_L (fun _ y acc => f y + acc)); [|done].
  intros; lia.
Qed.

Lemma vsize_child o k c : child_slot o k = Some c → vsize c < vsize o.
Proof.
  destruct o; simpl; try done; intros Hk;
    rewrite (map_fold_sum vsize _ _ _ Hk); lia.
Qed.

Lemma vsize_pos v : 0 < vsize v.
Proof. destruct v; simpl; lia. Qed.

Lemma number_same_sound x y : number_same x y = true → x = y.
Proof.
  destruct x, y; simpl; try done.
  - by intros ->%Bool.eqb_prop.
  - by intros ->%Bool.eqb_prop.
  - intros [[->%Bool.eqb_prop ->%Pos.eqb_eq]%andb_true_iff ->%Z.eqb_eq]%andb_true_iff.
    done.
Qed.

Lemma props_eqb_sound (m1 m2 : gmap string value) :
  (size m1 =? size m2)%nat = true →
  (∀ k x, m1 !! k = Some x → ∃ y, m2 !! k = Some y ∧ x = y) →
  m1 = m2.
Proof.
  intros Hsize%Nat.eqb_eq Hsub. apply map_subseteq_size_eq; [|lia].
  apply map_subseteq_spec. intros k x Hk.
  destruct (Hsub k x Hk) as (y & Hy & ->). done.
Qed.

Lemma value_eqb_sound_bounded n :
  ∀ a b, (vsize a ≤ n)%nat → value_eqb a b = true → a = b.
Proof.
  induction n as [|n IH]; intros a b Hn.
  { pose proof (vsize_pos a). lia. }
  assert (Hprops : ∀ m1 m2 : gmap string value,
    (∀ k x, m1 !! k = Some x → (vsize x ≤ n)%nat) →
    map_fold (fun k x acc =>
      acc && match m2 !! k with
             | Some y => value_eqb x y
             | None => false
             end) true m1 = true →
    ∀ k x, m1 !! k = Some x → ∃ y, m2 !! k = Some y ∧ x = y).
  { intros m1 m2 Hle Hfold k x Hk.
    pose proof (proj1 (map_fold_all
      (fun k x => match m2 !! k with
                  | Some y => value_eqb x y
                  | None => false
                  end) m1) Hfold k x Hk) as Hx.
    simpl in Hx. destruct (m2 !! k) as [y|]; [|done].
    exists y. split; [done|]. apply IH; [by eapply Hle|done]. }
  destruct a, b; simpl; try done.
  - by intros ->%Bool.eqb_prop.
  - by intros ->%number_same_sound.
  - by intros ->%String.eqb_eq.
  - intros [Hs Hf]%andb_true_iff. f_equal.
    apply props_eqb_sound; [done|]. apply Hprops; [|done].
    intros k x Hk. pose proof (vsize_child (VObj _) k x Hk). lia.
  - intros [[->%N.eqb_eq Hs]%andb_true_iff Hf]%andb_true_iff. f_equal.
    apply props_eqb_sound; [done|]. apply Hprops; [|done].
    intros k x Hk. pose proof (vsize_child (VArr 0 _) k x Hk) as Hlt.
    simpl in Hn, Hlt. lia.
Qed.

Lemma value_eqb_sound a b : value_eqb a b = true → a = b.
Proof. by apply (value_eqb_sound_bounded (vsize a)). Qed.

Lemma number_same_refl x : number_same x x = true.
Proof.
  destruct x as [s|s| |s m e]; simpl; try done; try by destruct s.
  by rewrite Pos.eqb_refl, Z.eqb_refl, andb_true_r, andb_true_r; destruct s.
Qed.

Lemma value_eqb_refl_bounded n : ∀ a, (vsize a ≤ n)%nat → value_eqb a a = true.
Proof.
  induction n as [|n IH]; intros a Hn.
  { pose proof (vsize_pos a). lia. }
  assert (Hprops : ∀ m : gmap string value,
    (∀ k x, m !! k = Some x → (vsize x ≤ n)%nat) →
    map_fold (fun k x acc =>
      acc && match m !! k with
             | Some y => value_eqb x y
             | None => false
             end) true m = true).
  { intros m Hle. apply map_fold_all. intros k x Hk. rewrite Hk.
    apply IH. by eapply Hle. }
  destruct a; simpl; try done.
  - by destruct b.
  - apply number_same_refl.
  - apply String.eqb_refl.
  - rewrite Nat.eqb_refl. apply Hprops.
    intros k x Hk. pose proof (vsize_child (VObj _) k x Hk). simpl in *. lia.
  - rewrite N.eqb_refl, Nat.eqb_refl. apply Hprops.
    intros k x Hk. pose proof (vsize_child (VArr 0 _) k x Hk) as Hlt.
    simpl in Hn, Hlt. lia.
Qed.

(** A container is identical to itself. *)
Lemma strict_eq_container_refl a :
  is_container a = true → strict_eq a a = true.
Proof.
  intros Ha. destruct a as [| | | | |m|l m]; try done.
  - by apply (value_eqb_refl_bounded (vsize (VObj m))).
  - by apply (value_eqb_refl_bounded (vsize (VArr l m))).
Qed.

(** A tree is never structurally equal to a strictly smaller one. *)
Lemma value_eqb_size a b : vsize a < vsize b → value_eqb a b = false.
Proof.
  intros Hlt. destruct (value_eqb a b) eqn:E; [|done].
  apply value_eqb_sound in E. subst. lia.
Qed.

Lemma strict_eq_size a b : vsize a < vsize b → strict_eq a b = false.
Proof.
  intros Hlt. destruct a, b; simpl; try done;
    try (simpl in Hlt; lia); by apply (value_eqb_size _ _ Hlt).
Qed.

(** ** Outcomes and containers *)

Lemma bind_Ok {A B} (f : A → outcome B) a : Ok a ≫= f = f a.
Proof. done. Qed.

Lemma container_not_nullish o : is_container o = true → is_nullish o = false.
Proof. by destruct o. Qed.

Lemma container_not_primitive o : is_container o = negb (_isPrimitive o).
Proof. by destruct o. Qed.

Lemma empty_container_is_container k : is_container (empty_container k) = true.
Proof. unfold empty_container. by destruct (isNaN_of_string k). Qed.

Lemma not_length_neq k : not_length k = true → String.eqb k "length" = false.
Proof. unfold not_length. by intros ->%negb_true_iff. Qed.

Lemma ordinary_not_length k : ordinary k = true → not_length k = true.
Proof. unfold ordinary. by intros [? ?]%andb_true_iff. Qed.

Lemma ordinary_not_proto k :
  ordinary k = true → String.eqb k "__proto__" = false.
Proof. unfold ordinary. by intros [? ?%negb_true_iff]%andb_true_iff. Qed.

Lemma not_length_slot_key o k : not_length k = true → slot_key o k = true.
Proof. unfold slot_key. intros ->. by rewrite orb_true_r. Qed.

Lemma calls_setter_ordinary m k :
  String.eqb k "__proto__" = false → calls_setter m k = false.
Proof. unfold calls_setter. by intros ->. Qed.

Lemma calls_setter_own m k c : m !! k = Some c → calls_setter m k = false.
Proof. unfold calls_setter. intros ->. by rewrite andb_false_r. Qed.

(** ** The members of the built-in prototypes *)

Lemma has_name_In names k : has_name names k = true ↔ In k names.
Proof.
  unfold has_name. rewrite existsb_exists. split.
  - by intros (x & Hx & ->%String.eqb_eq).
  - intros Hk. exists k. by rewrite String.eqb_refl.
Qed.

Lemma inherits_prototype_name o k :
  inherits o k = true → In k prototype_names.
Proof.
  unfold prototype_names. rewrite !in_app_iff.
  destruct o as [| | | | |m|len m]; cbn [inherits]; try done;
    rewrite ?orb_true_iff, !has_name_In; tauto.
Qed.

Lemma prototype_names_forall (p : string → bool) k :
  forallb p prototype_names = true → In k prototype_names → p k = true.
Proof. intros Hall Hk. by apply (proj1 (forallb_forall _ _) Hall). Qed.

(** No member of a prototype has a [.] in its name. *)
Lemma inherits_no_dot o k : has_dot k = true → inherits o k = false.
Proof.
  intros Hk. destruct (inherits o k) eqn:E; [|done].
  apply inherits_prototype_name in E.
  pose proof (prototype_names_forall (fun k => negb (has_dot k)) k eq_refl E)
    as H.
  cbn beta in H. by rewrite Hk in H.
Qed.

(** ** Reading and assigning properties of containers *)

Lemma child_slot_container o k c :
  child_slot o k = Some c → is_container o = true.
Proof. by destruct o. Qed.

Lemma own_property_slot o k :
  is_container o = true → slot_key o k = true →
  own_property o k = child_slot o k.
Proof.
  intros Ho Hk. destruct o; try done. unfold slot_key in Hk. cbn in Hk.
  apply not_length_neq in Hk. cbn [own_property child_slot]. by rewrite Hk.
Qed.

(** A slot of a container is read as it is. *)
Lemma get_property_slot o k c :
  child_slot o k = Some c → slot_key o k = true → get_property o k = Ok c.
Proof.
  intros Hc Hk. pose proof (child_slot_container _ _ _ Hc) as Ho.
  pose proof (own_property_slot _ _ Ho Hk) as Hown. rewrite Hc in Hown.
  unfold get_property. rewrite Hown. by destruct o.
Qed.

Lemma get_property_absent o k :
  is_container o = true → slot_key o k = true →
  child_slot o k = None → inherits o k = false →
  get_property o k = Ok VUndef.
Proof.
  intros Ho Hk Hc Hi. pose proof (own_property_slot _ _ Ho Hk) as Hown.
  unfold get_property. rewrite Hown, Hc, Hi. by destruct o.
Qed.

Lemma set_property_assignable o k v :
  assignable o k = true →
  ∃ o', set_property o k v = Ok o' ∧ is_container o' = true
        ∧ child_slot o' k = Some v ∧ slot_key o' k = true
        ∧ isArray o' = isArray o.
Proof.
  destruct o as [| | | | |m|len m]; cbn [assignable set_property]; try done.
  - intros ->%negb_true_iff. eexists. split; [done|]. split; [done|].
    cbn [child_slot]. by rewrite lookup_insert_eq.
  - intros [Hk ->%negb_true_iff]%andb_true_iff.
    rewrite (not_length_neq _ Hk).
    destruct (is_array_index k);
      (eexists; split; [done|]; split; [done|]; cbn [child_slot];
       rewrite lookup_insert_eq; split; [done|]; split; [|done];
       by apply not_length_slot_key).
Qed.

Lemma assignable_container o k : assignable o k = true → is_container o = true.
Proof. by destruct o. Qed.

Lemma assignable_slot_key o k : assignable o k = true → slot_key o k = true.
Proof.
  destruct o; try done. cbn [assignable].
  intros [Hk _]%andb_true_iff. by apply not_length_slot_key.
Qed.

Lemma ordinary_assignable o k :
  is_container o = true → ordinary k = true → assignable o k = true.
Proof.
  intros Ho Hk. pose proof (ordinary_not_length _ Hk) as Hl.
  pose proof (ordinary_not_proto _ Hk) as Hp.
  destruct o; try done; cbn [assignable];
    by rewrite ?Hl, (calls_setter_ordinary _ _ Hp).
Qed.

Lemma with_child_container o k c :
  is_container o = true →
  is_container (with_child o k c) = true
  ∧ child_slot (with_child o k c) k = Some c.
Proof.
  intros Ho. destruct o; simpl; try done; by rewrite lookup_insert_eq.
Qed.

Lemma with_child_isArray o k c : isArray (with_child o k c) = isArray o.
Proof. by destruct o. Qed.

Lemma with_child_slot_key o k c j :
  slot_key (with_child o k c) j = slot_key o j.
Proof. unfold slot_key. by rewrite with_child_isArray. Qed.

Lemma reduce_keys_step o k c ks :
  slot_key o k = true → child_slot o k = Some c →
  reduce_keys o (k :: ks) = reduce_keys c ks.
Proof.
  intros Hk Hc. pose proof (child_slot_container _ _ _ Hc) as Ho.
  cbn [reduce_keys]. rewrite (container_not_nullish _ Ho).
  by rewrite (get_property_slot _ _ _ Hc Hk).
Qed.

(** Whether [_update] replaces what a container holds under [k]. *)
Lemma is_primitive_at_slot o k :
  is_container o = true → slot_key o k = true →
  String.eqb k "__proto__" = false ∨ is_Some (child_slot o k) →
  is_primitive_at o k
  = Ok (match child_slot o k with
        | Some c => _isPrimitive c
        | None => true
        end).
Proof.
  intros Ho Hk Hp. pose proof (own_property_slot _ _ Ho Hk) as Hown.
  unfold is_primitive_at. rewrite Hown.
  destruct o; try done; (destruct (child_slot _ k); [done|]);
    (destruct Hp as [->|[? [=]]]; done).
Qed.

Lemma assignable_is_primitive_at o k :
  assignable o k = true →
  is_primitive_at o k
  = Ok (match child_slot o k with
        | Some c => _isPrimitive c
        | None => true
        end).
Proof.
  intros Ha. apply is_primitive_at_slot.
  - by eapply assignable_container.
  - by eapply assignable_slot_key.
  - destruct o; try done; cbn [assignable child_slot] in *;
      unfold calls_setter in Ha;
      destruct (String.eqb k "__proto__"); auto; right;
      destruct (_ !! k); try done; by rewrite ?andb_false_r in Ha.
Qed.

(** ** The write of [_update] and the walk of [_get] *)

(** Where every assignment creates or replaces a slot, the write succeeds
    and the walk over the same keys finds the value. *)
Lemma update_loop_updatable rest :
  ∀ T k V,
    updatable T (k :: rest) = true →
    ∃ T', update_loop T k rest V = Ok T' ∧ is_container T' = true
          ∧ reduce_keys T' (k :: rest) = Ok V ∧ vsize V < vsize T'.
Proof.
  induction rest as [|next rest IH]; intros T k V Hup;
    cbn [updatable] in Hup; apply andb_true_iff in Hup as [Ha Hup].
  - destruct (set_property_assignable T k V Ha)
      as (T' & HS & HT' & Hc & Hk & _).
    exists T'. cbn [update_loop]. split; [done|]. split; [done|]. split.
    + by rewrite (reduce_keys_step _ _ _ _ Hk Hc).
    + by eapply vsize_child.
  - cbn [update_loop]. rewrite (assignable_is_primitive_at _ _ Ha), bind_Ok.
    pose proof (assignable_container _ _ Ha) as HT.
    pose proof (assignable_slot_key _ _ Ha) as Hk.
    assert (∃ P, (if (match child_slot T k with
                      | Some c => _isPrimitive c
                      | None => true
                      end : bool)
                  then set_property T k (empty_container next)
                  else Ok T) = Ok P
                 ∧ is_container P = true ∧ slot_key P k = true
                 ∧ child_slot P k = Some (next_node T k next))
      as (P & -> & HP & HPk & Hc).
    { unfold next_node. destruct (child_slot T k) as [c|] eqn:Ec.
      - destruct (_isPrimitive c) eqn:E.
        + destruct (set_property_assignable T k (empty_container next) Ha)
            as (P & -> & HP & Hc & HPk & _).
          by exists P.
        + by exists T.
      - destruct (set_property_assignable T k (empty_container next) Ha)
          as (P & -> & HP & Hc & HPk & _).
        by exists P. }
    rewrite bind_Ok, (get_property_slot _ _ _ Hc HPk), bind_Ok.
    destruct (IH (next_node T k next) next V Hup)
      as (c' & -> & Hc' & Hred & Hsize).
    rewrite bind_Ok. eexists. split; [done|].
    destruct (with_child_container P k c' HP) as [HW HWc].
    split; [done|]. split.
    + rewrite (reduce_keys_step _ _ c'); [done| |done].
      by rewrite with_child_slot_key.
    + pose proof (vsize_child _ _ _ HWc). lia.
Qed.

Lemma next_node_container o k next :
  is_container (next_node o k next) = true.
Proof.
  unfold next_node. destruct (child_slot o k) as [c|]; [|apply empty_container_is_container].
  destruct (_isPrimitive c) eqn:E; [apply empty_container_is_container|].
  by rewrite container_not_primitive, E.
Qed.

(** Keys other than [length] and [__proto__] can always be written. *)
Lemma ordinary_updatable ks :
  ∀ T, is_container T = true → Forall (fun k => ordinary k = true) ks →
       updatable T ks = true.
Proof.
  induction ks as [|k ks IH]; intros T HT Hks; [done|].
  apply Forall_cons in Hks as [Hk Hks]. cbn [updatable].
  rewrite (ordinary_assignable _ _ HT Hk). cbn [andb].
  destruct ks as [|next rest]; [done|].
  apply IH; [apply next_node_container|done].
Qed.

Lemma string_exists_app d a b :
  string_exists d (a +:+ b) = string_exists d a || string_exists d b.
Proof.
  induction a as [|c a IH]; simpl; [done|]. by rewrite IH, orb_assoc.
Qed.

Lemma string_exists_mono (d1 d2 : ascii → bool) k :
  (∀ c, d1 c = true → d2 c = true) →
  string_exists d2 k = false → string_exists d1 k = false.
Proof.
  intros Hd. induction k as [|c k IH]; simpl; [done|].
  intros [Hc Hk]%orb_false_iff. rewrite (IH Hk), orb_false_r.
  destruct (d1 c) eqn:E; [|done]. by rewrite (Hd c E) in Hc.
Qed.

Lemma string_exists_join d c ks :
  d c = false →
  Forall (fun k => string_exists d k = false) ks →
  string_exists d (join (String c EmptyString) ks) = false.
Proof.
  intros Hc. induction 1 as [|k ks Hk Hks IH]; [done|].
  destruct ks as [|k' ks]; [done|].
  change (join (String c EmptyString) (k :: k' :: ks))
    with (k +:+ String c EmptyString +:+ join (String c EmptyString) (k' :: ks)).
  rewrite !string_exists_app, Hk, IH. simpl. by rewrite Hc.
Qed.

Lemma plain_key_not_length k : plain_key k = true → not_length k = true.
Proof. unfold plain_key. by intros [[? ?]%andb_true_iff ?]%andb_true_iff. Qed.

Lemma bracket_is_any c :
  is_bracket_separator c = true → is_any_separator c = true.
Proof. unfold is_any_separator. by intros ->. Qed.

Lemma delimiter_is_any c :
  is_path_delimiter c = true → is_any_separator c = true.
Proof.
  unfold is_path_delimiter, is_any_separator, is_bracket_separator.
  destruct (Ascii.eqb c "."), (Ascii.eqb c "["), (Ascii.eqb c "]"),
    (Ascii.eqb c ","); done.
Qed.

Lemma dot_is_any c : Ascii.eqb "." c = true → is_any_separator c = true.
Proof.
  intros <-%Ascii.eqb_eq. done.
Qed.

Lemma textual_key_nonempty k : textual_key k = true → nonempty k = true.
Proof. unfold textual_key. by intros [? ?]%andb_true_iff. Qed.

Lemma textual_key_free (d : ascii → bool) k :
  (∀ c, d c = true → is_any_separator c = true) →
  textual_key k = true → string_exists d k = false.
Proof.
  unfold textual_key. intros Hd [_ Hk%negb_true_iff]%andb_true_iff.
  by apply (string_exists_mono d is_any_separator).
Qed.

Lemma plain_key_textual k : plain_key k = true → textual_key k = true.
Proof. unfold plain_key, textual_key. by intros [? ?]%andb_true_iff. Qed.

Lemma plain_keys_textual ks :
  Forall (fun k => plain_key k = true) ks →
  Forall (fun k => textual_key k = true) ks.
Proof. intros H. eapply Forall_impl; [exact H|]. apply plain_key_textual. Qed.

(** The keys [_get] walks for an array path of textual keys are those
    keys, with either separator class. *)
Lemma travel_key_list T P (sep : ascii → bool) :
  sep ","%char = true → (∀ c, sep c = true → is_any_separator c = true) →
  Forall (fun k => textual_key k = true) P →
  travel T (path_to_string (PArray P)) sep = reduce_keys T P.
Proof.
  intros Hc Hsep HP. unfold travel, path_to_string.
  rewrite keys_of_join; [done|done| |].
  - eapply Forall_impl; [exact HP|]. apply textual_key_nonempty.
  - eapply Forall_impl; [exact HP|]. intros k. by apply textual_key_free.
Qed.

Lemma or_else_same (v : value) (o : outcome value) :
  o = Ok v → (if ToBoolean v then Ok v else o) = Ok v.
Proof. intros ->. by destruct (ToBoolean v). Qed.

(** What [_get] makes of a walk that found [V] in a larger tree. *)
Lemma get_result V T' D :
  vsize V < vsize T' →
  (if strict_eq V VUndef || strict_eq V T' then D else V)
  = match V with VUndef => D | _ => V end.
Proof.
  intros Hlt. rewrite (strict_eq_size _ _ Hlt), orb_false_r.
  by destruct V.
Qed.

Lemma last_nonempty (P : list string) l :
  Forall (fun k => nonempty k = true) P → last P = Some l →
  nonempty l = true.
Proof.
  intros HP Hl%last_Some_elem_of. by eapply Forall_forall in HP.
Qed.

Lemma last_default (l : list string) x d :
  last l = Some x → List.last l d = x.
Proof.
  induction l as [|k [|k' l] IH]; [done| |].
  - by intros [= ->].
  - rewrite last_cons_cons. intros H. specialize (IH H). done.
Qed.

(** A key list whose last key is not empty is written. *)
Lemma _update_key_list T k rest V :
  nonempty (List.last (k :: rest) k) = true →
  _update T (PArray (k :: rest)) V
  = update_loop (if is_nullish T then VObj ∅ else T) k rest V.
Proof.
  intros Hl. unfold _update, structuredClone.
  destruct (last (k :: rest)) as [l|] eqn:E.
  - rewrite (last_default _ _ k E) in Hl. by rewrite Hl.
  - by apply last_None in E.
Qed.

Lemma last_default_nonempty (k : string) rest :
  Forall (fun k => nonempty k = true) (k :: rest) →
  nonempty (List.last (k :: rest) k) = true.
Proof.
  intros H. destruct (last (k :: rest)) as [l|] eqn:E.
  - rewrite (last_default _ _ k E). by eapply last_nonempty.
  - by apply last_None in E.
Qed.

Lemma _update_array_path T k rest V :
  Forall (fun k => textual_key k = true) (k :: rest) →
  _update T (PArray (k :: rest)) V
  = update_loop (if is_nullish T then VObj ∅ else T) k rest V.
Proof.
  intros HP. apply _update_key_list, last_default_nonempty.
  eapply Forall_impl; [exact HP|]. apply textual_key_nonempty.
Qed.

Lemma match_segments_join P :
  Forall (fun k => textual_key k = true) P →
  match_segments (join "." P) = P.
Proof.
  intros HP. unfold match_segments. apply keys_of_join; [done| |].
  - eapply Forall_impl; [exact HP|]. apply textual_key_nonempty.
  - eapply Forall_impl; [exact HP|]. intros k.
    apply textual_key_free, delimiter_is_any.
Qed.

Lemma _update_string_path T P V :
  Forall (fun k => textual_key k = true) P →
  _update T (PString (join "." P)) V = _update T (PArray P) V.
Proof.
  intros HP. unfold _update. by rewrite match_segments_join.
Qed.

(** Writing an array path of textual keys and reading it back. *)
Lemma roundtrip_array_path T P V D :
  P ≠ [] →
  Forall (fun k => textual_key k = true) P →
  updatable (if is_nullish T then VObj ∅ else T) P = true →
  ∃ T', _update T (PArray P) V = Ok T' ∧ is_container T' = true
        ∧ reduce_keys T' P = Ok V ∧ vsize V < vsize T'
        ∧ _get T' (PArray P) D = Ok (match V with VUndef => D | _ => V end).
Proof.
  intros HP Htext Hup. destruct P as [|k rest]; [done|].
  rewrite (_update_array_path _ _ _ _ Htext).
  destruct (update_loop_updatable rest _ k V Hup)
    as (T' & -> & HT' & Hred & Hsize).
  exists T'. repeat (split; [done|]).
  unfold _get.
  rewrite !travel_key_list by (done || apply bracket_is_any || done).
  rewrite Hred, bind_Ok, (or_else_same _ _ eq_refl), bind_Ok.
  by rewrite get_result.
Qed.

Lemma set_property_frame o k v o' j :
  set_property o k v = Ok o' → slot_key o k = true → j ≠ k →
  child_slot o' j = child_slot o j.
Proof.
  intros HS Hk Hj. destruct o as [| | | | |m|len m];
    cbn [set_property] in HS; try done.
  - by destruct (String.eqb k "__proto__").
  - by destruct (String.eqb k "__proto__").
  - by destruct (String.eqb k "__proto__").
  - destruct (calls_setter m k); [done|]. injection HS as <-.
    cbn [child_slot]. by rewrite lookup_insert_ne.
  - unfold slot_key in Hk. cbn in Hk. rewrite (not_length_neq _ Hk) in HS.
    destruct (calls_setter m k); [done|].
    destruct (is_array_index k);
      injection HS as <-; cbn [child_slot]; by rewrite lookup_insert_ne.
Qed.

Lemma set_property_isArray o k v o' :
  set_property o k v = Ok o' → isArray o' = isArray o.
Proof.
  destruct o as [| | | | |m|len m]; cbn [set_property]; try done.
  - by destruct (String.eqb k "__proto__").
  - by destruct (String.eqb k "__proto__").
  - by destruct (String.eqb k "__proto__").
  - destruct (calls_setter m k); [done|]. by intros [= <-].
  - destruct (String.eqb k "length").
    + unfold ArraySetLength. destruct (ToNumber v) as [n| |]; [|done..].
      rewrite bind_Ok. destruct (Number_to_N n) as [l|]; [|done].
      destruct (l <? 2 ^ 32)%N; [|done]. by intros [= <-].
    + destruct (calls_setter m k); [done|].
      destruct (is_array_index k); by intros [= <-].
Qed.

(** An assignment succeeds on a mapping or a sequence only. *)
Lemma set_property_Ok o k v o' :
  set_property o k v = Ok o' → is_container o = true ∧ is_container o' = true.
Proof.
  destruct o as [| | | | |m|len m]; cbn [set_property]; try done.
  - by destruct (String.eqb k "__proto__").
  - by destruct (String.eqb k "__proto__").
  - by destruct (String.eqb k "__proto__").
  - destruct (calls_setter m k); [done|]. by intros [= <-].
  - destruct (String.eqb k "length").
    + unfold ArraySetLength. destruct (ToNumber v) as [n| |]; [|done..].
      rewrite bind_Ok. destruct (Number_to_N n) as [l|]; [|done].
      destruct (l <? 2 ^ 32)%N; [|done]. by intros [= <-].
    + destruct (calls_setter m k); [done|].
      destruct (is_array_index k); by intros [= <-].
Qed.

Lemma with_child_frame o k c j :
  j ≠ k → child_slot (with_child o k c) j = child_slot o j.
Proof.
  intros Hj. destruct o; simpl; try done; by rewrite lookup_insert_ne.
Qed.

(** Case analysis on the outcome bound first in [H], of which only the
    normal one goes on. *)
Ltac bind_ok H :=
  match type of H with
  | (?o ≫= _) = Ok _ =>
      let E := fresh "E" in
      destruct o eqn:E; [rewrite bind_Ok in H|discriminate H..]
  end.

(** [_update] touches the slot of the first key only. *)
Lemma update_loop_frame T k rest V T' j :
  update_loop T k rest V = Ok T' → slot_key T k = true → j ≠ k →
  child_slot T' j = child_slot T j.
Proof.
  intros HU Hk Hj. destruct rest as [|next rest].
  - by eapply set_property_frame.
  - cbn [update_loop] in HU.
    destruct (is_primitive_at T k) as [b| |]; [|done..].
    rewrite bind_Ok in HU.
    destruct b; do 3 bind_ok HU;
      injection HU as <-; rewrite with_child_frame by done.
    + by eapply set_property_frame.
    + congruence.
Qed.

Lemma join_cons_cons sep k k' ks :
  join sep (k :: k' :: ks) = k +:+ sep +:+ join sep (k' :: ks).
Proof. done. Qed.

Lemma join_nonempty sep k ks :
  nonempty k = true → nonempty (join sep (k :: ks)) = true.
Proof.
  intros Hk. destruct ks as [|k' ks]; [done|].
  rewrite join_cons_cons. by destruct k.
Qed.

Lemma join_has_dot k k' ks : has_dot (join "." (k :: k' :: ks)) = true.
Proof.
  rewrite join_cons_cons. unfold has_dot. rewrite !string_exists_app.
  simpl. by rewrite orb_true_r.
Qed.

Lemma has_dot_not_length k : has_dot k = true → String.eqb k "length" = false.
Proof.
  intros Hk. destruct (String.eqb k "length") eqn:E; [|done].
  apply String.eqb_eq in E. by subst.
Qed.

Lemma has_dot_slot_key o k : has_dot k = true → slot_key o k = true.
Proof.
  intros Hk%has_dot_not_length. apply not_length_slot_key.
  unfold not_length. by rewrite Hk.
Qed.

Lemma updatable_slot_key T k rest :
  updatable T (k :: rest) = true → slot_key T k = true.
Proof.
  cbn [updatable]. intros [Ha _]%andb_true_iff. by eapply assignable_slot_key.
Qed.

(** Writing a path given as the keys joined by [.] and reading it back,
    as [update] and [custom] of lib/index.ts do with [keys.join('.')].
    The first walk of [_get] looks the whole string up as one member
    name: the target must hold nothing under it. *)
Lemma roundtrip_string_path T P V D :
  P ≠ [] →
  Forall (fun k => textual_key k = true) P →
  updatable (if is_nullish T then VObj ∅ else T) P = true →
  child_slot T (join "." P) = None ∨ length P = 1 →
  ∃ T', _update T (PString (join "." P)) V = Ok T'
        ∧ _get T' (PString (join "." P)) D
          = Ok (match V with VUndef => D | _ => V end).
Proof.
  intros HP Htext Hup Hfree.
  rewrite (_update_string_path _ _ _ Htext).
  destruct (roundtrip_array_path T P V D HP Htext Hup)
    as (T' & HU & HT' & Hred & Hsize & _).
  exists T'. split; [done|]. unfold _get, path_to_string.
  assert (travel T' (join "." P) is_any_separator = Ok V) as ->.
  { unfold travel. rewrite keys_of_join; [done|done| |].
    - eapply Forall_impl; [exact Htext|]. apply textual_key_nonempty.
    - eapply Forall_impl; [exact Htext|]. intros k. by apply textual_key_free. }
  assert (travel T' (join "." P) is_bracket_separator
          = reduce_keys T' [join "." P]) as ->.
  { unfold travel. rewrite split_on_free.
    - destruct P as [|k rest]; [done|]. apply Forall_cons in Htext as [Hk _].
      cbn [List.filter].
      by rewrite (join_nonempty _ _ _ (textual_key_nonempty _ Hk)).
    - apply string_exists_join; [done|].
      eapply Forall_impl; [exact Htext|]. intros k.
      apply textual_key_free, bracket_is_any. }
  destruct P as [|k [|k' rest]]; [done| |].
  - cbn [join]. rewrite Hred, bind_Ok, (or_else_same _ _ eq_refl), bind_Ok.
    by rewrite get_result.
  - destruct Hfree as [Hfree|Hlen]; [|done].
    pose proof (join_has_dot k k' rest) as Hdot.
    pose proof Htext as [Hk Hrest]%Forall_cons.
    assert (join "." (k :: k' :: rest) ≠ k) as Hne.
    { intros Heq. rewrite Heq in Hdot. unfold has_dot in Hdot.
      rewrite (textual_key_free _ _ dot_is_any Hk) in Hdot. done. }
    rewrite (_update_array_path _ _ _ _ Htext) in HU.
    pose proof (update_loop_frame _ _ _ _ _ _ HU
                  (updatable_slot_key _ _ _ Hup) Hne) as Hframe.
    assert (child_slot T' (join "." (k :: k' :: rest)) = None) as Hnone.
    { rewrite Hframe. destruct (is_nullish T); [done|]. done. }
    cbn [reduce_keys]. rewrite (container_not_nullish _ HT').
    rewrite (get_property_absent _ _ HT' (has_dot_slot_key _ _ Hdot) Hnone
               (inherits_no_dot _ _ Hdot)), !bind_Ok.
    cbn [ToBoolean]. rewrite bind_Ok.
    by rewrite get_result.
Qed.

(** ** Round trip *)

(** C1, as stated, fails.  A key of a canonical key list may contain a
    comma (section 3 separates keys at [.], [[] and []] only), and [_get]
    turns its path into a string and splits it at commas: writing ["v"]
    under the one key ["a,b"] of [{}] and reading the same path back
    yields [undefined], whether the path is passed as the key list or as
    the string.  And on a sequence the key [length] is the length of the
    array: writing [true] under [length] of [[]] sets the length to 1,
    and reading it back yields the number 1. *)
Lemma C1_key_not_read_back :
  spec_canonical_keys "a,b" = ["a,b"]
  ∧ (∃ T', _update (VObj ∅) (PArray ["a,b"]) (VStr "v") = Ok T'
           ∧ T' = js_object [("a,b", VStr "v")]
           ∧ _get T' (PArray ["a,b"]) VUndef = Ok VUndef)
  ∧ (∃ T', _update (VObj ∅) (PString "a,b") (VStr "v") = Ok T'
           ∧ T' = js_object [("a,b", VStr "v")]
           ∧ _get T' (PString "a,b") VUndef = Ok VUndef)
  ∧ VUndef ≠ VStr "v"
  ∧ (∃ T', _update (js_array []) (PArray ["length"]) (VBool true) = Ok T'
           ∧ T' = VArr 1 ∅
           ∧ _get T' (PArray ["length"]) VUndef = Ok (VNum (Number_of_N 1)))
  ∧ VNum (Number_of_N 1) ≠ VBool true.
Proof.
  split; [reflexivity|].
  split; [eexists; repeat split; vm_compute; reflexivity|].
  split; [eexists; repeat split; vm_compute; reflexivity|].
  split; [done|].
  split; [eexists; repeat split; vm_compute; reflexivity|done].
Qed.

(** C1 (amended): round trip.  For every target, every key list of
    length at least 1 whose keys are not empty and free of [.], [[], []]
    and [,], and every value: when every assignment of the write creates
    or replaces a slot of a mapping or a sequence (the target is a
    mapping, a sequence or absent; no key is [length] where the node is a
    sequence, nor [__proto__] where the node has no member of that name),
    the write returns a structure from which the read of the same key
    list returns the written value exactly (the default when the written
    value is [undefined]).  The same holds when both calls take the keys
    joined by [.] as a string, provided the target holds no member named
    by the whole string of a path of two keys or more. *)
Theorem C1_roundtrip T P V :
  P ≠ [] →
  Forall (fun k => textual_key k = true) P →
  updatable (if is_nullish T then VObj ∅ else T) P = true →
  (∃ T', _update T (PArray P) V = Ok T'
         ∧ _get T' (PArray P) VUndef = Ok V
         ∧ ∀ D, _get T' (PArray P) D
                = Ok (match V with VUndef => D | _ => V end))
  ∧ (child_slot T (join "." P) = None ∨ length P = 1 →
     ∃ T', _update T (PString (join "." P)) V = Ok T'
           ∧ _get T' (PString (join "." P)) VUndef = Ok V
           ∧ ∀ D, _get T' (PString (join "." P)) D
                  = Ok (match V with VUndef => D | _ => V end)).
Proof.
  intros HP Htext Hup. split.
  - destruct (roundtrip_array_path T P V VUndef HP Htext Hup)
      as (T' & HU & _ & _ & _ & HG).
    exists T'. split; [done|]. split.
    + rewrite HG. by destruct V.
    + intros D.
      destruct (roundtrip_array_path T P V D HP Htext Hup)
        as (T'' & HU' & _ & _ & _ & HG').
      rewrite HU in HU'. by injection HU' as <-.
  - intros Hfree.
    destruct (roundtrip_string_path T P V VUndef HP Htext Hup Hfree)
      as (T' & HU & HG).
    exists T'. split; [done|]. split.
    + rewrite HG. by destruct V.
    + intros D.
      destruct (roundtrip_string_path T P V D HP Htext Hup Hfree)
        as (T'' & HU' & HG').
      rewrite HU in HU'. by injection HU' as <-.
Qed.

Lemma C1_roundtrip_witness :
  let T := js_object [("length", VBool true)] in
  let P := ["length"; "0"; "constructor"] in
  (∃ T', _update T (PArray P) (VStr "v") = Ok T'
         ∧ _get T' (PArray P) VUndef = Ok (VStr "v")
         ∧ ∀ D, _get T' (PArray P) D = Ok (VStr "v"))
  ∧ (∃ T', _update T (PString (join "." P)) (VStr "v") = Ok T'
           ∧ _get T' (PString (join "." P)) VUndef = Ok (VStr "v")
           ∧ ∀ D, _get T' (PString (join "." P)) D = Ok (VStr "v")).
Proof.
  destruct (C1_roundtrip (js_object [("length", VBool true)])
              ["length"; "0"; "constructor"] (VStr "v")) as [Hlist Hstring].
  - discriminate.
  - repeat constructor.
  - reflexivity.
  - split; [exact Hlist|]. apply Hstring. left. reflexivity.
Defined.

(** ** Numeric keys and container inference *)

(** C2, as stated, fails: ["01"] converts to the number 1, so
    [isNaN(+"01")] is false and the key is classified as numeric; a
    sequence is created in front of it. *)
Lemma C2_leading_zero_is_numeric :
  isNaN_of_string "01" = false ∧ empty_container "01" = VArr 0 ∅.
Proof. split; reflexivity. Qed.

(** C2 (amended): numeric key classification.  The predicate
    [isNaN(+key)], which the path resolver and the key-capture proxy
    share, classifies ["0"] and ["01"] as numeric (a sequence is created
    in front of them) and ["a1"] as non-numeric (a mapping is created),
    in [_update] and in the [get] trap of the proxies alike. *)
Theorem C2_numeric_key_classification :
  (isNaN_of_string "0" = false ∧ isNaN_of_string "01" = false
   ∧ isNaN_of_string "a1" = true)
  ∧ (∀ V, _update (VObj ∅) (PArray ["x"; "0"]) V
          = Ok (js_object [("x", VArr 1 {["0" := V]})])
        ∧ _update (VObj ∅) (PArray ["x"; "01"]) V
          = Ok (js_object [("x", VArr 0 {["01" := V]})])
        ∧ _update (VObj ∅) (PArray ["x"; "a1"]) V
          = Ok (js_object [("x", js_object [("a1", V)])]))
  ∧ access (VObj ∅) (keysProxy (VObj ∅)) ["x"; "0"]
    = Ok (js_object [("x", VArr 0 ∅)], Inner (RNode ["x"]) ["x"; "0"])
  ∧ access (VObj ∅) (keysProxy (VObj ∅)) ["x"; "01"]
    = Ok (js_object [("x", VArr 0 ∅)], Inner (RNode ["x"]) ["x"; "01"])
  ∧ access (VObj ∅) (keysProxy (VObj ∅)) ["x"; "a1"]
    = Ok (js_object [("x", VObj ∅)], Inner (RNode ["x"]) ["x"; "a1"]).
Proof.
  split; [by repeat split|]. split.
  - intros V. repeat split; vm_compute; reflexivity.
  - repeat split; vm_compute; reflexivity.
Qed.

(** C7: container inference.  For every value [V], writing [V] to the
    path ["a.0.b"] on [{}] produces [{a: [{b: V}]}], and writing [V] to
    ["a.b"] on [{}] produces [{a: {b: V}}]. *)
Theorem C7_container_inference V :
  _update (VObj ∅) (PString "a.0.b") V
  = Ok (js_object [("a", js_array [js_object [("b", V)]])])
  ∧ _update (VObj ∅) (PString "a.b") V
    = Ok (js_object [("a", js_object [("b", V)])]).
Proof. split; vm_compute; reflexivity. Qed.

(** ** The empty path *)

(** C9, as stated, fails for an absent target: [_update] starts from
    [obj ?? {}], so the result is the empty mapping, not the target. *)
Lemma C9_absent_target_becomes_mapping :
  _update VUndef (PArray []) (VStr "v") = Ok (VObj ∅) ∧ VObj ∅ ≠ VUndef.
Proof. split; [reflexivity|done]. Qed.

(** C9 (amended): the empty path.  For every target that is present
    (neither [null] nor [undefined]) and every value, writing to a path
    with zero keys, be it the empty key list or a string without a
    segment, returns the target unchanged; for an absent target it
    returns the empty mapping. *)
Theorem C9_empty_path_noop T V :
  (is_nullish T = false →
   _update T (PArray []) V = Ok T ∧ _update T (PString "") V = Ok T)
  ∧ (is_nullish T = true →
     _update T (PArray []) V = Ok (VObj ∅)
     ∧ _update T (PString "") V = Ok (VObj ∅)).
Proof.
  unfold _update, structuredClone. cbn [match_segments last].
  split; intros ->; done.
Qed.

Lemma C9_empty_path_noop_witness :
  _update (js_object [("a", VBool true)]) (PArray []) (VStr "v")
  = Ok (js_object [("a", VBool true)])
  ∧ _update (js_object [("a", VBool true)]) (PString "") (VStr "v")
    = Ok (js_object [("a", VBool true)]).
Proof.
  apply (proj1 (C9_empty_path_noop (js_object [("a", VBool true)]) (VStr "v"))).
  reflexivity.
Defined.

(** ** The two walks of [_get] *)

Lemma dot_free_child o k c :
  dot_free o = true → child_slot o k = Some c →
  has_dot k = false ∧ dot_free c = true.
Proof.
  intros Ho Hk.
  assert (negb (has_dot k) && dot_free c = true) as [H1 H2]%andb_true_iff.
  { destruct o; simpl in Ho, Hk; try done;
      exact (proj1 (map_fold_all
               (fun k x => negb (has_dot k) && dot_free x) _) Ho k c Hk). }
  by apply negb_true_iff in H1.
Qed.

Lemma has_dot_not_digits k : has_dot k = true → string_forall is_digit k = false.
Proof.
  induction k as [|c k IH]; simpl; [done|].
  intros [Hc|Hk]%orb_true_iff.
  - apply Ascii.eqb_eq in Hc as <-. done.
  - by rewrite (IH Hk), andb_false_r.
Qed.

Lemma has_dot_not_index k : has_dot k = true → is_array_index k = None.
Proof.
  intros Hk%has_dot_not_digits. unfold is_array_index.
  destruct k; [done|]. by rewrite Hk.
Qed.

Lemma own_property_dot_free o k c :
  dot_free o = true → own_property o k = Some c → dot_free c = true.
Proof.
  intros Ho. destruct o as [| | | |str|m|len m]; cbn [own_property]; try done.
  - destruct (String.eqb k "length"); [by intros [= <-]|].
    destruct (is_array_index k); [|done].
    destruct (String.get _ _); [|done]. by intros [= <-].
  - intros E. by destruct (dot_free_child (VObj m) k c Ho E).
  - destruct (String.eqb k "length"); [by intros [= <-]|].
    intros E. by destruct (dot_free_child (VArr len m) k c Ho E).
Qed.

Lemma get_property_dot_free o k c :
  dot_free o = true → get_property o k = Ok c → dot_free c = true.
Proof.
  intros Ho. unfold get_property.
  destruct (own_property o k) as [c'|] eqn:E.
  - pose proof (own_property_dot_free _ _ _ Ho E).
    destruct o; try done; by intros [= <-].
  - destruct o; try done; destruct (inherits _ k); try done; by intros [= <-].
Qed.

Lemma own_property_dotted o k :
  dot_free o = true → has_dot k = true → own_property o k = None.
Proof.
  intros Ho Hk. destruct o as [| | | |str|m|len m]; cbn [own_property];
    try done.
  - by rewrite (has_dot_not_length _ Hk), (has_dot_not_index _ Hk).
  - destruct (m !! k) as [c|] eqn:E; [|done].
    destruct (dot_free_child (VObj m) k c Ho E) as [Hk' _]. congruence.
  - rewrite (has_dot_not_length _ Hk).
    destruct (m !! k) as [c|] eqn:E; [|done].
    destruct (dot_free_child (VArr len m) k c Ho E) as [Hk' _]. congruence.
Qed.

(** A member name with a [.] finds nothing in a tree without such names. *)
Lemma get_property_dotted o k :
  dot_free o = true → has_dot k = true → is_nullish o = false →
  get_property o k = Ok VUndef.
Proof.
  intros Ho Hk Hn. unfold get_property.
  rewrite (own_property_dotted _ _ Ho Hk), (inherits_no_dot _ _ Hk).
  by destruct o.
Qed.

Lemma reduce_keys_nullish r ks :
  is_nullish r = true → reduce_keys r ks = Ok r.
Proof.
  intros Hr. induction ks as [|k ks IH]; simpl; [done|]. by rewrite Hr.
Qed.

(** A read under a key that names no member of a prototype returns. *)
Lemma get_property_total o k :
  is_nullish o = false → inherits o k = false → ∃ c, get_property o k = Ok c.
Proof.
  intros Ho Hk. unfold get_property. rewrite Hk.
  destruct o; try done; destruct (own_property _ k); by eauto.
Qed.

Lemma reduce_keys_total ks :
  Forall (fun k => ∀ o, inherits o k = false) ks →
  ∀ T, ∃ r, reduce_keys T ks = Ok r.
Proof.
  induction 1 as [|k ks Hk _ IH]; intros T; cbn [reduce_keys]; [by eauto|].
  destruct (is_nullish T) eqn:E; [by apply IH|].
  destruct (get_property_total T k E (Hk T)) as [c ->]. by apply IH.
Qed.

Lemma not_prototype_name k o :
  has_name prototype_names k = false → inherits o k = false.
Proof.
  intros Hk. destruct (inherits o k) eqn:E; [|done].
  apply inherits_prototype_name, has_name_In in E. congruence.
Qed.

(** Splitting at [.], [[], []] and [,] is splitting at [[], []] and [,],
    then at [.]. *)
Lemma split_on_flat_map s :
  split_on is_any_separator s
  = flat_map (split_on (Ascii.eqb ".")) (split_on is_bracket_separator s).
Proof.
  induction s as [|c s IH]; [done|]. cbn [split_on].
  unfold is_any_separator at 1.
  destruct (is_bracket_separator c) eqn:Eb.
  - cbn [orb flat_map split_on app]. by rewrite IH.
  - destruct (split_on_cons is_bracket_separator s) as (seg & segs & Hs).
    rewrite Hs in IH |- *. cbn [orb flat_map split_on] in IH |- *.
    rewrite (Ascii.eqb_sym "." c). destruct (Ascii.eqb c ".").
    + by rewrite IH.
    + rewrite IH.
      destruct (split_on_cons (Ascii.eqb ".") seg) as (x & xs & ->). done.
Qed.

(** In a tree whose member names have no [.], the walk over keys that
    may hold a [.] finds what the walk over their pieces finds, or ends
    at [null] or [undefined]. *)
Lemma two_walks L :
  ∀ n, dot_free n = true →
       reduce_keys n (List.filter nonempty L)
       = reduce_keys n (List.filter nonempty
                          (flat_map (split_on (Ascii.eqb ".")) L))
       ∨ ∃ r, reduce_keys n (List.filter nonempty L) = Ok r
              ∧ is_nullish r = true.
Proof.
  induction L as [|k L IH]; intros n Hn; [by left|].
  destruct (is_nullish n) eqn:En.
  { right. exists n. by rewrite reduce_keys_nullish. }
  cbn [flat_map]. rewrite List.filter_app.
  destruct (nonempty k) eqn:Hne; [|destruct k; [by apply IH|done]].
  cbn [List.filter]. rewrite Hne.
  destruct (has_dot k) eqn:Ek.
  - right. cbn [reduce_keys].
    rewrite En, (get_property_dotted _ _ Hn Ek En), bind_Ok.
    exists VUndef. by rewrite reduce_keys_nullish.
  - rewrite (split_on_free _ _ Ek). cbn [List.filter app]. rewrite Hne.
    cbn [reduce_keys app]. rewrite En.
    destruct (get_property n k) as [x| |] eqn:Ex; [|by left..].
    rewrite !bind_Ok. apply IH. by eapply get_property_dot_free.
Qed.

(** In a tree whose member names have no [.], [_get] returns what its
    second walk finds. *)
Lemma get_second_walk T s :
  dot_free T = true →
  (travel T s is_bracket_separator
     ≫= (fun first => if ToBoolean first then Ok first
                      else travel T s is_any_separator))
  = travel T s is_any_separator.
Proof.
  intros HT. unfold travel. rewrite split_on_flat_map.
  destruct (two_walks (split_on is_bracket_separator s) T HT)
    as [->|(r & -> & Hr)].
  - destruct (reduce_keys T _) as [v| |]; [|done..].
    rewrite bind_Ok. by destruct (ToBoolean v).
  - rewrite bind_Ok. by destruct r.
Qed.

Lemma bind_assoc {A B C} (o : outcome A) (f : A → outcome B)
    (g : B → outcome C) :
  (o ≫= f) ≫= g = o ≫= (fun a => f a ≫= g).
Proof. by destruct o. Qed.

Lemma get_dot_free T p D :
  dot_free T = true →
  _get T p D
  = travel T (path_to_string p) is_any_separator
      ≫= (fun v => Ok (if strict_eq v VUndef || strict_eq v T then D else v)).
Proof.
  intros HT. pose proof (get_second_walk T (path_to_string p) HT) as H.
  unfold _get.
  destruct (travel T (path_to_string p) is_bracket_separator) as [v1| |].
  - rewrite !bind_Ok in *. by rewrite H.
  - by rewrite <- H.
  - by rewrite <- H.
Qed.

Lemma no_comma_same_split s :
  string_exists (Ascii.eqb ",") s = false →
  split_on is_any_separator s = split_on is_path_delimiter s.
Proof.
  intros Hs. apply split_on_ext.
  induction s as [|c s IH]; cbn [string_forall]; [done|].
  cbn [string_exists] in Hs. apply orb_false_iff in Hs as [Hc Hs].
  rewrite (IH Hs), andb_true_r.
  unfold is_any_separator, is_bracket_separator, is_path_delimiter.
  rewrite Ascii.eqb_sym in Hc. rewrite Hc.
  by destruct (Ascii.eqb c "."), (Ascii.eqb c "["), (Ascii.eqb c "]").
Qed.

(** Where every read is a read in the tree, the walk of the code is the
    walk of the specification. *)
Lemma tree_walk_spec ks :
  ∀ n, tree_walk n ks = true → reduce_keys n ks = Ok (spec_walk n ks).
Proof.
  induction ks as [|k ks IH]; intros n Hn; [done|].
  cbn [tree_walk] in Hn. cbn [reduce_keys spec_walk].
  destruct (is_nullish n) eqn:En.
  { rewrite bind_Ok. by apply reduce_keys_nullish. }
  cbn [orb] in Hn. apply andb_true_iff in Hn as [Hk Hks].
  assert (get_property n k = Ok (spec_lookup n k)) as ->;
    [|rewrite bind_Ok; by apply IH].
  unfold tree_read in Hk. unfold get_property, spec_lookup.
  destruct (own_property n k) as [c|] eqn:Ec.
  - apply andb_true_iff in Hk as [Hn Hslot].
    rewrite (own_property_slot _ _ Hn Hslot) in Ec. rewrite Ec.
    by destruct n.
  - apply negb_true_iff in Hk. rewrite Hk.
    assert (child_slot n k = None) as ->; [|by destruct n].
    destruct n as [| | | | |m|len m]; try done.
    cbn [own_property child_slot] in *.
    by destruct (String.eqb k "length").
Qed.

(** ** Canonicalization in the read *)

(** C4, as stated, fails: [_get] walks the path twice.  The first walk
    splits at [,], [[] and []] only and wins when it finds a truthy value:
    in [{"a.b": 1, a: {b: 2}}] the path ["a.b"] reads 1, the member named
    ["a.b"], where the walk over the canonical key list [a; b] reads 2. *)
Lemma C4_first_walk_wins :
  let T := js_object [("a.b", VNum (Number_of_N 1));
                      ("a", js_object [("b", VNum (Number_of_N 2))])] in
  spec_canonical_keys "a.b" = ["a"; "b"]
  ∧ _get T (PString "a.b") VUndef = Ok (VNum (Number_of_N 1))
  ∧ spec_resolveRead T (spec_canonical_keys "a.b") VUndef
    = VNum (Number_of_N 2)
  ∧ _get T (PString "a.b") VUndef
    ≠ Ok (spec_resolveRead T (spec_canonical_keys "a.b") VUndef).
Proof.
  repeat split; try (vm_compute; reflexivity). vm_compute. discriminate.
Qed.

(** C4 (amended): canonicalization.  For every target in which no member
    name contains a [.], every string path without a comma and every
    default, the read makes one walk, over the single key list that the
    rule of section 3 gives (split on any run of [.], [[], []], drop empty
    segments), followed by the default rule.  Where every read of that
    walk is a read in the tree (the key is a slot of the mapping or
    sequence at hand, or the node has no member of that name, not even
    an inherited one), the result is that of the read of section 4.1 over
    that key list. *)
Theorem C4_read_is_canonical_walk T s D :
  dot_free T = true →
  string_exists (Ascii.eqb ",") s = false →
  _get T (PString s) D
  = (found ← reduce_keys T (spec_canonical_keys s);
     Ok (if strict_eq found VUndef || strict_eq found T then D else found))
  ∧ (tree_walk T (spec_canonical_keys s) = true →
     _get T (PString s) D
     = Ok (spec_resolveRead T (spec_canonical_keys s) D)).
Proof.
  intros HT Hs.
  assert (_get T (PString s) D
          = (found ← reduce_keys T (spec_canonical_keys s);
             Ok (if strict_eq found VUndef || strict_eq found T
                 then D else found))) as Hget.
  { rewrite (get_dot_free T (PString s) D HT).
    unfold spec_canonical_keys, travel, path_to_string.
    by rewrite (no_comma_same_split _ Hs). }
  split; [done|]. intros Hwalk.
  by rewrite Hget, (tree_walk_spec _ _ Hwalk), bind_Ok.
Qed.

Lemma C4_read_is_canonical_walk_witness :
  let T := js_object [("a", js_array [js_object [("b", VStr "x")]])] in
  _get T (PString "a[0].b") VUndef
  = (found ← reduce_keys T (spec_canonical_keys "a[0].b");
     Ok (if strict_eq found VUndef || strict_eq found T
         then VUndef else found))
  ∧ _get T (PString "a[0].b") VUndef
    = Ok (spec_resolveRead T (spec_canonical_keys "a[0].b") VUndef)
  ∧ spec_resolveRead T (spec_canonical_keys "a[0].b") VUndef = VStr "x".
Proof.
  destruct (C4_read_is_canonical_walk
              (js_object [("a", js_array [js_object [("b", VStr "x")]])])
              "a[0].b" VUndef) as [Hwalk Hspec]; [reflexivity..|].
  split; [exact Hwalk|]. split; [|reflexivity]. apply Hspec. reflexivity.
Defined.

(** ** The default value *)

(** The keys of the first walk of [_get] that have no [.] are keys of the
    second walk. *)
Lemma first_walk_keys s k :
  In k (List.filter nonempty (split_on is_bracket_separator s)) →
  has_dot k = false →
  In k (List.filter nonempty (split_on is_any_separator s)).
Proof.
  rewrite split_on_flat_map, !filter_In, in_flat_map.
  intros [Hk Hne] Hdot. split; [|done].
  exists k. split; [done|]. rewrite (split_on_free _ _ Hdot). by left.
Qed.

(** C8, as stated, fails where the walk stops at a [null] node: the path
    ["a.b"] is not present in [{a: null}], yet the read returns [null],
    not the default. *)
Lemma C8_null_node_returns_null :
  _get (js_object [("a", VNull)]) (PString "a.b") (VStr "D") = Ok VNull
  ∧ VNull ≠ VStr "D".
Proof. split; [vm_compute; reflexivity|done]. Qed.

(** C8 (amended): default-value fallback.  For every default [D],
    [read({}, "a.b.c", D)] and [read(undefined, "x", D)] return [D].  For
    every target and every path none of whose keys (the pieces between
    [.], [[], []] and [,]) is the name of a member of a built-in
    prototype, the read returns a value and does not throw; being a
    function of its arguments it mutates nothing.  It returns the default
    whenever no member name of the target contains a [.] and the walk
    over the path's keys ends at [undefined]; a walk that stops at a
    [null] node returns [null]. *)
Theorem C8_default_fallback D :
  (_get (VObj ∅) (PString "a.b.c") D = Ok D
   ∧ _get VUndef (PString "x") D = Ok D)
  ∧ (∀ T p,
       Forall (fun k => has_name prototype_names k = false)
         (List.filter nonempty
            (split_on is_any_separator (path_to_string p))) →
       ∃ r, _get T p D = Ok r)
  ∧ (∀ T p, dot_free T = true →
            travel T (path_to_string p) is_any_separator = Ok VUndef →
            _get T p D = Ok D)
  ∧ (∀ T p, dot_free T = true →
            travel T (path_to_string p) is_any_separator = Ok VNull →
            is_nullish T = false →
            _get T p D = Ok VNull).
Proof.
  split; [split; vm_compute; reflexivity|]. split; [|split].
  - intros T p Hkeys. unfold _get, travel.
    destruct (reduce_keys_total
      (List.filter nonempty
         (split_on is_bracket_separator (path_to_string p)))) with (T := T)
      as [v1 ->].
    { apply Forall_forall. intros k Hk%list_elem_of_In o.
      destruct (has_dot k) eqn:Ek; [by apply inherits_no_dot|].
      apply not_prototype_name.
      apply (proj1 (Forall_forall _ _) Hkeys), list_elem_of_In.
      by apply first_walk_keys. }
    destruct (reduce_keys_total
      (List.filter nonempty
         (split_on is_any_separator (path_to_string p)))) with (T := T)
      as [v2 ->].
    { eapply Forall_impl; [exact Hkeys|]. intros k Hk o.
      by apply not_prototype_name. }
    rewrite bind_Ok. destruct (ToBoolean v1); rewrite bind_Ok; by eauto.
  - intros T p HT Hv. by rewrite (get_dot_free T p D HT), Hv.
  - intros T p HT Hv Hn. rewrite (get_dot_free T p D HT), Hv, bind_Ok.
    by destruct T.
Qed.

Lemma C8_default_fallback_witness :
  (∃ r, _get (js_object [("a", js_object [("b", VBool true)])])
          (PString "a.c.d") (VStr "D") = Ok r)
  ∧ _get (js_object [("a", js_object [("b", VBool true)])]) (PString "a.c.d")
         (VStr "D")
    = Ok (VStr "D").
Proof.
  pose proof (C8_default_fallback (VStr "D")) as (_ & Htotal & Hdefault & _).
  split.
  - apply (Htotal (js_object [("a", js_object [("b", VBool true)])])
             (PString "a.c.d")).
    repeat constructor.
  - apply (Hdefault (js_object [("a", js_object [("b", VBool true)])])
             (PString "a.c.d")); reflexivity.
Defined.

(** ** Numeric keys in canonical form *)

Lemma digit_char c :
  is_digit c = true →
  is_whitespace c = false ∧ is_any_separator c = false ∧ is_sign c = false
  ∧ Ascii.eqb c "l" = false.
Proof. destruct c as [[] [] [] [] [] [] [] []]; done. Qed.

Lemma digits_no_separator k :
  string_forall is_digit k = true → string_exists is_any_separator k = false.
Proof.
  induction k as [|c k IH]; cbn [string_forall string_exists]; [done|].
  intros [Hc Hk]%andb_true_iff. rewrite (IH Hk).
  by destruct (digit_char c Hc) as (_ & -> & _).
Qed.

Lemma digits_trim_end k :
  string_forall is_digit k = true → trim_end k = k.
Proof.
  induction k as [|c k IH]; cbn [string_forall trim_end]; [done|].
  intros [Hc Hk]%andb_true_iff. rewrite (IH Hk).
  destruct (digit_char c Hc) as (-> & _). by destruct k.
Qed.

Lemma digits_trim k : string_forall is_digit k = true → trim k = k.
Proof.
  intros Hk. unfold trim. destruct k as [|c k]; [done|].
  cbn [string_forall] in Hk. pose proof Hk as [Hc _]%andb_true_iff.
  cbn [drop_while]. destruct (digit_char c Hc) as (-> & _).
  apply digits_trim_end. done.
Qed.

Lemma digits_take_while k :
  string_forall is_digit k = true →
  take_while is_digit k = k ∧ drop_while is_digit k = EmptyString.
Proof.
  induction k as [|c k IH]; cbn [string_forall take_while drop_while]; [done|].
  intros [Hc Hk]%andb_true_iff. rewrite Hc.
  destruct (IH Hk) as [-> ->]. done.
Qed.

Lemma digits_numeric k :
  nonempty k = true → string_forall is_digit k = true →
  isNaN_of_string k = false.
Proof.
  intros Hne Hk. unfold isNaN_of_string, is_numeric_string.
  rewrite (digits_trim _ Hk). destruct k as [|c k]; [done|].
  apply negb_false_iff. unfold str_numeric_literal.
  pose proof Hk as [Hc _]%andb_true_iff.
  destruct (digit_char c Hc) as (_ & _ & -> & _).
  unfold unsigned_decimal_literal.
  destruct (digits_take_while _ Hk) as [-> ->].
  cbn [nonempty]. by rewrite !orb_true_r.
Qed.

Lemma index_key_digits k :
  index_key k = true →
  nonempty k = true ∧ string_forall is_digit k = true
  ∧ pretty (digits_value 0 k) = k ∧ (digits_value 0 k < 2 ^ 53)%N.
Proof.
  unfold index_key.
  intros [[[? ?]%andb_true_iff ?%String.eqb_eq]%andb_true_iff ?%N.ltb_lt]%andb_true_iff.
  done.
Qed.

Lemma digits2_pos_bound p : (2 ^ (Z.pos (digits2_pos p) - 1) ≤ Z.pos p)%Z.
Proof.
  induction p as [p IH|p IH|]; cbn [digits2_pos]; [| |done].
  - rewrite Pos2Z.inj_succ.
    replace (Z.succ (Z.pos (digits2_pos p)) - 1)%Z
      with (Z.succ (Z.pos (digits2_pos p) - 1))%Z by lia.
    rewrite Z.pow_succ_r by lia. lia.
  - rewrite Pos2Z.inj_succ.
    replace (Z.succ (Z.pos (digits2_pos p)) - 1)%Z
      with (Z.succ (Z.pos (digits2_pos p) - 1))%Z by lia.
    rewrite Z.pow_succ_r by lia. lia.
Qed.

(** An integer below 2^53 is a double, exactly. *)
Lemma Number_of_N_exact n :
  (n < 2 ^ 53)%N →
  Number_to_N (Number_of_N n) = Some n
  ∧ number_is_nan (Number_of_N n) = false.
Proof.
  intros Hn. destruct n as [|p]; [done|]. unfold Number_of_N.
  set (d := (53 - Z.pos (digits2_pos p))%Z).
  assert (0 ≤ d)%Z as Hd.
  { pose proof (digits2_pos_bound p) as Hb. subst d.
    destruct (Z.le_gt_cases (Z.pos (digits2_pos p)) 53) as [?|Hgt]; [lia|].
    assert (2 ^ 53 ≤ 2 ^ (Z.pos (digits2_pos p) - 1))%Z
      by (apply Z.pow_le_mono_r; lia).
    assert (Z.pos p < 2 ^ 53)%Z by lia. lia. }
  rewrite (proj2 (Z.leb_le 0 d) Hd). split; [|done].
  assert (0 < 2 ^ d)%Z as Hpow by (apply Z.pow_pos_nonneg; lia).
  assert (Z.pos (Z.to_pos (Z.pos p * 2 ^ d)) = Z.pos p * 2 ^ d)%Z as Hm
    by (apply Z2Pos.id; lia).
  unfold Number_to_N. rewrite Hm.
  destruct (Z.leb_spec 0 (- d)) as [Hle|Hlt].
  - assert (d = 0)%Z as -> by lia. simpl. f_equal. lia.
  - rewrite Z.opp_involutive, Z.mod_mul by lia. cbn [Z.eqb].
    rewrite Z.div_mul by lia. done.
Qed.

Lemma NumberToString_of_N n :
  (n < 2 ^ 53)%N → NumberToString (Number_of_N n) = Some (pretty n).
Proof.
  intros Hn. destruct (Number_of_N_exact n Hn) as [Hto _].
  destruct n as [|p]; [done|]. unfold NumberToString.
  destruct (Number_of_N (N.pos p)) as [| | |[] m e] eqn:E; try done.
  rewrite Hto. by rewrite (proj2 (N.leb_le _ _) (N.lt_le_incl _ _ Hn)).
Qed.

Lemma to_pkey_index k :
  index_key k = true → ∃ pk, to_pkey k = Ok pk ∧ pkey_for k pk.
Proof.
  intros (Hne & Hd & Hp & Hlt)%index_key_digits.
  pose proof (digits_numeric _ Hne Hd) as HN.
  exists (KNumber (Number_of_N (digits_value 0 k))).
  unfold to_pkey, pkey_for, StringToNumber. rewrite HN, (digits_trim _ Hd).
  destruct k as [|c k]; [done|]. rewrite Hd. split; [done|].
  cbn [ToPropertyKey pkey_is_numeric]. rewrite (NumberToString_of_N _ Hlt), Hp.
  by rewrite (proj2 (Number_of_N_exact _ Hlt)).
Qed.

Lemma to_pkey_NaN k :
  isNaN_of_string k = true → ∃ pk, to_pkey k = Ok pk ∧ pkey_for k pk.
Proof.
  intros HN. exists (KString k). unfold to_pkey, pkey_for.
  rewrite HN. cbn [ToPropertyKey pkey_is_numeric]. by rewrite HN.
Qed.

Lemma segment_name_NaN k : segment_name k = true → isNaN_of_string k = true.
Proof. unfold segment_name. by intros [? ?]%andb_true_iff. Qed.

Lemma segment_key_nonempty k : segment_key k = true → nonempty k = true.
Proof.
  unfold segment_key, segment_name.
  intros [[[? ?]%andb_true_iff ?]%andb_true_iff|(? & _)%index_key_digits]%orb_true_iff;
    done.
Qed.

Lemma segment_key_free (d : ascii → bool) k :
  (∀ c, d c = true → is_path_delimiter c = true) →
  segment_key k = true → string_exists d k = false.
Proof.
  unfold segment_key, segment_name. intros Hd [H|H]%orb_true_iff.
  - apply andb_true_iff in H as [[_ H%negb_true_iff]%andb_true_iff _].
    by apply (string_exists_mono d is_path_delimiter).
  - apply index_key_digits in H as (_ & H%digits_no_separator & _).
    apply (string_exists_mono d is_any_separator); [|done].
    intros c Hc. by apply delimiter_is_any, Hd.
Qed.

Lemma map_to_pkey ks :
  Forall (fun k => segment_key k = true) ks →
  ∃ pks, map_outcome to_pkey ks = Ok pks ∧ Forall2 pkey_for ks pks.
Proof.
  induction 1 as [|k ks Hk _ (pks & IH & HF)]; [by exists []|].
  assert (∃ pk, to_pkey k = Ok pk ∧ pkey_for k pk) as (pk & Hpk & Hfor).
  { unfold segment_key in Hk. apply orb_true_iff in Hk as [Hk|Hk];
      [by apply to_pkey_NaN, segment_name_NaN|by apply to_pkey_index]. }
  exists (pk :: pks). cbn [map_outcome]. rewrite Hpk, bind_Ok, IH.
  split; [done|]. by constructor.
Qed.

(** ** The two writes: [_update] and [deepSet] *)

(** Every value but [null] and [undefined] has the member [__proto__]. *)
Lemma inherits_proto o :
  is_nullish o = false → inherits o "__proto__" = true.
Proof. destruct o; try done; cbn [inherits]; by rewrite ?orb_true_r. Qed.

(** What [_update] tests is what the read returns. *)
Lemma get_is_primitive_at o k c :
  get_property o k = Ok c → is_primitive_at o k = Ok (_isPrimitive c).
Proof.
  unfold get_property, is_primitive_at.
  destruct (own_property o k) as [c'|].
  - destruct o; try done; by intros [= <-].
  - destruct (String.eqb k "__proto__") eqn:E.
    + apply String.eqb_eq in E as ->.
      destruct (is_nullish o) eqn:En; [by destruct o|].
      rewrite (inherits_proto _ En). by destruct o.
    + destruct o; try done; destruct (inherits _ k); try done;
        by intros [= <-].
Qed.

(** The slot that an assignment has filled is read as it is. *)
Lemma get_after_set o k c x P :
  get_property o k = Ok c → is_nullish c = true →
  set_property o k x = Ok P → get_property P k = Ok x.
Proof.
  destruct o as [| | | | |m|len m]; cbn [set_property]; try done.
  - by destruct (String.eqb k "__proto__").
  - by destruct (String.eqb k "__proto__").
  - by destruct (String.eqb k "__proto__").
  - intros _ _. destruct (calls_setter m k); [done|]. intros [= <-].
    unfold get_property. cbn [own_property]. by rewrite lookup_insert_eq.
  - unfold get_property at 1. cbn [own_property].
    destruct (String.eqb k "length") eqn:E; [by intros [= <-]|].
    intros _ _. destruct (calls_setter m k); [done|].
    destruct (is_array_index k); intros [= <-];
      unfold get_property; cbn [own_property];
      by rewrite E, lookup_insert_eq.
Qed.

Lemma nullish_primitive c : is_nullish c = true → _isPrimitive c = true.
Proof. by destruct c. Qed.

Lemma deepSet_placeholder next pnext :
  pkey_for next pnext →
  (if pkey_is_numeric pnext then VArr 0 ∅ else VObj ∅)
  = empty_container next.
Proof.
  intros [_ ->]. unfold empty_container. by destruct (isNaN_of_string next).
Qed.

(** Where no boolean, number or string and no inherited member stands in
    the way, the loop of [deepSet] is the loop of [_update]. *)
Lemma deepSet_loop_update_loop rest :
  ∀ prest T k pk V,
    pkey_for k pk → Forall2 pkey_for rest prest →
    unobstructed T (k :: rest) = true →
    deepSet_loop T pk prest V = update_loop T k rest V.
Proof.
  induction rest as [|next rest IH]; intros prest T k pk V Hpk Hrest Hun.
  - apply Forall2_nil_inv_l in Hrest as ->. cbn [deepSet_loop update_loop].
    by rewrite (proj1 Hpk).
  - apply Forall2_cons_inv_l in Hrest as (pnext & prest' & Hnext & Hrest & ->).
    cbn [deepSet_loop update_loop]. rewrite (proj1 Hpk), bind_Ok.
    cbn [unobstructed] in Hun.
    destruct (get_property T k) as [c| |] eqn:Ec; [|done..].
    rewrite (get_is_primitive_at _ _ _ Ec).
    rewrite !bind_Ok, (deepSet_placeholder _ _ Hnext).
    destruct (is_nullish c) eqn:En.
    + rewrite (nullish_primitive _ En).
      destruct (set_property T k (empty_container next)) as [P| |] eqn:EP;
        [|done..].
      rewrite !bind_Ok, (get_after_set _ _ _ _ _ Ec En EP), !bind_Ok.
      by rewrite (IH prest' _ next pnext V Hnext Hrest Hun).
    + apply andb_true_iff in Hun as [Hc Hun].
      rewrite container_not_primitive in Hc. apply negb_true_iff in Hc.
      rewrite Hc, !bind_Ok, Ec, !bind_Ok.
      by rewrite (IH prest' _ next pnext V Hnext Hrest Hun).
Qed.

Lemma split_dots_join ks :
  ks ≠ [] → Forall (fun k => segment_key k = true) ks →
  split_on (Ascii.eqb ".") (join "." ks) = ks.
Proof.
  intros Hne Hks. apply split_on_join; [done|done|].
  eapply Forall_impl; [exact Hks|]. intros k.
  apply segment_key_free. intros c <-%Ascii.eqb_eq. done.
Qed.

Lemma match_segments_dots ks :
  Forall (fun k => segment_key k = true) ks →
  match_segments (join "." ks) = ks.
Proof.
  intros Hks. unfold match_segments. apply keys_of_join; [done| |].
  - eapply Forall_impl; [exact Hks|]. apply segment_key_nonempty.
  - eapply Forall_impl; [exact Hks|]. intros k. by apply segment_key_free.
Qed.

(** [_update] on the segments joined by [.] is the loop on the
    segments. *)
Lemma _update_segments T k rest V :
  Forall (fun k => segment_key k = true) (k :: rest) →
  _update T (PString (join "." (k :: rest))) V
  = update_loop (if is_nullish T then VObj ∅ else T) k rest V.
Proof.
  intros Hks. rewrite <- _update_key_list.
  - unfold _update. by rewrite match_segments_dots.
  - apply last_default_nonempty.
    eapply Forall_impl; [exact Hks|]. apply segment_key_nonempty.
Qed.

Lemma deepSet_segments T k rest V :
  T ≠ VNull →
  Forall (fun k => segment_key k = true) (k :: rest) →
  ∃ pk prest, pkey_for k pk ∧ Forall2 pkey_for rest prest
    ∧ deepSet T (join "." (k :: rest)) V
      = deepSet_loop (if is_nullish T then VObj ∅ else T) pk prest V.
Proof.
  intros HT Hks. unfold deepSet.
  rewrite (split_dots_join (k :: rest)) by done.
  destruct (map_to_pkey _ Hks) as (pks & -> & HF). rewrite bind_Ok.
  apply Forall2_cons_inv_l in HF as (pk & prest & Hpk & Hrest & ->).
  exists pk, prest. repeat (split; [done|]). by destruct T.
Qed.

Lemma write_variants_agree T ks V :
  T ≠ VNull → ks ≠ [] →
  Forall (fun k => segment_key k = true) ks →
  unobstructed (if is_nullish T then VObj ∅ else T) ks = true →
  deepSet T (join "." ks) V = _update T (PString (join "." ks)) V.
Proof.
  intros HT Hne Hks Hun. destruct ks as [|k rest]; [done|].
  destruct (deepSet_segments T k rest V HT Hks) as (pk & prest & Hpk & Hrest & ->).
  rewrite (_update_segments _ _ _ _ Hks).
  by apply deepSet_loop_update_loop.
Qed.

(** Both writes succeed where, besides, every assignment creates or
    replaces a slot. *)
Lemma write_variants_succeed T ks V :
  T ≠ VNull → ks ≠ [] →
  Forall (fun k => segment_key k = true) ks →
  unobstructed (if is_nullish T then VObj ∅ else T) ks = true →
  updatable (if is_nullish T then VObj ∅ else T) ks = true →
  ∃ r, deepSet T (join "." ks) V = Ok r
       ∧ _update T (PString (join "." ks)) V = Ok r
       ∧ is_container r = true ∧ reduce_keys r ks = Ok V
       ∧ vsize V < vsize r.
Proof.
  intros HT Hne Hks Hun Hup.
  rewrite (write_variants_agree T ks V HT Hne Hks Hun).
  destruct ks as [|k rest]; [done|]. rewrite (_update_segments _ _ _ _ Hks).
  destruct (update_loop_updatable rest _ k V Hup) as (r & -> & ? & ? & ?).
  by exists r.
Qed.

(** ** Overwrite on conflict *)

(** What a boolean, a number or a string holds is no container. *)
Lemma get_property_primitive c k c' :
  is_container c = false → get_property c k = Ok c' →
  is_container c' = false.
Proof.
  intros Hc. unfold get_property.
  destruct c as [| | | |str|m|len m]; try done; cbn [own_property inherits].
  - destruct (_ || _); [done|]. by intros [= <-].
  - destruct (_ || _); [done|]. by intros [= <-].
  - destruct (String.eqb k "length"); [by intros [= <-]|].
    destruct (match is_array_index k with
              | Some i => match String.get (N.to_nat i) str with
                          | Some c0 => Some (VStr (String c0 EmptyString))
                          | None => None
                          end
              | None => None
              end) as [x|] eqn:E.
    + intros [= <-]. destruct (is_array_index k); [|done].
      destruct (String.get _ _); [|done]. by injection E as <-.
    + destruct (_ || _); [done|]. by intros [= <-].
Qed.

Lemma primitive_walk ks : ∀ c n,
  is_container c = false → reduce_keys c ks = Ok n → is_container n = false.
Proof.
  induction ks as [|k ks IH]; intros c n Hc; cbn [reduce_keys].
  - by intros [= <-].
  - destruct (is_nullish c) eqn:En; [rewrite bind_Ok; by apply IH|].
    destruct (get_property c k) as [c'| |] eqn:E; [|done..].
    rewrite bind_Ok. apply IH. by eapply get_property_primitive.
Qed.

(** A container that a read returns is a slot of the node. *)
Lemma get_container_slot o k c :
  get_property o k = Ok c → is_container c = true →
  child_slot o k = Some c ∧ slot_key o k = true.
Proof.
  intros Hg Hc. destruct (is_container o) eqn:Ho.
  - destruct o as [| | | | |m|len m]; try done;
      unfold get_property in Hg; cbn [own_property inherits] in Hg.
    + split; [|done]. cbn [child_slot]. destruct (m !! k) as [x|].
      * by injection Hg as ->.
      * destruct (has_name _ _); [done|]. injection Hg as <-. done.
    + destruct (String.eqb k "length") eqn:E.
      { injection Hg as <-. done. }
      split; [|by unfold slot_key, not_length; rewrite E, orb_true_r].
      cbn [child_slot]. destruct (m !! k) as [x|].
      * by injection Hg as ->.
      * destruct (_ || _); [done|]. injection Hg as <-. done.
  - pose proof (get_property_primitive _ _ _ Ho Hg). congruence.
Qed.

(** A walk that ends at a container went through containers only. *)
Lemma walk_to_container q : ∀ T n,
  reduce_keys T q = Ok n → is_container n = true →
  node_at T q = Some n.
Proof.
  induction q as [|j q IH]; intros T n Hw Hn.
  - by injection Hw as ->.
  - cbn [reduce_keys] in Hw. destruct (is_nullish T) eqn:En.
    { rewrite bind_Ok, (reduce_keys_nullish _ _ En) in Hw.
      injection Hw as <-. by destruct T. }
    destruct (get_property T j) as [c| |] eqn:Ec; [|done..].
    rewrite bind_Ok in Hw. destruct (is_container c) eqn:Hc.
    + destruct (get_container_slot _ _ _ Ec Hc) as [Hs _].
      cbn [node_at]. rewrite Hs. cbn [mbind option_bind]. by apply IH.
    + pose proof (primitive_walk q c n Hc Hw). congruence.
Qed.

Lemma node_at_container q : ∀ T n,
  node_at T q = Some n → is_container n = true → is_container T = true.
Proof.
  destruct q as [|j q]; intros T n Hq Hn.
  - by injection Hq as ->.
  - simpl in Hq. destruct (child_slot T j) eqn:E; [|done].
    by eapply child_slot_container.
Qed.

Lemma next_node_container_slot o k next c :
  child_slot o k = Some c → is_container c = true → next_node o k next = c.
Proof.
  intros Hc Hcc. unfold next_node. rewrite Hc.
  rewrite container_not_primitive in Hcc. apply negb_true_iff in Hcc.
  by rewrite Hcc.
Qed.

Lemma next_node_primitive o k next p :
  assignable o k = true → get_property o k = Ok p → _isPrimitive p = true →
  next_node o k next = empty_container next.
Proof.
  intros Ha Hg Hp. unfold next_node.
  destruct (child_slot o k) as [c|] eqn:Ec; [|done].
  rewrite (get_property_slot _ _ _ Ec (assignable_slot_key _ _ Ha)) in Hg.
  injection Hg as ->. by rewrite Hp.
Qed.

(** The node that held a primitive holds, after the write, what the rest
    of the path makes of an empty container. *)
Lemma update_keys_replaces q : ∀ T n k next rest V p,
  node_at T q = Some n → is_container n = true →
  updatable T (q ++ k :: next :: rest) = true →
  get_property n k = Ok p → _isPrimitive p = true →
  ∃ T' sub,
    update_keys T (q ++ k :: next :: rest) V = Ok T'
    ∧ is_container T' = true
    ∧ reduce_keys T' (q ++ [k]) = Ok sub
    ∧ update_loop (empty_container next) next rest V = Ok sub.
Proof.
  induction q as [|j q IH]; intros T n k next rest V p Hq Hn Hup Hp Hprim.
  - injection Hq as ->. cbn [app] in *.
    cbn [updatable] in Hup. apply andb_true_iff in Hup as [Ha Hup].
    rewrite (next_node_primitive _ _ _ _ Ha Hp Hprim) in Hup.
    cbn [update_keys update_loop].
    rewrite (get_is_primitive_at _ _ _ Hp), bind_Ok, Hprim.
    destruct (set_property_assignable n k (empty_container next) Ha)
      as (P & -> & HP & Hc & HPk & _).
    rewrite bind_Ok, (get_property_slot _ _ _ Hc HPk), bind_Ok.
    destruct (update_loop_updatable rest (empty_container next) next V Hup)
      as (sub & Hsub & _).
    rewrite Hsub, bind_Ok. eexists _, sub. split; [done|].
    destruct (with_child_container P k sub HP) as [HW HWc].
    split; [done|]. split; [|done].
    rewrite (reduce_keys_step _ _ sub); [done| |done].
    by rewrite with_child_slot_key.
  - cbn [node_at] in Hq. destruct (child_slot T j) as [c|] eqn:Ec; [|done].
    cbn [mbind option_bind] in Hq.
    pose proof (child_slot_container _ _ _ Ec) as HT.
    pose proof (node_at_container _ _ _ Hq Hn) as Hc.
    rewrite <- !app_comm_cons in *. cbn [update_keys].
    destruct (q ++ k :: next :: rest) as [|x xs] eqn:E.
    { by destruct q. }
    cbn [updatable] in Hup. apply andb_true_iff in Hup as [Ha Hup].
    rewrite (next_node_container_slot _ _ _ _ Ec Hc) in Hup.
    destruct (IH c n k next rest V p Hq Hn) as (c' & sub & HU & Hc' & Hred & Hsub);
      [by rewrite E|done|done|].
    rewrite E in HU. cbn [update_keys] in HU. cbn [update_loop].
    rewrite (assignable_is_primitive_at _ _ Ha), Ec, bind_Ok.
    assert (_isPrimitive c = false) as ->.
    { rewrite container_not_primitive in Hc. by apply negb_true_iff in Hc. }
    pose proof (assignable_slot_key _ _ Ha) as Hj.
    rewrite bind_Ok, (get_property_slot _ _ _ Ec Hj), bind_Ok.
    rewrite HU, bind_Ok.
    eexists _, sub. split; [done|].
    destruct (with_child_container T j c' HT) as [HW HWc].
    split; [done|]. split; [|done].
    rewrite (reduce_keys_step _ _ c'); [done| |done].
    by rewrite with_child_slot_key.
Qed.

Lemma _update_keys T P V :
  nonempty (default EmptyString (last P)) = true →
  _update T (PArray P) V
  = update_keys (if is_nullish T then VObj ∅ else T) P V.
Proof.
  intros Hl. unfold _update, structuredClone.
  destruct P as [|k rest]; [done|].
  destruct (last (k :: rest)) as [l|] eqn:E; [|by apply last_None in E].
  cbn [default from_option id] in Hl. by rewrite Hl.
Qed.

Lemma updatable_container T ks :
  ks ≠ [] → updatable T ks = true → is_container T = true.
Proof.
  destruct ks as [|k ks]; [done|]. intros _ [Ha _]%andb_true_iff.
  by eapply assignable_container.
Qed.

(** C3, as stated, fails for the mutable variant: [deepSet] fills an
    intermediate node with [??=], which replaces [null] and [undefined]
    only.  On [{a: 5}] the path ["a.b"] leaves 5 in place, and the
    assignment to a property of the number throws (outside strict mode
    it would be ignored, leaving [{a: 5}]). *)
Lemma C3_deepSet_keeps_primitive :
  deepSet (js_object [("a", VNum (Number_of_N 5))]) "a.b" (VStr "v")
  = Throw TypeError
  ∧ Throw TypeError
    ≠ Ok (js_object [("a", js_object [("b", VStr "v")])]).
Proof. split; [vm_compute; reflexivity|done]. Qed.

(** C3 (amended): overwrite on conflict.  In the immutable write
    ([_update]), an intermediate node that holds a primitive is replaced
    by a fresh empty container, a sequence if the next key is numeric and
    a mapping otherwise: for every target and every key list
    [q ++ k :: next :: rest] whose last key is not empty and over which
    every assignment of the write creates or replaces a slot of a mapping
    or a sequence, if the keys [q] lead to a container that holds a
    primitive under [k], then after the write the node at [q ++ [k]] is
    exactly what writing [next :: rest] into that empty container gives;
    writing [V] to ["a.b"] on [{a: 5}] yields [{a: {b: V}}].  The mutable
    write ([deepSet]) on [{a: p}] replaces [p] only when it is [null] or
    [undefined], and throws a [TypeError] on any other primitive. *)
Theorem C3_overwrite_on_conflict V :
  _update (js_object [("a", VNum (Number_of_N 5))]) (PString "a.b") V
  = Ok (js_object [("a", js_object [("b", V)])])
  ∧ (∀ T n q k next rest p,
       updatable T (q ++ k :: next :: rest) = true →
       nonempty (default EmptyString (last (next :: rest))) = true →
       reduce_keys T q = Ok n → is_container n = true →
       get_property n k = Ok p → _isPrimitive p = true →
       ∃ T' sub,
         _update T (PArray (q ++ k :: next :: rest)) V = Ok T'
         ∧ reduce_keys T' (q ++ [k]) = Ok sub
         ∧ _update (empty_container next) (PArray (next :: rest)) V = Ok sub)
  ∧ (∀ p, _isPrimitive p = true →
          deepSet (js_object [("a", p)]) "a.b" V
          = if is_nullish p
            then Ok (js_object [("a", js_object [("b", V)])])
            else Throw TypeError).
Proof.
  split; [vm_compute; reflexivity|]. split.
  - intros T n q k next rest p Hup Hlast Hq Hn Hp Hprim.
    assert (q ++ k :: next :: rest ≠ []) as Hne by (by destruct q).
    pose proof (updatable_container _ _ Hne Hup) as HT.
    rewrite !_update_keys.
    + rewrite (container_not_nullish _ HT).
      rewrite (container_not_nullish _ (empty_container_is_container next)).
      destruct (update_keys_replaces q T n k next rest V p
                  (walk_to_container q T n Hq Hn) Hn Hup Hp Hprim)
        as (T' & sub & HU & _ & Hred & Hsub).
      by exists T', sub.
    + done.
    + rewrite last_app, last_cons_cons.
      destruct (last (next :: rest)) eqn:E; [done|by apply last_None in E].
  - intros p Hp. destruct p; try done; vm_compute; reflexivity.
Qed.

Lemma C3_overwrite_on_conflict_witness :
  ∃ T' sub,
    _update (js_object [("x", js_object [("a,b", VBool true)])])
            (PArray (["x"] ++ "a,b" :: "0" :: ["length"])) (VStr "v")
    = Ok T'
    ∧ reduce_keys T' (["x"] ++ ["a,b"]) = Ok sub
    ∧ _update (empty_container "0") (PArray ["0"; "length"]) (VStr "v")
      = Ok sub.
Proof.
  apply (proj1 (proj2 (C3_overwrite_on_conflict (VStr "v")))
           (js_object [("x", js_object [("a,b", VBool true)])])
           (js_object [("a,b", VBool true)]) ["x"] "a,b" "0" ["length"]
           (VBool true)).
  - reflexivity.
  - reflexivity.
  - vm_compute. reflexivity.
  - reflexivity.
  - vm_compute. reflexivity.
  - reflexivity.
Defined.

(** ** Agreement of the two writes *)




(** ** Key capture *)

Lemma node_at_snoc p : ∀ st k,
  node_at st (p ++ [k]) = node_at st p ≫= (fun n => child_slot n k).
Proof.
  induction p as [|j p IH]; intros st k; simpl.
  - by destruct (child_slot st k).
  - destruct (child_slot st j) as [c|]; simpl; [apply IH|done].
Qed.

Lemma slots_snoc p : ∀ st n k c,
  node_at st p = Some n → slots st p = true →
  child_slot n k = Some c → slot_key n k = true →
  slots st (p ++ [k]) = true.
Proof.
  induction p as [|j p IH]; intros st n k c Hn Hs Hc Hk.
  - injection Hn as ->. cbn [app slots]. by rewrite Hk, Hc.
  - cbn [node_at] in Hn. cbn [slots] in Hs.
    destruct (child_slot st j) as [x|] eqn:Ej; [|done].
    apply andb_true_iff in Hs as [Hj Hs]. rewrite <- app_comm_cons.
    cbn [slots]. rewrite Hj, Ej. by apply (IH x n k c).
Qed.

(** An assignment to a node of the store, through its reference. *)
Lemma update_at_set p : ∀ st n k v,
  node_at st p = Some n → slots st p = true → assignable n k = true →
  ∃ st' n', update_at st p (fun o => set_property o k v) = Ok st'
            ∧ node_at st' p = Some n' ∧ slots st' p = true
            ∧ is_container n' = true
            ∧ child_slot n' k = Some v ∧ slot_key n' k = true.
Proof.
  induction p as [|j p IH]; intros st n k v Hn Hs Ha.
  - injection Hn as ->.
    destruct (set_property_assignable n k v Ha)
      as (n' & HS & Hc' & Hv & Hk & _).
    by exists n', n'.
  - cbn [node_at] in Hn. cbn [slots] in Hs.
    destruct (child_slot st j) as [c|] eqn:Ej; [|done].
    apply andb_true_iff in Hs as [Hj Hs]. cbn [mbind option_bind] in Hn.
    destruct (IH c n k v Hn Hs Ha) as (c' & n' & HU & Hn' & Hs' & Hc' & Hv).
    exists (with_child st j c'), n'. cbn [update_at]. rewrite Ej, HU, bind_Ok.
    split; [done|]. cbn [node_at slots].
    destruct (with_child_container st j c' (child_slot_container _ _ _ Ej))
      as [_ ->].
    by rewrite with_child_slot_key, Hj.
Qed.

(** Walking from the root to a node of the store and on. *)
Lemma reduce_keys_node_at p : ∀ st n ks,
  node_at st p = Some n → slots st p = true →
  reduce_keys st (p ++ ks) = reduce_keys n ks.
Proof.
  induction p as [|j p IH]; intros st n ks Hn Hp.
  - by injection Hn as ->.
  - cbn [node_at] in Hn. cbn [slots] in Hp.
    destruct (child_slot st j) as [c|] eqn:Ej; [|done].
    apply andb_true_iff in Hp as [Hj Hp]. rewrite <- app_comm_cons.
    rewrite (reduce_keys_step _ _ _ _ Hj Ej). by apply IH.
Qed.

Lemma last_key_snoc props k : last_key (props ++ [k]) = k.
Proof. unfold last_key. by rewrite last_snoc. Qed.

(** A slot that reads as [null] or [undefined] can be assigned. *)
Lemma nullish_slot_assignable n k c :
  is_container n = true → get_property n k = Ok c → is_nullish c = true →
  assignable n k = true ∧ _isPrimitive (default VUndef (child_slot n k)) = true.
Proof.
  intros Hn Hg Hc. unfold get_property in Hg.
  destruct n as [| | | | |m|len m]; try done;
    cbn [own_property inherits assignable child_slot] in *.
  - unfold calls_setter. destruct (m !! k) as [x|].
    + injection Hg as ->. rewrite andb_false_r.
      cbn [default from_option id]. by rewrite (nullish_primitive _ Hc).
    + destruct (has_name Object_prototype k) eqn:E; [done|].
      destruct (String.eqb k "__proto__") eqn:Ek; [|done].
      apply String.eqb_eq in Ek as ->. done.
  - unfold calls_setter, not_length.
    destruct (String.eqb k "length"); [by injection Hg as <-|].
    destruct (m !! k) as [x|].
    + injection Hg as ->. rewrite andb_false_r.
      cbn [default from_option id]. by rewrite (nullish_primitive _ Hc).
    + destruct (_ || _) eqn:E; [done|].
      destruct (String.eqb k "__proto__") eqn:Ek; [|done].
      apply String.eqb_eq in Ek as ->. by rewrite orb_true_r in E.
Qed.

Lemma next_node_nullish n k c next :
  is_container n = true → get_property n k = Ok c → is_nullish c = true →
  next_node n k next = empty_container next.
Proof.
  intros Hn Hg Hc. unfold next_node.
  destruct (nullish_slot_assignable _ _ _ Hn Hg Hc) as [_ Hp].
  destruct (child_slot n k); [|done]. cbn [default from_option id] in Hp.
  by rewrite Hp.
Qed.

Lemma unobstructed_cons n k next rest :
  unobstructed n (k :: next :: rest)
  = match get_property n k with
    | Ok c => if is_nullish c
              then unobstructed (empty_container next) (next :: rest)
              else is_container c && unobstructed c (next :: rest)
    | _ => false
    end.
Proof. done. Qed.

(** One [get] trap on an inner proxy whose reference is a container. *)
Lemma inner_get_container st p n k props next rest :
  node_at st p = Some n → slots st p = true → is_container n = true →
  unobstructed n (k :: next :: rest) = true →
  ∃ st1,
    inner_get st (RNode p) (props ++ [k]) next
    = Ok (st1, Inner (RNode (p ++ [k])) ((props ++ [k]) ++ [next]))
    ∧ node_at st1 (p ++ [k]) = Some (next_node n k next)
    ∧ slots st1 (p ++ [k]) = true
    ∧ is_container (next_node n k next) = true
    ∧ unobstructed (next_node n k next) (next :: rest) = true.
Proof.
  intros Hn Hs Hc Hun. unfold inner_get. rewrite last_key_snoc.
  cbn [ref_get]. rewrite Hn. rewrite unobstructed_cons in Hun.
  destruct (get_property n k) as [c| |] eqn:Eg; [|done..].
  rewrite bind_Ok. destruct (is_nullish c) eqn:En.
  - cbn [ref_set].
    destruct (nullish_slot_assignable _ _ _ Hc Eg En) as [Ha _].
    rewrite (next_node_nullish _ _ _ next Hc Eg En).
    destruct (update_at_set p st n k (empty_container next) Hn Hs Ha)
      as (st1 & n1 & -> & Hn1 & Hs1 & Hc1 & Hv & Hk1).
    rewrite bind_Ok, Hn1, (get_property_slot _ _ _ Hv Hk1), bind_Ok.
    cbn [ref_child]. rewrite empty_container_is_container.
    exists st1. split; [done|].
    rewrite node_at_snoc, Hn1. cbn [mbind option_bind]. rewrite Hv.
    split; [done|]. split; [by eapply slots_snoc|]. by split.
  - apply andb_true_iff in Hun as [Hcc Hun].
    destruct (get_container_slot _ _ _ Eg Hcc) as [Hslot Hk].
    rewrite (next_node_container_slot _ _ _ _ Hslot Hcc).
    rewrite bind_Ok, Hn, Eg, bind_Ok. cbn [ref_child]. rewrite Hcc.
    exists st. split; [done|].
    rewrite node_at_snoc, Hn. cbn [mbind option_bind]. rewrite Hslot.
    split; [done|]. split; [by eapply slots_snoc|]. by split.
Qed.

(** The accesses of a chain from an inner proxy: the proxy reached
    refers to the container that holds the last key. *)
Lemma access_inner ks : ∀ st p n k props,
  node_at st p = Some n → slots st p = true → is_container n = true →
  unobstructed n (k :: ks) = true →
  ∃ st' (q : list string) (l : string),
    access st (Inner (RNode p) (props ++ [k])) ks
    = Ok (st', Inner (RNode (p ++ q)) (props ++ k :: ks))
    ∧ k :: ks = (q ++ [l])%list
    ∧ node_at st' (p ++ q) = Some (end_node n (k :: ks))
    ∧ slots st' (p ++ q) = true
    ∧ is_container (end_node n (k :: ks)) = true.
Proof.
  induction ks as [|next rest IH]; intros st p n k props Hn Hs Hc Hun.
  - exists st, [], k. rewrite app_nil_r. by repeat split.
  - destruct (inner_get_container st p n k props next rest Hn Hs Hc Hun)
      as (st1 & HG & Hn1 & Hs1 & Hc1 & Hun1).
    cbn [access trap_get]. rewrite HG, bind_Ok. cbn [fst snd].
    destruct (IH st1 (p ++ [k]) _ next (props ++ [k]) Hn1 Hs1 Hc1 Hun1)
      as (st' & q & l & HA & Hq & Hn' & Hs' & Hc').
    exists st', (k :: q), l.
    rewrite <- (app_assoc p [k] q) in HA, Hn', Hs'.
    rewrite <- (app_assoc props [k] (next :: rest)) in HA.
    split; [exact HA|]. split; [by rewrite Hq|]. by split.
Qed.

(** Where every assignment of the write over the keys creates or
    replaces a slot, so does the assignment under the last key. *)
Lemma end_node_cons n k next rest :
  end_node n (k :: next :: rest) = end_node (next_node n k next) (next :: rest).
Proof. done. Qed.

Lemma updatable_cons n k next rest :
  updatable n (k :: next :: rest)
  = assignable n k && updatable (next_node n k next) (next :: rest).
Proof. done. Qed.

Lemma updatable_end ks : ∀ n k,
  updatable n (k :: ks) = true →
  assignable (end_node n (k :: ks)) (last_key (k :: ks)) = true.
Proof.
  induction ks as [|next rest IH]; intros n k Hup.
  - cbn [updatable] in Hup. by apply andb_true_iff in Hup as [? _].
  - rewrite updatable_cons in Hup. apply andb_true_iff in Hup as [_ Hup].
    rewrite end_node_cons. unfold last_key. rewrite last_cons_cons.
    by apply IH.
Qed.

Lemma defined_not_undef arg : arg ≠ VUndef → strict_eq arg VUndef = false.
Proof. by destruct arg. Qed.

Lemma bind_ret {A} (m : outcome A) : m ≫= Ok = m.
Proof. by destruct m. Qed.

(** C5, as stated, fails for the accessor of createForm
    (unnamed/part_001): called without an argument it returns the key
    chain, not the current value.  On [{user: "x"}] the chain [user]
    called with no argument returns [["user"]], where the value at that
    location is ["x"]. *)
Lemma C5_no_argument_returns_keys :
  let T := js_object [("user", VStr "x")] in
  capture createInnerProxy_apply createDraftProxy T ["user"] VUndef
  = Ok (T, Keys ["user"])
  ∧ reduce_keys T ["user"] = Ok (VStr "x")
  ∧ Keys ["user"] ≠ Value (VStr "x").
Proof. repeat split; try (vm_compute; reflexivity). done. Qed.

(** C5 (amended): the accessor that reads or writes.  For every bound
    structure that is a mapping or a sequence and every key chain of
    length at least 1 along which no boolean, number or string and no
    inherited member stands at a proper prefix, the accesses succeed, and
    then: called with a defined argument, where the assignments of a
    write over the chain create or replace slots (the last key is not
    the [length] of a sequence, nor [__proto__] in a node without a
    member of that name), the accessor writes the argument at the
    recorded chain (reading the chain back yields it) and returns the
    key chain, in createForm and in lib/index.ts alike; called with no
    argument or with [undefined] it leaves the structure as it is, and
    returns the key chain in createForm and what the read of the chain
    finds in lib/index.ts. *)
Theorem C5_accessor_duality y chain :
  is_container y = true →
  chain ≠ [] →
  unobstructed y chain = true →
  ∃ st a,
    access y (createDraftProxy y) chain = Ok (st, a)
    ∧ (∀ arg, arg ≠ VUndef → updatable y chain = true →
         ∃ st', createInnerProxy_apply st a arg = Ok (st', Keys chain)
                ∧ createInnerProxy_apply_index st a arg = Ok (st', Keys chain)
                ∧ reduce_keys st' chain = Ok arg)
    ∧ createInnerProxy_apply st a VUndef = Ok (st, Keys chain)
    ∧ createInnerProxy_apply_index st a VUndef
      = (v ← reduce_keys st chain; Ok (st, Value v)).
Proof.
  intros Hy Hne Hun. destruct chain as [|k ks]; [done|].
  cbn [access trap_get createDraftProxy]. unfold ref_of. rewrite Hy, bind_Ok.
  cbn [fst snd].
  destruct (access_inner ks y [] y k [] eq_refl eq_refl Hy Hun)
    as (st & q & l & HA & Hq & Hn & Hs & Hc).
  cbn [app] in HA, Hn, Hs. rewrite HA. clear HA.
  assert (last_key (k :: ks) = l) as Hlast by (by rewrite Hq, last_key_snoc).
  exists st, (Inner (RNode q) (k :: ks)). split; [done|]. split; [|split].
  - intros arg Harg Hup.
    unfold createInnerProxy_apply, createInnerProxy_apply_index.
    rewrite (defined_not_undef _ Harg), Hlast. cbn [negb ref_set].
    pose proof (updatable_end _ _ _ Hup) as Ha. rewrite Hlast in Ha.
    destruct (update_at_set q st _ l arg Hn Hs Ha)
      as (st' & n' & -> & Hn' & Hs' & Hc' & Hv & Hk).
    exists st'. rewrite !bind_Ok. split; [done|]. split; [done|].
    rewrite Hq, (reduce_keys_node_at q st' n' [l] Hn' Hs').
    by rewrite (reduce_keys_step _ _ _ _ Hk Hv).
  - done.
  - unfold createInnerProxy_apply_index. rewrite Hlast.
    cbn [strict_eq negb ref_get]. rewrite Hn.
    rewrite Hq, (reduce_keys_node_at q st _ [l] Hn Hs). cbn [reduce_keys].
    rewrite (container_not_nullish _ Hc).
    rewrite <- Hq. by destruct (get_property _ l).
Qed.

Lemma C5_accessor_duality_witness :
  let y := js_object [("user", js_object [("age", VBool true)])] in
  let chain := ["user"; "name"; "length"] in
  ∃ st a,
    access y (createDraftProxy y) chain = Ok (st, a)
    ∧ (∃ st', createInnerProxy_apply st a (VStr "Ann") = Ok (st', Keys chain)
              ∧ createInnerProxy_apply_index st a (VStr "Ann")
                = Ok (st', Keys chain)
              ∧ reduce_keys st' chain = Ok (VStr "Ann"))
    ∧ createInnerProxy_apply st a VUndef = Ok (st, Keys chain)
    ∧ createInnerProxy_apply_index st a VUndef
      = (v ← reduce_keys st chain; Ok (st, Value v)).
Proof.
  destruct (C5_accessor_duality
              (js_object [("user", js_object [("age", VBool true)])])
              ["user"; "name"; "length"])
    as (st & a & Haccess & Hwrite & Hkeys & Hread).
  - reflexivity.
  - discriminate.
  - reflexivity.
  - exists st, a. split; [exact Haccess|]. split; [|by split].
    apply Hwrite; [discriminate|reflexivity].
Defined.

(** C6: key-capture fidelity.  On the key-only accessor ([keysProxy],
    bound to an empty object as the callers of lib/index.ts bind it),
    accessing [user], [name], [first] in sequence and calling the result
    with no argument returns exactly the chain [user; name; first].  On
    the read-write accessor ([createDraftProxy]) bound to [{}], the same
    chain called with ["Ann"] leaves the target equal to
    [{user: {name: {first: "Ann"}}}] and returns the chain, in createForm
    and in lib/index.ts alike. *)
Theorem C6_key_capture_fidelity :
  capture keysProxy_apply keysProxy (VObj ∅)
          ["user"; "name"; "first"] VUndef
  = Ok (js_object [("user", js_object [("name", VObj ∅)])],
        Keys ["user"; "name"; "first"])
  ∧ capture createInnerProxy_apply createDraftProxy (VObj ∅)
            ["user"; "name"; "first"] (VStr "Ann")
    = Ok (js_object [("user", js_object [("name",
                        js_object [("first", VStr "Ann")])])],
          Keys ["user"; "name"; "first"])
  ∧ capture createInnerProxy_apply_index createDraftProxy (VObj ∅)
            ["user"; "name"; "first"] (VStr "Ann")
    = Ok (js_object [("user", js_object [("name",
                        js_object [("first", VStr "Ann")])])],
          Keys ["user"; "name"; "first"]).
Proof.
  repeat split; vm_compute; reflexivity.
Qed.

(** * Further properties of the resolver *)

Lemma _update_unfold T p V sp l :
  sp = match p with PString s => match_segments s | PArray ks => ks end →
  last sp = Some l → nonempty l = true →
  _update T p V = update_keys (if is_nullish T then VObj ∅ else T) sp V.
Proof.
  intros -> Hl Hne. unfold _update, structuredClone. by rewrite Hl, Hne.
Qed.

Lemma match_segments_nonempty s :
  Forall (fun k => nonempty k = true) (match_segments s).
Proof.
  unfold match_segments. apply Forall_forall. intros k Hk.
  apply list_elem_of_In, filter_In in Hk as [_ Hk]. done.
Qed.

(** On a boolean, a number or a string an assignment throws, unless it
    calls the setter of [__proto__]. *)
Lemma set_property_primitive o k v :
  is_container o = false → String.eqb k "__proto__" = false →
  set_property o k v = Throw TypeError.
Proof. intros Ho Hk. destruct o; try done; cbn [set_property]; by rewrite Hk. Qed.

(** An assignment never succeeds on a primitive. *)
Lemma set_property_not_Ok o k v o' :
  is_container o = false → set_property o k v ≠ Ok o'.
Proof. intros Ho H. apply set_property_Ok in H as [? _]. congruence. Qed.

Lemma own_property_primitive o k c :
  is_container o = false → own_property o k = Some c → _isPrimitive c = true.
Proof.
  destruct o as [| | | |str|m|len m]; try done; cbn [own_property]; intros _.
  destruct (String.eqb k "length"); [by intros [= <-]|].
  destruct (is_array_index k); [|done].
  destruct (String.get _ _); [|done]. by intros [= <-].
Qed.

(** On a boolean, a number or a string the loop throws at its first
    assignment. *)
Lemma update_loop_primitive T k rest V :
  is_container T = false → is_nullish T = false →
  String.eqb k "__proto__" = false →
  update_loop T k rest V = Throw TypeError.
Proof.
  intros HT Hn Hk. destruct rest as [|next rest]; cbn [update_loop].
  - by apply set_property_primitive.
  - assert (is_primitive_at T k = Ok true) as ->.
    { unfold is_primitive_at. rewrite Hk.
      destruct (own_property T k) as [c|] eqn:E.
      - rewrite (own_property_primitive _ _ _ HT E). by destruct T.
      - by destruct T. }
    by rewrite bind_Ok, (set_property_primitive _ _ _ HT Hk).
Qed.

(** X1: a write on a root that is a boolean, a number or a string throws
    a [TypeError] as soon as the path has a key and its first key is not
    [__proto__]: for a key list whose last key is not empty, and for a
    string with at least one segment. *)
Theorem X1_update_primitive_root_throws T V :
  is_container T = false → is_nullish T = false →
  (∀ k rest l, last (k :: rest) = Some l → nonempty l = true →
               k ≠ "__proto__" →
               _update T (PArray (k :: rest)) V = Throw TypeError)
  ∧ (∀ s k rest, match_segments s = k :: rest → k ≠ "__proto__" →
                 _update T (PString s) V = Throw TypeError).
Proof.
  intros HT Hn.
  assert (∀ p k rest l,
    k :: rest
    = match p with PString s => match_segments s | PArray ks => ks end →
    last (k :: rest) = Some l → nonempty l = true → k ≠ "__proto__" →
    _update T p V = Throw TypeError) as Hgen.
  { intros p k rest l Hsp Hl Hne Hk.
    rewrite (_update_unfold _ _ _ _ _ Hsp Hl Hne), Hn.
    apply update_loop_primitive; [done|done|].
    by apply String.eqb_neq. }
  split.
  - intros k rest l Hl Hne Hk. by apply (Hgen (PArray (k :: rest)) k rest l).
  - intros s k rest Hs Hk.
    destruct (last (k :: rest)) as [l|] eqn:El; [|by apply last_None in El].
    apply (Hgen (PString s) k rest l); [done|done| |done].
    pose proof (match_segments_nonempty s) as HF. rewrite Hs in HF.
    by eapply Forall_forall in HF; [|by apply last_Some_elem_of].
Qed.

Lemma X1_update_primitive_root_throws_witness :
  _update (VStr "abc") (PString "length.x") (VBool true) = Throw TypeError.
Proof.
  apply (proj2 (X1_update_primitive_root_throws (VStr "abc") (VBool true)
                  eq_refl eq_refl) "length.x" "length" ["x"]).
  - reflexivity.
  - discriminate.
Defined.

Lemma set_property_twice o k v1 v2 o1 :
  set_property o k v1 = Ok o1 → slot_key o k = true →
  set_property o1 k v2 = set_property o k v2.
Proof.
  intros HS Hk. destruct o as [| | | | |m|len m];
    cbn [set_property] in HS |- *; try done.
  - by destruct (String.eqb k "__proto__").
  - by destruct (String.eqb k "__proto__").
  - by destruct (String.eqb k "__proto__").
  - destruct (calls_setter m k) eqn:Es; [done|]. injection HS as <-.
    cbn [set_property].
    rewrite (calls_setter_own _ _ v1) by apply lookup_insert_eq.
    by rewrite insert_insert_eq.
  - unfold slot_key in Hk. cbn in Hk. apply not_length_neq in Hk.
    rewrite Hk in HS |- *. destruct (calls_setter m k) eqn:Es; [done|].
    destruct (is_array_index k) as [i|] eqn:Ei;
      injection HS as <-; cbn [set_property];
      rewrite Hk, Ei, (calls_setter_own _ _ v1), insert_insert_eq
        by apply lookup_insert_eq; [|done].
    do 2 f_equal. lia.
Qed.

Lemma with_child_twice o k a b :
  with_child (with_child o k a) k b = with_child o k b.
Proof. destruct o; simpl; try done; by rewrite insert_insert_eq. Qed.

(** One turn of the loop on a container: the node [P] that holds the
    key after the guard, and the child the loop descends into. *)
Lemma update_loop_turn T k next :
  assignable T k = true →
  ∃ P, is_container P = true ∧ slot_key P k = true
       ∧ isArray P = isArray T
       ∧ child_slot P k = Some (next_node T k next)
       ∧ (∀ j, j ≠ k → child_slot P j = child_slot T j)
       ∧ ∀ rest V, update_loop T k (next :: rest) V
                   = update_loop (next_node T k next) next rest V
                     ≫= (fun c' => Ok (with_child P k c')).
Proof.
  intros Ha. pose proof (assignable_container _ _ Ha) as HT.
  pose proof (assignable_slot_key _ _ Ha) as Hk.
  pose proof (assignable_is_primitive_at _ _ Ha) as Hprim.
  unfold next_node.
  destruct (child_slot T k) as [c|] eqn:Ec;
    [destruct (_isPrimitive c) eqn:E|].
  3: pose proof (eq_refl true) as E.
  1, 3: destruct (set_property_assignable T k (empty_container next) Ha)
          as (P & HS & HP & Hc & HPk & Harr);
        exists P; repeat (split; [done|]); split;
        [intros j Hj; by eapply set_property_frame|];
        intros rest V; cbn [update_loop];
        rewrite Hprim, bind_Ok, HS, bind_Ok;
        by rewrite (get_property_slot _ _ _ Hc HPk), bind_Ok.
  exists T. repeat (split; [done|]). intros rest V. cbn [update_loop].
  rewrite Hprim, !bind_Ok. by rewrite (get_property_slot _ _ _ Ec Hk), bind_Ok.
Qed.

(** The loop succeeds on a mapping or a sequence only, and returns
    one of the same kind. *)
Lemma update_loop_Ok T k rest V T' :
  update_loop T k rest V = Ok T' →
  is_container T = true ∧ is_container T' = true ∧ isArray T' = isArray T.
Proof.
  intros HU. destruct rest as [|next rest]; cbn [update_loop] in HU.
  - destruct (set_property_Ok _ _ _ _ HU) as [? ?].
    by rewrite (set_property_isArray _ _ _ _ HU).
  - destruct (is_primitive_at T k) as [b| |] eqn:Eb; [|done..].
    rewrite bind_Ok in HU. destruct b.
    + destruct (set_property T k (empty_container next)) as [P| |] eqn:EP;
        [|done..].
      rewrite bind_Ok in HU. do 2 bind_ok HU. injection HU as <-.
      destruct (set_property_Ok _ _ _ _ EP) as [HT HP].
      rewrite with_child_isArray, (set_property_isArray _ _ _ _ EP).
      by destruct (with_child_container P k a0 HP).
    + rewrite bind_Ok in HU. do 2 bind_ok HU. injection HU as <-.
      assert (is_container T = true) as HT.
      { destruct (is_container T) eqn:HT; [done|].
        unfold is_primitive_at in Eb.
        destruct (own_property T k) as [c|] eqn:Ec.
        - rewrite (own_property_primitive _ _ _ HT Ec) in Eb. by destruct T.
        - destruct T; try done; by destruct (String.eqb k "__proto__"). }
      rewrite with_child_isArray.
      by destruct (with_child_container T k a0 HT).
Qed.

(** A second write to the same path replaces the first. *)
Lemma update_loop_twice rest : ∀ T k V1 V2 T1,
  updatable T (k :: rest) = true →
  update_loop T k rest V1 = Ok T1 →
  update_loop T1 k rest V2 = update_loop T k rest V2.
Proof.
  induction rest as [|next rest IH]; intros T k V1 V2 T1 Hup HU.
  - eapply set_property_twice; [done|]. by eapply updatable_slot_key.
  - rewrite updatable_cons in Hup. apply andb_true_iff in Hup as [Ha Hup].
    destruct (update_loop_turn T k next Ha)
      as (P & HP & HPk & _ & Hc & _ & HL).
    rewrite HL in HU. bind_ok HU. injection HU as <-. rename a into c1.
    rewrite HL.
    destruct (with_child_container P k c1 HP) as [HW HWc].
    destruct (update_loop_Ok _ _ _ _ _ E) as (_ & Hc1 & _).
    assert (slot_key (with_child P k c1) k = true) as HWk
      by (by rewrite with_child_slot_key).
    cbn [update_loop].
    rewrite (get_is_primitive_at _ _ _ (get_property_slot _ _ _ HWc HWk)).
    assert (_isPrimitive c1 = false) as ->.
    { rewrite container_not_primitive in Hc1. by apply negb_true_iff in Hc1. }
    rewrite !bind_Ok, (get_property_slot _ _ _ HWc HWk), bind_Ok.
    rewrite (IH _ next V1 V2 c1 Hup E).
    destruct (update_loop _ next rest V2); [|done..].
    by rewrite !bind_Ok, with_child_twice.
Qed.

(** X2: the last write wins.  On every target and every key list whose
    last key is not empty and over which every assignment of the write
    creates or replaces a slot of a mapping or a sequence, a first write
    succeeds, and a second write to the same path on its result gives
    what the second write alone gives on the original target; writing
    the same value twice changes nothing. *)
Theorem X2_last_write_wins T P V1 V2 :
  P ≠ [] →
  nonempty (default EmptyString (last P)) = true →
  updatable (if is_nullish T then VObj ∅ else T) P = true →
  ∃ T1, _update T (PArray P) V1 = Ok T1
        ∧ _update T1 (PArray P) V2 = _update T (PArray P) V2
        ∧ _update T1 (PArray P) V1 = Ok T1.
Proof.
  intros HP Hlast Hup. rewrite !(_update_keys T) by done.
  destruct P as [|k rest]; [done|]. cbn [update_keys].
  destruct (update_loop_updatable rest _ k V1 Hup) as (T1 & HU & HT1 & _).
  exists T1. split; [done|].
  rewrite !(_update_keys T1) by done.
  rewrite (container_not_nullish _ HT1). cbn [update_keys].
  split.
  - by apply (update_loop_twice rest _ k V1 V2 T1 Hup).
  - by rewrite (update_loop_twice rest _ k V1 V1 T1 Hup HU).
Qed.

Lemma X2_last_write_wins_witness :
  ∃ T1, _update (VObj ∅) (PArray ["a.b"; "0"; "length"]) (VStr "x") = Ok T1
        ∧ _update T1 (PArray ["a.b"; "0"; "length"]) (VStr "y")
          = _update (VObj ∅) (PArray ["a.b"; "0"; "length"]) (VStr "y")
        ∧ _update T1 (PArray ["a.b"; "0"; "length"]) (VStr "x") = Ok T1.
Proof.
  apply (X2_last_write_wins (VObj ∅) ["a.b"; "0"; "length"]
           (VStr "x") (VStr "y")).
  - discriminate.
  - reflexivity.
  - reflexivity.
Defined.

Lemma update_loop_descend T k c next rest V :
  slot_key T k = true →
  child_slot T k = Some c → is_container c = true →
  update_loop T k (next :: rest) V
  = update_loop c next rest V ≫= (fun c' => Ok (with_child T k c')).
Proof.
  intros Hk Hc Hcc. cbn [update_loop].
  rewrite (get_is_primitive_at _ _ _ (get_property_slot _ _ _ Hc Hk)).
  assert (_isPrimitive c = false) as ->.
  { rewrite container_not_primitive in Hcc. by apply negb_true_iff in Hcc. }
  by rewrite !bind_Ok, (get_property_slot _ _ _ Hc Hk), bind_Ok.
Qed.

Lemma node_at_size p : ∀ T k n,
  node_at T (k :: p) = Some n → vsize n < vsize T.
Proof.
  induction p as [|j p IH]; intros T k n Hn; cbn [node_at] in Hn;
    destruct (child_slot T k) as [c|] eqn:Ec; try done;
    cbn [mbind option_bind] in Hn; pose proof (vsize_child _ _ _ Ec).
  - injection Hn as <-. done.
  - pose proof (IH c j n Hn). lia.
Qed.

(** What a walk of at least one key finds in a container is not the
    container itself. *)
Lemma walk_not_root T k ks r :
  is_container T = true → reduce_keys T (k :: ks) = Ok r →
  strict_eq r T = false.
Proof.
  intros HT Hw. destruct (is_container r) eqn:Hr.
  - apply strict_eq_size, (node_at_size ks T k).
    by apply walk_to_container.
  - by destruct r, T.
Qed.

(** The keys that lead to a container lead through slots. *)
Lemma node_at_walk q : ∀ T n,
  reduce_keys T q = Ok n → is_container n = true →
  node_at T q = Some n ∧ slots T q = true.
Proof.
  induction q as [|j q IH]; intros T n Hw Hn.
  - by injection Hw as ->.
  - pose proof (walk_to_container _ _ _ Hw Hn) as Hat.
    split; [done|]. cbn [node_at] in Hat. cbn [slots].
    destruct (child_slot T j) as [c|] eqn:Ec; [|done].
    cbn [mbind option_bind] in Hat.
    pose proof (child_slot_container _ _ _ Ec) as HT.
    cbn [reduce_keys] in Hw. rewrite (container_not_nullish _ HT) in Hw.
    destruct (get_property T j) as [c'| |] eqn:Eg; [|done..].
    rewrite bind_Ok in Hw.
    assert (is_container c' = true) as Hc'.
    { destruct (is_container c') eqn:E; [done|].
      pose proof (primitive_walk q c' n E Hw). congruence. }
    destruct (get_container_slot _ _ _ Eg Hc') as [Hs Hk].
    rewrite Hk. cbn [andb]. rewrite Hs in Ec. injection Ec as ->.
    by apply (IH c n).
Qed.

(** Below the keys that lead to a container, the write goes on from that
    container. *)
Lemma updatable_node_at q : ∀ T n ks,
  node_at T q = Some n → is_container n = true → ks ≠ [] →
  updatable T (q ++ ks) = true → updatable n ks = true.
Proof.
  induction q as [|j q IH]; intros T n ks Hq Hn Hks Hup.
  - by injection Hq as ->.
  - cbn [node_at] in Hq. destruct (child_slot T j) as [c|] eqn:Ec; [|done].
    cbn [mbind option_bind] in Hq.
    pose proof (node_at_container _ _ _ Hq Hn) as Hc.
    rewrite <- app_comm_cons in Hup.
    destruct (q ++ ks) as [|x xs] eqn:E; [by destruct q, ks|].
    rewrite updatable_cons in Hup. apply andb_true_iff in Hup as [_ Hup].
    rewrite (next_node_container_slot _ _ _ _ Ec Hc) in Hup.
    apply (IH c n ks Hq Hn Hks). by rewrite E.
Qed.

(** Two nodes of the same kind with the same slot read the same. *)
Lemma get_property_frame o o' j :
  is_container o = true → is_container o' = true →
  isArray o' = isArray o → slot_key o j = true →
  child_slot o' j = child_slot o j →
  get_property o' j = get_property o j.
Proof.
  intros Ho Ho' Harr Hj Hc.
  assert (slot_key o' j = true) as Hj' by (unfold slot_key; by rewrite Harr).
  unfold get_property.
  rewrite (own_property_slot _ _ Ho Hj), (own_property_slot _ _ Ho' Hj'), Hc.
  destruct o, o'; try done.
Qed.

(** A write below [q ++ [k]] leaves what is read below [q ++ [j]]. *)
Lemma update_keys_frame q : ∀ T n k j r r' V T',
  node_at T q = Some n → slots T q = true → is_container n = true →
  slot_key n k = true → slot_key n j = true → j ≠ k →
  update_keys T (q ++ k :: r) V = Ok T' →
  reduce_keys T' (q ++ j :: r') = reduce_keys T (q ++ j :: r').
Proof.
  induction q as [|i q IH]; intros T n k j r r' V T' Hq Hs Hn Hk Hj Hjk HU.
  - injection Hq as ->. cbn [app] in *. cbn [update_keys] in HU.
    destruct (update_loop_Ok _ _ _ _ _ HU) as (_ & HT' & Harr).
    pose proof (update_loop_frame _ _ _ _ _ j HU Hk Hjk) as Hframe.
    cbn [reduce_keys].
    rewrite (container_not_nullish _ Hn), (container_not_nullish _ HT').
    by rewrite (get_property_frame n T' j Hn HT' Harr Hj Hframe).
  - cbn [node_at] in Hq. cbn [slots] in Hs.
    destruct (child_slot T i) as [c|] eqn:Ec; [|done].
    cbn [mbind option_bind] in Hq. apply andb_true_iff in Hs as [Hi Hs].
    pose proof (child_slot_container _ _ _ Ec) as HT.
    pose proof (node_at_container _ _ _ Hq Hn) as Hc.
    rewrite <- app_comm_cons in HU. cbn [update_keys] in HU.
    destruct (q ++ k :: r) as [|x xs] eqn:E; [by destruct q|].
    rewrite (update_loop_descend _ _ _ _ _ _ Hi Ec Hc) in HU.
    bind_ok HU. injection HU as <-. rename a into c'.
    rewrite <- !app_comm_cons.
    destruct (with_child_container T i c' HT) as [HW HWc].
    rewrite (reduce_keys_step _ _ c'); [| |done].
    2: by rewrite with_child_slot_key.
    rewrite (reduce_keys_step _ _ _ _ Hi Ec).
    apply (IH c n k j r r' V c' Hq Hs Hn Hk Hj Hjk). by rewrite E.
Qed.

(** X3: a write leaves the other fields alone.  When the keys [q] lead
    to a mapping or a sequence, a write to a path that goes on from
    there with the key [k], over which every assignment creates or
    replaces a slot, succeeds and does not change what a read returns
    for any path that goes on from there with another key [j], other
    than the [length] of a sequence (the last key written not empty,
    the keys read not empty and free of [.], [[], []] and [,]). *)
Theorem X3_write_leaves_siblings T n q k j r r' V D :
  reduce_keys T q = Ok n → is_container n = true →
  updatable T (q ++ k :: r) = true →
  nonempty (default EmptyString (last (k :: r))) = true →
  Forall (fun k => textual_key k = true) (q ++ j :: r') →
  slot_key n j = true →
  j ≠ k →
  ∃ T', _update T (PArray (q ++ k :: r)) V = Ok T'
        ∧ _get T' (PArray (q ++ j :: r')) D
          = _get T (PArray (q ++ j :: r')) D.
Proof.
  intros Hq Hn Hup Hlast Htext Hj Hjk.
  assert (q ++ k :: r ≠ []) as Hne by (by destruct q).
  pose proof (updatable_container _ _ Hne Hup) as HT.
  destruct (node_at_walk _ _ _ Hq Hn) as [Hat Hs].
  assert (nonempty (default EmptyString (last (q ++ k :: r))) = true) as Hl.
  { rewrite last_app.
    destruct (last (k :: r)) eqn:E; [done|by apply last_None in E]. }
  rewrite (_update_keys _ _ _ Hl), (container_not_nullish _ HT).
  destruct (q ++ k :: r) as [|x xs] eqn:E; [done|]. cbn [update_keys].
  destruct (update_loop_updatable xs T x V Hup) as (T' & HU & HT' & _).
  exists T'. split; [done|].
  assert (slot_key n k = true) as Hk.
  { eapply updatable_slot_key, (updatable_node_at q T n (k :: r)); try done.
    by rewrite E. }
  pose proof (update_keys_frame q T n k j r r' V T' Hat Hs Hn Hk Hj Hjk)
    as Hframe.
  rewrite E in Hframe. specialize (Hframe HU).
  unfold _get.
  rewrite !travel_key_list by (done || apply bracket_is_any || done).
  rewrite Hframe.
  destruct (reduce_keys T (q ++ j :: r')) as [v| |] eqn:Ev; [|done..].
  rewrite !bind_Ok, !(or_else_same _ _ eq_refl), !bind_Ok.
  destruct (q ++ j :: r') as [|y ys] eqn:E'; [by destruct q|].
  rewrite (walk_not_root T y ys v HT Ev).
  by rewrite (walk_not_root T' y ys v HT' Hframe).
Qed.

Lemma X3_write_leaves_siblings_witness :
  let T := js_object [("user", js_object [("age", VBool true)])] in
  ∃ T', _update T (PArray (["user"] ++ "name" :: ["first"])) (VStr "Ann")
        = Ok T'
        ∧ _get T' (PArray (["user"] ++ "age" :: [])) VNull
          = _get T (PArray (["user"] ++ "age" :: [])) VNull.
Proof.
  apply (X3_write_leaves_siblings
           (js_object [("user", js_object [("age", VBool true)])])
           (js_object [("age", VBool true)])
           ["user"] "name" "age" ["first"] [] (VStr "Ann") VNull).
  - vm_compute. reflexivity.
  - reflexivity.
  - reflexivity.
  - reflexivity.
  - repeat constructor.
  - reflexivity.
  - discriminate.
Defined.

(** * Further properties of the read *)

Lemma SFeqb_refl x : number_is_nan x = false → SFeqb x x = true.
Proof.
  destruct x as [s|s| |s m e]; try done.
  - by destruct s.
  - intros _. unfold SFeqb, SFcompare.
    rewrite Z.compare_refl, Pos.compare_cont_refl. by destruct s.
Qed.

Lemma strict_eq_refl v : is_NaN v = false → strict_eq v v = true.
Proof.
  destruct v as [| |b|x|s|m|l m]; simpl; try done.
  - by destruct b.
  - apply SFeqb_refl.
  - by rewrite String.eqb_refl.
  - intros _. by apply (strict_eq_container_refl (VObj m)).
  - intros _. by apply (strict_eq_container_refl (VArr l m)).
Qed.

Lemma strict_eq_NaN v : is_NaN v = true → strict_eq v v = false.
Proof. destruct v as [| | |x| | |]; try done. by destruct x. Qed.

Lemma split_only_separators d s :
  string_forall d s = true → List.filter nonempty (split_on d s) = [].
Proof.
  induction s as [|c s IH]; cbn [string_forall split_on]; [done|].
  intros [Hc Hs]%andb_true_iff. rewrite Hc. cbn [List.filter nonempty].
  by apply IH.
Qed.

Lemma string_forall_mono (d1 d2 : ascii → bool) s :
  (∀ c, d1 c = true → d2 c = true) →
  string_forall d1 s = true → string_forall d2 s = true.
Proof.
  intros Hd. induction s as [|c s IH]; cbn [string_forall]; [done|].
  intros [Hc Hs]%andb_true_iff. by rewrite (Hd c Hc), IH.
Qed.

(** X4: a path without a key reads the default.  For the empty key list
    and for every string made of [,], [[] and []] only (the empty string
    among them), the read returns the default whatever the target,
    because what the walk finds is the target itself; the one exception
    is the target [NaN], which differs from itself and is returned. *)
Theorem X4_read_without_key T s D :
  string_forall is_bracket_separator s = true →
  (is_NaN T = false →
   _get T (PString s) D = Ok D ∧ _get T (PArray []) D = Ok D)
  ∧ (is_NaN T = true →
     _get T (PString s) D = Ok T ∧ _get T (PArray []) D = Ok T).
Proof.
  intros Hs.
  assert (∀ p, p = PString s ∨ p = PArray [] →
               _get T p D
               = Ok (if strict_eq T VUndef || strict_eq T T then D else T))
    as Hget.
  { intros p Hp. unfold _get, travel.
    assert (List.filter nonempty
              (split_on is_bracket_separator (path_to_string p)) = []
            ∧ List.filter nonempty
                (split_on is_any_separator (path_to_string p)) = [])
      as [-> ->].
    { destruct Hp as [-> | ->]; [|done]. cbn [path_to_string].
      split; apply split_only_separators; [done|].
      exact (string_forall_mono is_bracket_separator is_any_separator s
               bracket_is_any Hs). }
    cbn [reduce_keys]. rewrite bind_Ok. by destruct (ToBoolean T). }
  split; intros HT; rewrite !Hget by auto.
  - by rewrite (strict_eq_refl _ HT), orb_true_r.
  - rewrite (strict_eq_NaN _ HT). by destruct T.
Qed.

Lemma X4_read_without_key_witness :
  _get (js_object [("a", VBool true)]) (PString "[]") (VStr "D")
  = Ok (VStr "D")
  ∧ _get (js_object [("a", VBool true)]) (PArray []) (VStr "D")
    = Ok (VStr "D").
Proof.
  apply (proj1 (X4_read_without_key (js_object [("a", VBool true)]) "[]"
                  (VStr "D") eq_refl)).
  reflexivity.
Defined.

(** X5: index notations are interchangeable.  Two strings without a
    comma that have the same segments between [.], [[] and []], such as
    ["a[0].b"] and ["a.0.b"], are the same path: a write gives the same
    result with either, and so does a read on a target in which no
    member name contains a [.]. *)
Theorem X5_same_segments_same_path T s1 s2 V D :
  string_exists (Ascii.eqb ",") s1 = false →
  string_exists (Ascii.eqb ",") s2 = false →
  match_segments s1 = match_segments s2 →
  _update T (PString s1) V = _update T (PString s2) V
  ∧ (dot_free T = true →
     _get T (PString s1) D = _get T (PString s2) D).
Proof.
  intros H1 H2 Hseg. split.
  - unfold _update. by rewrite Hseg.
  - intros HT.
    rewrite (get_dot_free T (PString s1) D HT).
    rewrite (get_dot_free T (PString s2) D HT).
    unfold travel, path_to_string.
    rewrite (no_comma_same_split _ H1), (no_comma_same_split _ H2).
    unfold match_segments in Hseg. by rewrite Hseg.
Qed.

Lemma X5_same_segments_same_path_witness :
  let T := js_object [("a", js_array [js_object [("b", VStr "x")]])] in
  _update T (PString "a[0].b") VNull = _update T (PString "a.0.b") VNull
  ∧ (dot_free T = true →
     _get T (PString "a[0].b") VNull = _get T (PString "a.0.b") VNull).
Proof.
  apply (X5_same_segments_same_path
           (js_object [("a", js_array [js_object [("b", VStr "x")]])])
           "a[0].b" "a.0.b" VNull VNull); reflexivity.
Defined.

(** * References and trees

    The walks that hold a reference ([deepFind], the proxies) against the
    walks written by recursion on the tree ([deepSet], [_update]). *)

Lemma update_at_plug p : ∀ st n f,
  node_at st p = Some n →
  update_at st p f = f n ≫= (fun n' => Ok (plug st p n')).
Proof.
  induction p as [|k p IH]; intros st n f Hn.
  - injection Hn as ->. cbn [update_at plug]. by rewrite bind_ret.
  - cbn [node_at] in Hn. destruct (child_slot st k) as [c|] eqn:Ec; [|done].
    cbn [mbind option_bind] in Hn. cbn [update_at]. rewrite Ec.
    rewrite (IH c n f Hn). destruct (f n); [|done..].
    rewrite !bind_Ok. cbn [plug]. by rewrite Ec.
Qed.

Lemma node_at_plug p : ∀ st n n',
  node_at st p = Some n → node_at (plug st p n') p = Some n'.
Proof.
  induction p as [|k p IH]; intros st n n' Hn; [done|].
  cbn [node_at] in Hn. destruct (child_slot st k) as [c|] eqn:Ec; [|done].
  cbn [mbind option_bind] in Hn. cbn [plug node_at]. rewrite Ec.
  destruct (with_child_container st k (plug c p n')
              (child_slot_container _ _ _ Ec)) as [_ ->].
  cbn [mbind option_bind]. by eapply IH.
Qed.

Lemma plug_snoc p : ∀ st n k c c',
  node_at st p = Some n → child_slot n k = Some c →
  plug st (p ++ [k]) c' = plug st p (with_child n k c').
Proof.
  induction p as [|j p IH]; intros st n k c c' Hn Hc.
  - injection Hn as ->. cbn [app plug]. by rewrite Hc.
  - cbn [node_at] in Hn. destruct (child_slot st j) as [d|] eqn:Ed; [|done].
    cbn [mbind option_bind] in Hn.
    rewrite <- app_comm_cons. cbn [plug]. rewrite Ed.
    by rewrite (IH d n k c c' Hn Hc).
Qed.

Lemma plug_plug p : ∀ st n a b,
  node_at st p = Some n → plug (plug st p a) p b = plug st p b.
Proof.
  induction p as [|j p IH]; intros st n a b Hn; [done|].
  cbn [node_at] in Hn. destruct (child_slot st j) as [d|] eqn:Ed; [|done].
  cbn [mbind option_bind] in Hn. cbn [plug]. rewrite Ed.
  destruct (with_child_container st j (plug d p a)
              (child_slot_container _ _ _ Ed)) as [_ HW].
  cbn [plug]. rewrite HW, with_child_twice. by rewrite (IH d n a b Hn).
Qed.

(** On a primitive held by value, [deepFind] followed by the assignment
    fails as the loop of [deepSet] fails. *)
Lemma deepFind_assign_primitive rest :
  ∀ st c key v (g : value → outcome value),
    is_container c = false →
    deepFind_loop st (RPrim c) key rest ≫= (fun r => assign_found r v)
    = deepSet_loop c key rest v ≫= g.
Proof.
  induction rest as [|next rest IH]; intros st c key v g Hc.
  - cbn [deepFind_loop deepSet_loop]. rewrite bind_Ok. unfold assign_found.
    cbn [fst snd]. destruct (ToPropertyKey key) as [k| |]; [|done..].
    rewrite !bind_Ok. cbn [ref_set].
    destruct (set_property c k v) as [x| |] eqn:E; [|done..].
    by destruct (set_property_not_Ok _ _ _ _ Hc E).
  - cbn [deepFind_loop deepSet_loop].
    destruct (ToPropertyKey key) as [k| |]; [|done..].
    rewrite !bind_Ok. cbn [ref_get].
    destruct (get_property c k) as [cur| |] eqn:Ecur; [|done..].
    rewrite !bind_Ok.
    pose proof (get_property_primitive _ _ _ Hc Ecur) as Hcur.
    destruct (is_nullish cur).
    + cbn [ref_set].
      destruct (set_property c k _) as [x| |] eqn:E; [|done..].
      by destruct (set_property_not_Ok _ _ _ _ Hc E).
    + rewrite !bind_Ok. cbn [ref_get]. rewrite Ecur, !bind_Ok.
      cbn [ref_child].
      rewrite (IH st cur next v (fun c' => g (with_child c k c')) Hcur).
      by rewrite bind_assoc.
Qed.

(** On a container of the store, [deepFind] followed by the assignment
    puts in the place of the container what the loop of [deepSet] makes
    of it. *)
Lemma deepFind_assign_container rest :
  ∀ st p n key v,
    node_at st p = Some n → is_container n = true →
    deepFind_loop st (RNode p) key rest ≫= (fun r => assign_found r v)
    = deepSet_loop n key rest v ≫= (fun n' => Ok (plug st p n')).
Proof.
  induction rest as [|next rest IH]; intros st p n key v Hn Hc.
  - cbn [deepFind_loop deepSet_loop]. rewrite bind_Ok. unfold assign_found.
    cbn [fst snd]. destruct (ToPropertyKey key) as [k| |]; [|done..].
    rewrite !bind_Ok. cbn [ref_set].
    exact (update_at_plug p st n (fun o => set_property o k v) Hn).
  - cbn [deepFind_loop deepSet_loop].
    destruct (ToPropertyKey key) as [k| |]; [|done..].
    rewrite !bind_Ok. cbn [ref_get]. rewrite Hn.
    destruct (get_property n k) as [cur| |] eqn:Ecur; [|done..].
    rewrite !bind_Ok.
    set (fresh := if pkey_is_numeric next then VArr 0 ∅ else VObj ∅).
    assert (∀ st1 n1,
      node_at st1 p = Some n1 → is_container n1 = true →
      (∀ x, plug st1 p x = plug st p x) →
      (cur ← ref_get st1 (RNode p) k;
       deepFind_loop st1 (ref_child (RNode p) k cur) next rest)
      ≫= (fun r => assign_found r v)
      = (child ← get_property n1 k;
         child' ← deepSet_loop child next rest v;
         Ok (with_child n1 k child'))
        ≫= (fun n' => Ok (plug st p n'))) as Hgo.
    { intros st1 n1 Hn1 Hc1 Hplug. cbn [ref_get]. rewrite Hn1.
      destruct (get_property n1 k) as [c1| |] eqn:Ec1; [|done..].
      rewrite !bind_Ok. cbn [ref_child].
      destruct (is_container c1) eqn:Hcc.
      - destruct (get_container_slot _ _ _ Ec1 Hcc) as [Hslot _].
        rewrite (IH st1 (p ++ [k]) c1 next v);
          [|by rewrite node_at_snoc, Hn1|done].
        rewrite bind_assoc. destruct (deepSet_loop c1 next rest v); [|done..].
        rewrite !bind_Ok.
        by rewrite (plug_snoc _ _ _ _ _ _ Hn1 Hslot), Hplug.
      - rewrite (deepFind_assign_primitive rest st1 c1 next v
                   (fun c' => Ok (plug st p (with_child n1 k c'))) Hcc).
        by rewrite bind_assoc. }
    destruct (is_nullish cur).
    + cbn [ref_set].
      rewrite (update_at_plug p st n (fun o => set_property o k fresh) Hn).
      destruct (set_property n k fresh) as [n1| |] eqn:Eset; [|done..].
      rewrite !bind_Ok. apply Hgo.
      * by eapply node_at_plug.
      * by destruct (set_property_Ok _ _ _ _ Eset).
      * intros x. by eapply plug_plug.
    + rewrite !bind_Ok. by apply Hgo.
Qed.

(** X6: [deepSet] is [deepFind] followed by the assignment.  For every
    object, path and value, assigning the value to
    [penultimate[lastKey]] of what [deepFind] returns leaves the object
    as [deepSet] leaves it, and fails where [deepSet] fails. *)
Theorem X6_deepSet_is_deepFind_then_assign obj p v :
  deepSet obj p v = deepFind obj p ≫= (fun found => assign_found found v).
Proof.
  unfold deepSet, deepFind.
  destruct (map_outcome to_pkey (split_on (Ascii.eqb ".") p))
    as [keys| |]; [|done..].
  rewrite !bind_Ok. destruct keys as [|key rest].
  { destruct (split_on_cons (Ascii.eqb ".") p) as (seg & segs & Hs).
    rewrite bind_Ok. unfold assign_found, ref_of. cbn [fst snd ToPropertyKey].
    rewrite bind_Ok.
    destruct (match obj with VUndef => VObj ∅ | _ => obj end) eqn:E;
      try done. }
  set (o := match obj with VUndef => VObj ∅ | _ => obj end).
  unfold ref_of. destruct (is_container o) eqn:Ho.
  - rewrite (deepFind_assign_container rest o [] o key v eq_refl Ho).
    cbn [plug]. by rewrite bind_ret.
  - rewrite (deepFind_assign_primitive rest o o key v Ok Ho).
    by rewrite bind_ret.
Qed.

(** * Further properties of the key capture *)

Lemma string_pkey_for k : pkey_for k (KString k).
Proof. done. Qed.

Lemma string_pkeys_for ks : Forall2 pkey_for ks (map KString ks).
Proof. induction ks; by constructor. Qed.

(** The accesses of a chain are the loop of [deepFind] over the keys of
    the chain as strings. *)
Lemma access_is_deepFind ks : ∀ st r k props,
  access st (Inner r (props ++ [k])) ks
  = deepFind_loop st r (KString k) (map KString ks)
    ≫= (fun x => Ok (x.1.1, Inner x.1.2 (props ++ k :: ks))).
Proof.
  induction ks as [|next ks IH]; intros st r k props; [done|].
  cbn [access trap_get map deepFind_loop ToPropertyKey]. unfold inner_get.
  rewrite last_key_snoc, !bind_Ok.
  destruct (ref_get st r k) as [cur| |]; [|done..]. rewrite !bind_Ok.
  rewrite (deepSet_placeholder next (KString next) (string_pkey_for next)).
  destruct (if is_nullish cur then ref_set st r k (empty_container next)
            else Ok st) as [st'| |]; [|done..].
  rewrite !bind_Ok.
  destruct (ref_get st' r k) as [cur'| |]; [|done..]. rewrite !bind_Ok.
  cbn [fst snd]. rewrite (IH st' (ref_child r k cur') next (props ++ [k])).
  by rewrite <- (app_assoc props [k] (next :: ks)).
Qed.

Lemma deepFind_loop_last ks : ∀ st r k x,
  deepFind_loop st r (KString k) (map KString ks) = Ok x →
  x.2 = KString (last_key (k :: ks)).
Proof.
  induction ks as [|next ks IH]; intros st r k x.
  - by intros [= <-].
  - cbn [map deepFind_loop]. intros H. do 4 bind_ok H.
    rewrite (IH _ _ _ _ H). unfold last_key. by rewrite last_cons_cons.
Qed.

(** Called with a defined argument, the accessor of [createDraftProxy]
    leaves the bound structure as the loop of [deepSet] over the chain
    leaves it. *)
Lemma draft_write_is_deepSet_loop
    (apply : value → accessor → value → outcome (value * returned))
    y k ks v :
  (∀ st pen keys, apply st (Inner pen keys) v
                  = ref_set st pen (last_key keys) v
                    ≫= (fun st' => Ok (st', Keys keys))) →
  capture apply createDraftProxy y (k :: ks) v
  = deepSet_loop y (KString k) (map KString ks) v
    ≫= (fun st => Ok (st, Keys (k :: ks))).
Proof.
  intros Happly. unfold capture, createDraftProxy.
  cbn [access trap_get]. rewrite bind_Ok. cbn [fst snd].
  change [k] with ([] ++ [k]).
  rewrite (access_is_deepFind ks y (ref_of y) k []). cbn [app].
  rewrite bind_assoc.
  assert (deepFind_loop y (ref_of y) (KString k) (map KString ks)
          ≫= (fun x => apply x.1.1 (Inner x.1.2 (k :: ks)) v)
          = (deepFind_loop y (ref_of y) (KString k) (map KString ks)
             ≫= (fun x => assign_found x v))
            ≫= (fun st' => Ok (st', Keys (k :: ks)))) as Hfound.
  { rewrite bind_assoc.
    destruct (deepFind_loop y (ref_of y) (KString k) (map KString ks))
      as [x| |] eqn:E; [|done..].
    rewrite !bind_Ok, Happly. unfold assign_found.
    by rewrite (deepFind_loop_last _ _ _ _ _ E). }
  transitivity (deepFind_loop y (ref_of y) (KString k) (map KString ks)
                ≫= (fun x => apply x.1.1 (Inner x.1.2 (k :: ks)) v)).
  { by destruct (deepFind_loop y (ref_of y) (KString k) (map KString ks)). }
  rewrite Hfound. unfold ref_of. destruct (is_container y) eqn:Hy.
  - rewrite (deepFind_assign_container (map KString ks) y [] y (KString k) v
               eq_refl Hy).
    cbn [plug]. by rewrite bind_ret.
  - rewrite (deepFind_assign_primitive (map KString ks) y y (KString k) v
               Ok Hy).
    by rewrite bind_ret.
Qed.

Lemma createInnerProxy_apply_defined st pen keys v :
  v ≠ VUndef →
  createInnerProxy_apply st (Inner pen keys) v
  = ref_set st pen (last_key keys) v ≫= (fun st' => Ok (st', Keys keys))
  ∧ createInnerProxy_apply_index st (Inner pen keys) v
    = ref_set st pen (last_key keys) v ≫= (fun st' => Ok (st', Keys keys)).
Proof.
  intros Hv. unfold createInnerProxy_apply, createInnerProxy_apply_index.
  by rewrite (defined_not_undef _ Hv).
Qed.

Lemma draft_write_is_update_loop y k ks v :
  v ≠ VUndef → unobstructed y (k :: ks) = true →
  capture createInnerProxy_apply createDraftProxy y (k :: ks) v
  = update_loop y k ks v ≫= (fun st => Ok (st, Keys (k :: ks)))
  ∧ capture createInnerProxy_apply_index createDraftProxy y (k :: ks) v
    = update_loop y k ks v ≫= (fun st => Ok (st, Keys (k :: ks))).
Proof.
  intros Hv Hun.
  rewrite <- (deepSet_loop_update_loop ks (map KString ks) y k (KString k) v
                (string_pkey_for k) (string_pkeys_for ks) Hun).
  split; apply draft_write_is_deepSet_loop; intros st pen keys;
    by destruct (createInnerProxy_apply_defined st pen keys v Hv).
Qed.

(** X7: the accessor writes what the resolver writes.  On a bound
    mapping or sequence and a chain whose last key is not empty and
    along which no boolean, number or string and no inherited member
    stands in the way, calling the accessor of [createDraftProxy] with a
    defined argument leaves the structure that [_update] returns for the
    chain as a key list, and returns the chain; it fails where [_update]
    fails.  This holds for the accessor of createForm and for that of
    lib/index.ts. *)
Theorem X7_draft_write_is_update y chain l v :
  is_container y = true →
  last chain = Some l → nonempty l = true →
  unobstructed y chain = true →
  v ≠ VUndef →
  capture createInnerProxy_apply createDraftProxy y chain v
  = _update y (PArray chain) v ≫= (fun st => Ok (st, Keys chain))
  ∧ capture createInnerProxy_apply_index createDraftProxy y chain v
    = _update y (PArray chain) v ≫= (fun st => Ok (st, Keys chain)).
Proof.
  intros Hy Hl Hne Hun Hv.
  rewrite (_update_unfold y (PArray chain) v chain l eq_refl Hl Hne).
  rewrite (container_not_nullish _ Hy).
  destruct chain as [|k ks]; [done|].
  by apply draft_write_is_update_loop.
Qed.

Lemma X7_draft_write_is_update_witness :
  let y := js_object [("users", js_array [])] in
  capture createInnerProxy_apply createDraftProxy y ["users"; "0"; "name"]
          (VStr "Ann")
  = _update y (PArray ["users"; "0"; "name"]) (VStr "Ann")
    ≫= (fun st => Ok (st, Keys ["users"; "0"; "name"]))
  ∧ capture createInnerProxy_apply_index createDraftProxy y
            ["users"; "0"; "name"] (VStr "Ann")
    = _update y (PArray ["users"; "0"; "name"]) (VStr "Ann")
      ≫= (fun st => Ok (st, Keys ["users"; "0"; "name"])).
Proof.
  apply (X7_draft_write_is_update (js_object [("users", js_array [])])
           ["users"; "0"; "name"] "name" (VStr "Ann")).
  - reflexivity.
  - reflexivity.
  - reflexivity.
  - reflexivity.
  - discriminate.
Defined.

Lemma field_key_chain k ks :
  unobstructed (VObj ∅) (k :: ks) = true →
  field_key (k :: ks) = Ok (join "." (k :: ks)).
Proof.
  intros Hun. unfold field_key, capture, keysProxy. cbn [access trap_get].
  rewrite bind_Ok. cbn [fst snd]. change [k] with ([] ++ [k]).
  change (ref_of (VObj ∅)) with (RNode []).
  destruct (access_inner ks (VObj ∅) [] (VObj ∅) k [] eq_refl eq_refl eq_refl
              Hun) as (st' & q & l & -> & _).
  by rewrite !bind_Ok.
Qed.

(** X8: on a new empty mapping, as createForm passes to [keysProxy],
    the key capture succeeds for every chain of accesses in which no
    inherited member stands in the way (no key but the last is the name
    of a member that the mapping or sequence created for it inherits):
    calling the accessor after a non-empty chain of accesses returns the
    chain, and the key createForm joins from it is the chain joined by
    dots.  A callback that returns the accessor itself gets no key list,
    and joining it throws. *)
Theorem X8_keysProxy_captures_every_chain chain arg :
  unobstructed (VObj ∅) chain = true →
  match chain with
  | [] => capture keysProxy_apply keysProxy (VObj ∅) chain arg
          = Ok (VObj ∅, Value VUndef)
          ∧ field_key chain = Throw TypeError
  | _ :: _ => (∃ st, capture keysProxy_apply keysProxy (VObj ∅) chain arg
                     = Ok (st, Keys chain))
              ∧ field_key chain = Ok (join "." chain)
  end.
Proof.
  intros Hun. destruct chain as [|k ks]; [done|].
  split; [|by apply field_key_chain].
  unfold capture, keysProxy. cbn [access trap_get].
  rewrite bind_Ok. cbn [fst snd]. change [k] with ([] ++ [k]).
  change (ref_of (VObj ∅)) with (RNode []).
  destruct (access_inner ks (VObj ∅) [] (VObj ∅) k [] eq_refl eq_refl eq_refl
              Hun) as (st' & q & l & -> & _).
  rewrite bind_Ok. by exists st'.
Qed.

Lemma X8_keysProxy_captures_every_chain_witness :
  (∃ st, capture keysProxy_apply keysProxy (VObj ∅)
           ["users"; "0"; "length"; "constructor"] VUndef
         = Ok (st, Keys ["users"; "0"; "length"; "constructor"]))
  ∧ field_key ["users"; "0"; "length"; "constructor"]
    = Ok (join "." ["users"; "0"; "length"; "constructor"]).
Proof.
  apply (X8_keysProxy_captures_every_chain
           ["users"; "0"; "length"; "constructor"] VUndef).
  reflexivity.
Defined.

Lemma access_present ks : ∀ st p n k props,
  node_at st p = Some n → is_container n = true →
  present n (k :: ks) = true →
  ∃ pen, access st (Inner (RNode p) (props ++ [k])) ks
         = Ok (st, Inner pen (props ++ k :: ks)).
Proof.
  induction ks as [|next ks IH]; intros st p n k props Hn Hcont Hpres.
  - by exists (RNode p).
  - cbn [access trap_get]. unfold inner_get. rewrite last_key_snoc.
    cbn [present] in Hpres.
    destruct (get_property n k) as [c| |] eqn:Hget; [|done..].
    apply andb_prop in Hpres as [Hc Hpres].
    cbn [ref_get]. rewrite Hn, Hget, bind_Ok.
    rewrite (container_not_nullish c Hc), bind_Ok.
    cbn [ref_get]. rewrite Hn, Hget, bind_Ok.
    unfold ref_child. rewrite Hc, bind_Ok. cbn [fst snd].
    destruct (IH st (p ++ [k]) c next (props ++ [k])) as (pen & ->);
      [|done|done|].
    + rewrite node_at_snoc, Hn. cbn. by apply get_container_slot.
    + exists pen. by rewrite <- (app_assoc props [k] (next :: ks)).
Qed.

(** X9: accesses create only what is missing.  When every node the
    chain goes through, the last key apart, is already a mapping or a
    sequence of the bound structure, the accesses succeed and leave the
    structure as it was, for the accessor of [keysProxy] and for that of
    [createDraftProxy]; calling the accessor of [keysProxy] then returns
    the chain. *)
Theorem X9_access_keeps_present_nodes y chain arg :
  is_container y = true → present y chain = true →
  (∃ a, access y (keysProxy y) chain = Ok (y, a)
        ∧ access y (createDraftProxy y) chain = Ok (y, a))
  ∧ (chain ≠ [] →
     capture keysProxy_apply keysProxy y chain arg = Ok (y, Keys chain)).
Proof.
  intros Hy Hpres. unfold capture, keysProxy, createDraftProxy, ref_of.
  rewrite Hy. destruct chain as [|k ks].
  - split; [by exists (Outer (RNode []))|done].
  - cbn [access trap_get]. rewrite bind_Ok. cbn [fst snd].
    change [k] with ([] ++ [k]).
    destruct (access_present ks y [] y k [] eq_refl Hy Hpres) as (pen & ->).
    split; [by exists (Inner pen ([] ++ k :: ks))|]. intros _.
    by rewrite bind_Ok.
Qed.

Lemma X9_access_keeps_present_nodes_witness :
  let y := js_object [("user", js_object [("name", VStr "Ann")])] in
  (∃ a, access y (keysProxy y) ["user"; "name"] = Ok (y, a)
        ∧ access y (createDraftProxy y) ["user"; "name"] = Ok (y, a))
  ∧ (["user"; "name"] ≠ [] →
     capture keysProxy_apply keysProxy y ["user"; "name"] VUndef
     = Ok (y, Keys ["user"; "name"])).
Proof.
  apply (X9_access_keeps_present_nodes
           (js_object [("user", js_object [("name", VStr "Ann")])])
           ["user"; "name"] VUndef).
  - reflexivity.
  - reflexivity.
Defined.

(** * createForm *)

(** The default value stands in exactly where [_get] returns
    [undefined] without one. *)
Lemma get_default T p D r :
  _get T p VUndef = Ok r →
  _get T p D = Ok (match r with VUndef => D | _ => r end).
Proof.
  unfold _get.
  destruct (travel T (path_to_string p) is_bracket_separator) as [v1| |];
    [|done..].
  rewrite !bind_Ok.
  destruct (if ToBoolean v1 then Ok v1
            else travel T (path_to_string p) is_any_separator) as [v| |];
    [|done..].
  rewrite !bind_Ok.
  destruct (strict_eq v VUndef || strict_eq v T) eqn:E.
  - by intros [= <-].
  - intros [= <-]. apply orb_false_elim in E as [E _]. by destruct v.
Qed.

Lemma mark_dirty_ordinary d key :
  key ≠ "__proto__" → mark_dirty d key = <[key := true]> d.
Proof.
  intros Hk%String.eqb_neq. unfold mark_dirty. rewrite Hk.
  by destruct (d !! key).
Qed.

(** The keys of a chain joined by dots are [__proto__] for the chain
    [__proto__] only. *)
Lemma join_not_proto chain :
  Forall (fun k => textual_key k = true) chain →
  chain ≠ ["__proto__"] → join "." chain ≠ "__proto__".
Proof.
  intros Htext Hne. destruct chain as [|k [|k' ks]]; [done| |].
  - cbn [join]. by intros ->.
  - intros Heq. pose proof (join_has_dot k k' ks) as Hdot.
    by rewrite Heq in Hdot.
Qed.

(** X10: a value entered through [custom] is read back through it.  For
    a callback that accesses the keys [chain] (not empty, free of [.],
    [[], []] and [,], and not the one key [__proto__]), where the key
    capture meets no inherited member, every assignment of the write on
    the data creates or replaces a slot of a mapping or a sequence, and
    the data holds no member under the joined key itself, [onChange]
    stores the value, marks the joined key dirty and leaves the errors
    and the initial data alone; the store [value] then holds the value
    entered, or the default when that value is null or undefined. *)
Theorem X10_custom_change_then_value f chain v D :
  chain ≠ [] →
  Forall (fun k => textual_key k = true) chain →
  chain ≠ ["__proto__"] →
  unobstructed (VObj ∅) chain = true →
  updatable (if is_nullish (rawData f) then VObj ∅ else rawData f) chain
  = true →
  child_slot (rawData f) (join "." chain) = None ∨ length chain = 1 →
  ∃ f', custom_onChange f chain v = Ok f'
        ∧ dirty f' !! join "." chain = Some true
        ∧ (∀ j, j ≠ join "." chain → dirty f' !! j = dirty f !! j)
        ∧ rawErrors f' = rawErrors f
        ∧ _initialData f' = _initialData f
        ∧ custom_value f' (join "." chain) D
          = Ok (if is_nullish v then D else v).
Proof.
  intros Hne Htext Hproto Hcap Hup Hslot.
  destruct (roundtrip_string_path (rawData f) chain v VUndef Hne Htext Hup Hslot)
    as (T' & Hupd & Hget).
  pose proof (join_not_proto _ Htext Hproto) as Hkey.
  destruct chain as [|k ks]; [done|].
  unfold custom_onChange, update.
  rewrite (field_key_chain _ _ Hcap), bind_Ok, Hupd, bind_Ok.
  rewrite (mark_dirty_ordinary _ _ Hkey).
  eexists. split; [done|]. cbn [dirty rawErrors _initialData rawData].
  split; [apply lookup_insert_eq|].
  split; [by intros j Hj; apply lookup_insert_ne|].
  split; [done|]. split; [done|].
  unfold custom_value. cbn [rawData]. rewrite Hget, bind_Ok.
  by destruct v.
Qed.

Lemma X10_custom_change_then_value_witness :
  let f := Form (VObj ∅) ∅ ∅ VUndef in
  ∃ f', custom_onChange f ["user"; "name"] (VStr "Ann") = Ok f'
        ∧ dirty f' !! join "." ["user"; "name"] = Some true
        ∧ (∀ j, j ≠ join "." ["user"; "name"] → dirty f' !! j = dirty f !! j)
        ∧ rawErrors f' = rawErrors f
        ∧ _initialData f' = _initialData f
        ∧ custom_value f' (join "." ["user"; "name"]) (VStr "none")
          = Ok (if is_nullish (VStr "Ann") then VStr "none" else VStr "Ann").
Proof.
  apply (X10_custom_change_then_value (Form (VObj ∅) ∅ ∅ VUndef)
           ["user"; "name"] (VStr "Ann") (VStr "none")).
  - discriminate.
  - repeat constructor.
  - discriminate.
  - reflexivity.
  - reflexivity.
  - left. reflexivity.
Defined.

(** X11: after [resetField] the field reads as it reads in the initial
    data.  Under the conditions of X10 on the chain and the data, where
    the read of the initial data at the joined key returns,
    [resetField] succeeds, the joined key is neither dirty nor in error
    any more, the other keys keep their marks, and [_get] on the new
    data at the joined key returns, with every default, what it returns
    on the initial data. *)
Theorem X11_resetField_restores_initial f chain r :
  chain ≠ [] →
  Forall (fun k => textual_key k = true) chain →
  unobstructed (VObj ∅) chain = true →
  updatable (if is_nullish (rawData f) then VObj ∅ else rawData f) chain
  = true →
  child_slot (rawData f) (join "." chain) = None ∨ length chain = 1 →
  _get (_initialData f) (PString (join "." chain)) VUndef = Ok r →
  ∃ f', resetField f chain = Ok f'
        ∧ dirty f' !! join "." chain = None
        ∧ rawErrors f' !! join "." chain = None
        ∧ (∀ j, j ≠ join "." chain →
             dirty f' !! j = dirty f !! j
             ∧ rawErrors f' !! j = rawErrors f !! j)
        ∧ _initialData f' = _initialData f
        ∧ ∀ D, _get (rawData f') (PString (join "." chain)) D
               = _get (_initialData f) (PString (join "." chain)) D.
Proof.
  intros Hne Htext Hcap Hup Hslot Hinit.
  destruct (roundtrip_string_path (rawData f) chain r VUndef Hne Htext Hup Hslot)
    as (T' & Hupd & _).
  unfold resetField.
  assert (field_key chain = Ok (join "." chain)) as ->.
  { destruct chain; [done|by apply field_key_chain]. }
  rewrite bind_Ok, Hinit, bind_Ok, Hupd, bind_Ok.
  eexists. split; [done|]. cbn [dirty rawErrors _initialData rawData].
  split; [apply lookup_delete_eq|]. split; [apply lookup_delete_eq|].
  split; [by intros j Hj; split; apply lookup_delete_ne|].
  split; [done|]. intros D.
  destruct (roundtrip_string_path (rawData f) chain r D Hne Htext Hup Hslot)
    as (T'' & Hupd' & Hget).
  rewrite Hupd in Hupd'. injection Hupd' as <-. rewrite Hget.
  by rewrite (get_default _ _ D _ Hinit).
Qed.

Lemma X11_resetField_restores_initial_witness :
  let f := Form (js_object [("name", VStr "Bob")]) {["name" := true]} ∅
                (js_object [("name", VStr "Ann")]) in
  ∃ f', resetField f ["name"] = Ok f'
        ∧ dirty f' !! join "." ["name"] = None
        ∧ rawErrors f' !! join "." ["name"] = None
        ∧ (∀ j, j ≠ join "." ["name"] →
             dirty f' !! j = dirty f !! j
             ∧ rawErrors f' !! j = rawErrors f !! j)
        ∧ _initialData f' = _initialData f
        ∧ ∀ D, _get (rawData f') (PString (join "." ["name"])) D
               = _get (_initialData f) (PString (join "." ["name"])) D.
Proof.
  apply (X11_resetField_restores_initial
           (Form (js_object [("name", VStr "Bob")]) {["name" := true]} ∅
                 (js_object [("name", VStr "Ann")]))
           ["name"] (VStr "Ann")).
  - discriminate.
  - repeat constructor.
  - reflexivity.
  - reflexivity.
  - right. reflexivity.
  - reflexivity.
Defined.

(** X12: the two versions of the field handler agree.  For a callback
    that accesses the keys [chain] (not empty, free of [.], [[], []] and
    [,], and not the one key [__proto__]), on data where no boolean,
    number or string and no inherited member stands in the way and every
    assignment of the write creates or replaces a slot of a mapping or a
    sequence, [handleChange] of the first createForm stores the data and
    marks the key that [update] of the later createForm stores and marks
    for the joined key, and [_get] reads the text of the input back at
    the chain. *)
Theorem X12_handleChange_is_update data d re init chain input D :
  chain ≠ [] →
  Forall (fun k => textual_key k = true) chain →
  chain ≠ ["__proto__"] →
  unobstructed (if is_nullish data then VObj ∅ else data) chain = true →
  updatable (if is_nullish data then VObj ∅ else data) chain = true →
  ∃ data',
    handleChange data d chain input
    = Ok (data', <[join "." chain := true]> d)
    ∧ update (Form data d re init) (join "." chain) (VStr input)
      = Ok (Form data' (<[join "." chain := true]> d) re init)
    ∧ _get data' (PArray chain) D = Ok (VStr input).
Proof.
  intros Hne Htext Hproto Hun Hup.
  destruct (roundtrip_array_path data chain (VStr input) D Hne Htext Hup)
    as (T' & Hupd & _ & _ & _ & Hget).
  exists T'. unfold update. cbn [rawData dirty rawErrors _initialData].
  rewrite (_update_string_path data chain (VStr input) Htext), Hupd, bind_Ok.
  rewrite (mark_dirty_ordinary _ _ (join_not_proto _ Htext Hproto)).
  split; [|done].
  destruct chain as [|k ks]; [done|].
  rewrite (_update_array_path data k ks (VStr input) Htext) in Hupd.
  unfold handleChange.
  destruct (draft_write_is_update_loop
              (if is_nullish data then VObj ∅ else data) k ks (VStr input))
    as [-> _]; [done|done|].
  by rewrite Hupd, !bind_Ok.
Qed.

Lemma X12_handleChange_is_update_witness :
  ∃ data',
    handleChange VUndef ∅ ["user"; "name"] "Ann"
    = Ok (data', <[join "." ["user"; "name"] := true]> ∅)
    ∧ update (Form VUndef ∅ ∅ VUndef) (join "." ["user"; "name"]) (VStr "Ann")
      = Ok (Form data' (<[join "." ["user"; "name"] := true]> ∅) ∅ VUndef)
    ∧ _get data' (PArray ["user"; "name"]) VUndef = Ok (VStr "Ann").
Proof.
  apply (X12_handleChange_is_update VUndef ∅ ∅ VUndef ["user"; "name"] "Ann"
           VUndef).
  - discriminate.
  - repeat constructor.
  - discriminate.
  - reflexivity.
  - reflexivity.
Defined.

(** Accesses below a value that is no mapping and no sequence, under
    keys that name no member of a prototype, stay below such values or
    throw. *)
Lemma access_primitive ks : ∀ st x props k,
  is_container x = false →
  Forall (fun k => has_name prototype_names k = false) (k :: ks) →
  access st (Inner (RPrim x) (props ++ [k])) ks = Throw TypeError
  ∨ ∃ x', is_container x' = false
          ∧ access st (Inner (RPrim x) (props ++ [k])) ks
            = Ok (st, Inner (RPrim x') (props ++ k :: ks)).
Proof.
  induction ks as [|next ks IH]; intros st x props k Hx Hks.
  - right. by exists x.
  - apply Forall_cons in Hks as [Hk Hks].
    cbn [access trap_get]. unfold inner_get. rewrite last_key_snoc.
    cbn [ref_get ref_set].
    destruct (is_nullish x) eqn:Hnull.
    { left. by destruct x. }
    destruct (get_property_total x k Hnull (not_prototype_name _ _ Hk))
      as [c Hc].
    rewrite Hc, bind_Ok.
    pose proof (get_property_primitive x k c Hx Hc) as Hprim.
    assert (String.eqb k "__proto__" = false) as Hproto.
    { destruct (String.eqb k "__proto__") eqn:E; [|done].
      apply String.eqb_eq in E as ->. done. }
    destruct (is_nullish c).
    { left. by rewrite (set_property_primitive _ _ _ Hx Hproto). }
    rewrite !bind_Ok. cbn [fst snd ref_child].
    destruct (IH st c (props ++ [k]) next Hprim Hks) as [->|(x' & Hx' & ->)].
    + by left.
    + right. exists x'. by rewrite <- (app_assoc props [k] (next :: ks)).
Qed.

Lemma set_property_throws x k v :
  is_container x = false → String.eqb k "__proto__" = false →
  set_property x k v = Throw TypeError.
Proof. intros Hx Hk. destruct x; try done; cbn [set_property]; by rewrite Hk. Qed.

Lemma draft_primitive_root y chain v :
  v ≠ VUndef →
  is_container y = false →
  Forall (fun k => has_name prototype_names k = false) chain →
  capture createInnerProxy_apply createDraftProxy y chain v
    ≫= (fun r => join_keys r.2)
  = Throw TypeError.
Proof.
  intros Hv Hy Hchain. unfold capture, createDraftProxy, ref_of.
  rewrite Hy. destruct chain as [|k ks]; [done|].
  cbn [access trap_get]. rewrite bind_Ok. cbn [fst snd].
  change [k] with ([] ++ [k]).
  destruct (access_primitive ks y y [] k Hy Hchain) as [->|(x' & Hx' & ->)];
    [done|].
  rewrite bind_Ok. cbn [fst snd app].
  unfold createInnerProxy_apply. rewrite (defined_not_undef _ Hv).
  cbn [negb ref_set].
  rewrite set_property_throws; [done|done|].
  destruct (last (k :: ks)) as [l|] eqn:El; [|by apply last_None in El].
  unfold last_key. rewrite El. cbn [default from_option id].
  apply last_Some_elem_of in El.
  pose proof (proj1 (Forall_forall _ _) Hchain l El) as Hl. cbn beta in Hl.
  destruct (String.eqb l "__proto__") eqn:E; [|done].
  apply String.eqb_eq in E as ->. done.
Qed.

(** X13: the field handler needs a mapping or a sequence.  When the
    store [data] holds [null] or [undefined], [handleChange] of
    createForm goes on from an empty mapping.  When it holds a boolean,
    a number or a string, [handleChange] throws a [TypeError] for every
    chain of accesses none of whose keys is the name of a member of a
    built-in prototype, the empty chain among them. *)
Theorem X13_handleChange_needs_container data d input :
  is_container data = false →
  (is_nullish data = true →
   ∀ chain, handleChange data d chain input
            = handleChange (VObj ∅) d chain input)
  ∧ (is_nullish data = false →
     ∀ chain, Forall (fun k => has_name prototype_names k = false) chain →
              handleChange data d chain input = Throw TypeError).
Proof.
  intros Hdata. split.
  - intros Hnull chain. unfold handleChange. by rewrite Hnull.
  - intros Hnull chain Hchain. unfold handleChange. rewrite Hnull.
    assert (VStr input ≠ VUndef) as Hv by done.
    pose proof (draft_primitive_root data chain (VStr input) Hv Hdata Hchain)
      as H.
    destruct (capture createInnerProxy_apply createDraftProxy data chain
                (VStr input)) as [r| |];
      [|by injection H as ->|discriminate H].
    rewrite bind_Ok in H. rewrite bind_Ok. cbn beta. by rewrite H.
Qed.

Lemma X13_handleChange_needs_container_witness :
  handleChange VNull ∅ ["user"; "name"] "Ann"
  = handleChange (VObj ∅) ∅ ["user"; "name"] "Ann"
  ∧ handleChange (VNum (Number_of_N 5)) ∅ ["user"; "name"] "Ann"
    = Throw TypeError.
Proof.
  split.
  - apply (proj1 (X13_handleChange_needs_container VNull ∅ "Ann" eq_refl)
             eq_refl ["user"; "name"]).
  - apply (proj2 (X13_handleChange_needs_container (VNum (Number_of_N 5)) ∅
                    "Ann" eq_refl) eq_refl ["user"; "name"]).
    repeat constructor.
Defined.

(** ** Finding what was set *)

Lemma present_cons n k next rest :
  present n (k :: next :: rest)
  = match get_property n k with
    | Ok c => is_container c && present c (next :: rest)
    | _ => false
    end.
Proof. done. Qed.

Lemma update_loop_present rest : ∀ T k V T',
  update_loop T k rest V = Ok T' → updatable T (k :: rest) = true →
  present T' (k :: rest) = true.
Proof.
  induction rest as [|next rest IH]; intros T k V T' H Hup; [done|].
  rewrite updatable_cons in Hup. apply andb_true_iff in Hup as [Ha Hup].
  destruct (update_loop_turn T k next Ha) as (P & HP & HPk & _ & _ & _ & Heq).
  rewrite Heq in H.
  destruct (update_loop _ next rest V) as [c'| |] eqn:E; [|done..].
  rewrite bind_Ok in H. injection H as <-.
  destruct (with_child_container P k c' HP) as [HP' Hslot].
  rewrite present_cons, (get_property_slot _ _ _ Hslot)
    by (by rewrite with_child_slot_key).
  destruct (update_loop_Ok _ _ _ _ _ E) as (_ & -> & _).
  by apply (IH _ next V c' E).
Qed.

Lemma deepFind_loop_present rest : ∀ prest st p n k pk,
  node_at st p = Some n → slots st p = true → is_container n = true →
  pkey_for k pk → Forall2 pkey_for rest prest →
  present n (k :: rest) = true →
  ∃ q l lk n',
    deepFind_loop st (RNode p) pk prest = Ok (st, RNode (p ++ q), lk)
    ∧ k :: rest = (q ++ [l])%list
    ∧ ToPropertyKey lk = Ok l
    ∧ node_at st (p ++ q) = Some n' ∧ slots st (p ++ q) = true
    ∧ is_container n' = true.
Proof.
  induction rest as [|next rest IH];
    intros prest st p n k pk Hn Hs Hc Hpk HF Hpres.
  - apply Forall2_nil_inv_l in HF as ->.
    exists [], k, pk, n. rewrite app_nil_r. by destruct Hpk.
  - apply Forall2_cons_inv_l in HF as (pnext & prest' & Hpnext & HF & ->).
    cbn [deepFind_loop]. destruct Hpk as [-> _]. rewrite bind_Ok.
    rewrite present_cons in Hpres.
    destruct (get_property n k) as [c| |] eqn:Hget; [|done..].
    apply andb_prop in Hpres as [Hcc Hpres].
    cbn [ref_get]. rewrite Hn, Hget, bind_Ok.
    rewrite (container_not_nullish c Hcc), bind_Ok.
    cbn [ref_get]. rewrite Hn, Hget, bind_Ok.
    unfold ref_child. rewrite Hcc.
    destruct (get_container_slot _ _ _ Hget Hcc) as [Hslot Hk].
    destruct (IH prest' st (p ++ [k]) c next pnext)
      as (q & l & lk & n' & -> & Heq & Hlk & Hn' & Hs' & Hcn');
      [| |done|done|done|done|].
    + rewrite node_at_snoc, Hn. cbn. done.
    + by eapply slots_snoc.
    + exists (k :: q), l, lk, n'.
      rewrite <- !(app_assoc p [k] q) in *. cbn [app] in *.
      by rewrite Heq.
Qed.

(** X14: the action [error] shows what [deepSet] stored.  For a
    dot-separated path of member names and canonical indices, on a
    target other than [null] where no boolean, number or string and no
    inherited member stands in the way and every assignment of the write
    creates or replaces a slot of a mapping or a sequence, [deepSet]
    returns a structure on which [deepFind] with the same path creates
    nothing, and the subscription of [error] assigns the stored value to
    the node. *)
Theorem X14_error_shows_what_deepSet_stored T ks V :
  T ≠ VNull →
  ks ≠ [] →
  Forall (fun k => segment_key k = true) ks →
  unobstructed (if is_nullish T then VObj ∅ else T) ks = true →
  updatable (if is_nullish T then VObj ∅ else T) ks = true →
  ∃ T', deepSet T (join "." ks) V = Ok T'
        ∧ (∃ penultimate lastKey,
             deepFind T' (join "." ks) = Ok (T', penultimate, lastKey))
        ∧ error_innerHTML T' (join "." ks) = Ok (T', V).
Proof.
  intros HT Hne Hks Hun Hup.
  destruct (write_variants_succeed T ks V HT Hne Hks Hun Hup)
    as (T' & Hset & Hupd & HT' & Hread & _).
  exists T'. split; [done|].
  unfold error_innerHTML, deepFind.
  rewrite (split_dots_join _ Hne Hks).
  destruct (map_to_pkey _ Hks) as (pks & -> & HF). rewrite !bind_Ok.
  destruct ks as [|k rest]; [done|].
  apply Forall2_cons_inv_l in HF as (pk & prest & Hpk & Hrest & ->).
  rewrite (_update_segments _ _ _ _ Hks) in Hupd.
  assert (match T' with VUndef => VObj ∅ | _ => T' end = T') as ->.
  { by destruct T'. }
  unfold ref_of. rewrite HT'.
  destruct (deepFind_loop_present rest prest T' [] T' k pk eq_refl eq_refl HT'
              Hpk Hrest (update_loop_present rest _ k V T' Hupd Hup))
    as (q & l & lk & n' & Hfind & Heq & Hlk & Hn' & Hs' & Hcn').
  cbn [app] in Hfind, Hn', Hs'. rewrite Hfind.
  split; [by eexists _, _|].
  rewrite bind_Ok. cbn [fst snd]. rewrite Hlk, bind_Ok.
  cbn [ref_get]. rewrite Hn'.
  rewrite Heq in Hread.
  rewrite (reduce_keys_node_at q T' n' [l] Hn' Hs') in Hread.
  cbn [reduce_keys] in Hread. rewrite (container_not_nullish n' Hcn') in Hread.
  destruct (get_property n' l) as [x| |]; [|done..].
  rewrite bind_Ok in *. by injection Hread as ->.
Qed.

Lemma X14_error_shows_what_deepSet_stored_witness :
  ∃ T', deepSet VUndef (join "." ["users"; "0"; "name"]) (VStr "required")
        = Ok T'
        ∧ (∃ penultimate lastKey,
             deepFind T' (join "." ["users"; "0"; "name"])
             = Ok (T', penultimate, lastKey))
        ∧ error_innerHTML T' (join "." ["users"; "0"; "name"])
          = Ok (T', VStr "required").
Proof.
  apply (X14_error_shows_what_deepSet_stored VUndef ["users"; "0"; "name"]
           (VStr "required")).
  - discriminate.
  - discriminate.
  - repeat constructor.
  - reflexivity.
  - reflexivity.
Defined.

(** * Writes to different fields *)

Lemma assignable_frame o o' j :
  is_container o = true → is_container o' = true →
  isArray o' = isArray o → child_slot o' j = child_slot o j →
  assignable o' j = assignable o j.
Proof.
  intros Ho Ho' Harr Hc.
  destruct o as [| | | | |m|len m], o' as [| | | | |m'|len' m']; try done;
    cbn [assignable child_slot] in *; unfold calls_setter; by rewrite Hc.
Qed.

(** Assigning and replacing under two different keys of a container can
    be done in either order. *)
Lemma place_commute o k j a b :
  assignable o k = true → assignable o j = true →
  j ≠ k →
  (∃ o1 o2 o', set_property o k a = Ok o1 ∧ set_property o j b = Ok o2
               ∧ set_property o1 j b = Ok o' ∧ set_property o2 k a = Ok o')
  ∧ (∃ o1 o', set_property o k a = Ok o1 ∧ with_child o1 j b = o'
              ∧ set_property (with_child o j b) k a = Ok o')
  ∧ with_child (with_child o k a) j b = with_child (with_child o j b) k a.
Proof.
  intros Hk Hj Hjk. assert (k ≠ j) as Hkj by done.
  destruct o as [| | | | |m|len m]; try done; cbn [assignable] in Hk, Hj.
  - apply negb_true_iff in Hk, Hj.
    assert (calls_setter (<[k:=a]> m) j = false) as Hj'.
    { unfold calls_setter in *. by rewrite lookup_insert_ne. }
    assert (calls_setter (<[j:=b]> m) k = false) as Hk'.
    { unfold calls_setter in *. by rewrite lookup_insert_ne. }
    cbn [set_property with_child]. rewrite Hk, Hj. split; [|split].
    + eexists _, _, _. do 2 (split; [done|]). cbn [set_property].
      rewrite Hj', Hk'. split; [done|].
      by rewrite (insert_insert_ne m j k b a Hjk).
    + eexists _, _. do 2 (split; [done|]). cbn [with_child set_property].
      rewrite Hk'. by rewrite (insert_insert_ne m j k b a Hjk).
    + by rewrite (insert_insert_ne m j k b a Hjk).
  - apply andb_true_iff in Hk as [Hk%not_length_neq Hsk%negb_true_iff].
    apply andb_true_iff in Hj as [Hj%not_length_neq Hsj%negb_true_iff].
    assert (calls_setter (<[k:=a]> m) j = false) as Hj'.
    { unfold calls_setter in *. by rewrite lookup_insert_ne. }
    assert (calls_setter (<[j:=b]> m) k = false) as Hk'.
    { unfold calls_setter in *. by rewrite lookup_insert_ne. }
    cbn [set_property with_child]. rewrite Hk, Hj, Hsk, Hsj.
    split; [|split].
    + destruct (is_array_index k) as [ik|] eqn:Ek,
        (is_array_index j) as [ij|] eqn:Ej;
        eexists _, _, _; (split; [done|]); (split; [done|]);
        cbn [set_property]; rewrite Hk, Hj, Ek, Ej, Hj', Hk';
        (split; [done|]); rewrite (insert_insert_ne m j k b a Hjk);
        do 2 f_equal; lia.
    + destruct (is_array_index k) as [ik|] eqn:Ek;
        eexists _, _; (split; [done|]); (split; [done|]);
        cbn [with_child set_property]; rewrite ?Hk, ?Ek, Hk';
        by rewrite (insert_insert_ne m j k b a Hjk).
    + by rewrite (insert_insert_ne m j k b a Hjk).
Qed.

(** The loop of [_update] acts on the slot of its first key only: what it
    puts there and how depend on that slot alone. *)
Lemma update_loop_local T k rest V :
  updatable T (k :: rest) = true →
  ∃ c',
    (∀ T2, assignable T2 k = true → child_slot T2 k = child_slot T k →
           update_loop T2 k rest V = set_property T2 k c')
    ∨ (∀ T2, assignable T2 k = true → child_slot T2 k = child_slot T k →
             update_loop T2 k rest V = Ok (with_child T2 k c')).
Proof.
  intros Hup. destruct rest as [|next rest].
  - exists V. by left.
  - rewrite updatable_cons in Hup. apply andb_true_iff in Hup as [Ha Hup].
    destruct (update_loop_updatable rest _ next V Hup) as (c' & Hsub & _).
    exists c'.
    destruct (match child_slot T k with
              | Some c => _isPrimitive c
              | None => true
              end) eqn:E.
    + left. intros T2 Ha2 Hslot. cbn [update_loop].
      rewrite (assignable_is_primitive_at _ _ Ha2), Hslot, E, bind_Ok.
      destruct (set_property_assignable T2 k (empty_container next) Ha2)
        as (P & HS & HP & Hc & HPk & _).
      rewrite HS, bind_Ok, (get_property_slot _ _ _ Hc HPk), bind_Ok.
      assert (next_node T k next = empty_container next) as Hnext.
      { unfold next_node. destruct (child_slot T k); [|done]. by rewrite E. }
      rewrite Hnext in Hsub. rewrite Hsub, bind_Ok.
      pose proof (assignable_slot_key _ _ Ha2) as Hk2.
      rewrite <- (set_property_twice T2 k (empty_container next) c' P HS Hk2).
      destruct T2 as [| | | | |m2|len2 m2]; try done;
        cbn [set_property assignable] in HS, Ha2.
      * apply negb_true_iff in Ha2. rewrite Ha2 in HS. injection HS as <-.
        cbn [set_property with_child].
        by rewrite (calls_setter_own _ _ (empty_container next))
          by apply lookup_insert_eq.
      * apply andb_true_iff in Ha2 as [Hk%not_length_neq Hs%negb_true_iff].
        rewrite Hk, Hs in HS.
        destruct (is_array_index k) as [i|] eqn:Ei; injection HS as <-;
          cbn [set_property with_child];
          rewrite Hk, Ei, (calls_setter_own _ _ (empty_container next))
            by apply lookup_insert_eq; [|done].
        do 2 f_equal. lia.
    + right. intros T2 Ha2 Hslot. cbn [update_loop].
      rewrite (assignable_is_primitive_at _ _ Ha2), Hslot, E, !bind_Ok.
      destruct (child_slot T k) as [c|] eqn:Ec; [|done].
      assert (next_node T k next = c) as Hnext.
      { unfold next_node. by rewrite Ec, E. }
      rewrite Hnext in Hsub.
      rewrite (get_property_slot _ _ _ Hslot (assignable_slot_key _ _ Ha2)).
      by rewrite bind_Ok, Hsub, bind_Ok.
Qed.

Lemma update_loop_commute T k j r r' V W :
  updatable T (k :: r) = true →
  updatable T (j :: r') = true →
  j ≠ k →
  ∃ T1 T2 T',
    update_loop T k r V = Ok T1 ∧ update_loop T j r' W = Ok T2
    ∧ update_loop T1 j r' W = Ok T' ∧ update_loop T2 k r V = Ok T'.
Proof.
  intros Hks Hjs Hjk.
  pose proof Hks as [Hk _]%andb_true_iff. pose proof Hjs as [Hj _]%andb_true_iff.
  pose proof (assignable_container _ _ Hk) as HT.
  destruct (update_loop_updatable r T k V Hks) as (T1 & H1 & HT1 & _).
  destruct (update_loop_updatable r' T j W Hjs) as (T2 & H2 & HT2 & _).
  destruct (update_loop_Ok _ _ _ _ _ H1) as (_ & _ & Harr1).
  destruct (update_loop_Ok _ _ _ _ _ H2) as (_ & _ & Harr2).
  pose proof (update_loop_frame T k r V T1 j H1 (assignable_slot_key _ _ Hk) Hjk)
    as Hf1.
  assert (k ≠ j) as Hkj by done.
  pose proof (update_loop_frame T j r' W T2 k H2 (assignable_slot_key _ _ Hj) Hkj)
    as Hf2.
  assert (assignable T1 j = true) as Hj1
    by (by rewrite (assignable_frame T T1 j HT HT1 Harr1 Hf1)).
  assert (assignable T2 k = true) as Hk2
    by (by rewrite (assignable_frame T T2 k HT HT2 Harr2 Hf2)).
  exists T1, T2. rewrite H1, H2.
  destruct (update_loop_local T k r V Hks) as [c' Hc'].
  destruct (update_loop_local T j r' W Hjs) as [d' Hd'].
  destruct (place_commute T k j c' d' Hk Hj Hjk)
    as ((o1 & o2 & o' & Hs1 & Hs2 & Hs12 & Hs21)
        & (p1 & p' & Hp1 & Hp12 & Hp21) & Hww).
  destruct (place_commute T j k d' c' Hj Hk Hkj)
    as (_ & (q2 & q' & Hq2 & Hq21 & Hq12) & _).
  destruct Hc' as [Hc'|Hc'], Hd' as [Hd'|Hd'];
    rewrite (Hc' T Hk eq_refl) in H1; rewrite (Hd' T Hj eq_refl) in H2;
    rewrite (Hd' T1 Hj1 Hf1), (Hc' T2 Hk2 Hf2).
  - rewrite Hs1 in H1. rewrite Hs2 in H2.
    injection H1 as <-. injection H2 as <-. exists o'. by rewrite Hs12, Hs21.
  - rewrite Hp1 in H1. injection H1 as <-. injection H2 as <-.
    exists p'. by rewrite Hp12, Hp21.
  - rewrite Hq2 in H2. injection H1 as <-. injection H2 as <-.
    exists q'. by rewrite Hq21, Hq12.
  - injection H1 as <-. injection H2 as <-.
    exists (with_child (with_child T k c') j d'). by rewrite Hww.
Qed.

Lemma update_keys_commute q : ∀ T n k j r r' V W,
  node_at T q = Some n → slots T q = true → is_container n = true →
  updatable n (k :: r) = true →
  updatable n (j :: r') = true →
  j ≠ k →
  ∃ T1 T2 T',
    update_keys T (q ++ k :: r) V = Ok T1
    ∧ update_keys T (q ++ j :: r') W = Ok T2
    ∧ update_keys T1 (q ++ j :: r') W = Ok T'
    ∧ update_keys T2 (q ++ k :: r) V = Ok T'.
Proof.
  induction q as [|i q IH]; intros T n k j r r' V W Hq Hs Hn Hks Hjs Hjk.
  - injection Hq as ->. cbn [app update_keys] in *.
    by apply update_loop_commute.
  - cbn [node_at] in Hq. cbn [slots] in Hs.
    destruct (child_slot T i) as [c|] eqn:Ec; [|done].
    cbn [mbind option_bind] in Hq. apply andb_true_iff in Hs as [Hi Hs].
    pose proof (child_slot_container _ _ _ Ec) as HT.
    pose proof (node_at_container _ _ _ Hq Hn) as Hc.
    destruct (IH c n k j r r' V W Hq Hs Hn Hks Hjs Hjk)
      as (c1 & c2 & c' & H1 & H2 & H12 & H21).
    rewrite <- !app_comm_cons. cbn [update_keys].
    destruct (q ++ k :: r) as [|x xs] eqn:Ex; [by destruct q|].
    destruct (q ++ j :: r') as [|y ys] eqn:Ey; [by destruct q|].
    cbn [update_keys] in H1, H2, H12, H21.
    destruct (update_loop_Ok _ _ _ _ _ H1) as (_ & Hc1 & _).
    destruct (update_loop_Ok _ _ _ _ _ H2) as (_ & Hc2 & _).
    destruct (with_child_container T i c1 HT) as [HT1 Hs1].
    destruct (with_child_container T i c2 HT) as [HT2 Hs2].
    assert (∀ x, slot_key (with_child T i x) i = true) as Hi'
      by (intros ?; by rewrite with_child_slot_key).
    exists (with_child T i c1), (with_child T i c2), (with_child T i c').
    rewrite (update_loop_descend _ _ _ _ _ _ Hi Ec Hc), H1, bind_Ok.
    rewrite (update_loop_descend _ _ _ _ _ _ Hi Ec Hc), H2, bind_Ok.
    rewrite (update_loop_descend _ _ _ _ _ _ (Hi' c1) Hs1 Hc1), H12, bind_Ok.
    rewrite (update_loop_descend _ _ _ _ _ _ (Hi' c2) Hs2 Hc2), H21, bind_Ok.
    by rewrite !with_child_twice.
Qed.

(** X15: writes to different fields commute.  When the keys [q] lead to
    a mapping or a sequence, two writes at paths that go on from there
    with different keys [k] and [j], over each of which every assignment
    creates or replaces a slot of a mapping or a sequence, succeed in
    either order and give the same structure (the last key of each path
    not empty). *)
Theorem X15_independent_writes_commute T n q k j r r' V W :
  reduce_keys T q = Ok n → is_container n = true →
  updatable T (q ++ k :: r) = true →
  updatable T (q ++ j :: r') = true →
  nonempty (default EmptyString (last (k :: r))) = true →
  nonempty (default EmptyString (last (j :: r'))) = true →
  j ≠ k →
  ∃ T1 T2 T',
    _update T (PArray (q ++ k :: r)) V = Ok T1
    ∧ _update T (PArray (q ++ j :: r')) W = Ok T2
    ∧ _update T1 (PArray (q ++ j :: r')) W = Ok T'
    ∧ _update T2 (PArray (q ++ k :: r)) V = Ok T'.
Proof.
  intros Hq Hn Hupk Hupj Hlk Hlj Hjk.
  assert (q ++ k :: r ≠ []) as Hne by (by destruct q).
  pose proof (updatable_container _ _ Hne Hupk) as HT.
  destruct (node_at_walk _ _ _ Hq Hn) as [Hat Hs].
  assert (∀ x xs, nonempty (default EmptyString (last (x :: xs))) = true →
                  nonempty (default EmptyString (last (q ++ x :: xs))) = true)
    as Hlast.
  { intros x xs Hl. rewrite last_app.
    destruct (last (x :: xs)) eqn:E; [done|by apply last_None in E]. }
  destruct (update_keys_commute q T n k j r r' V W Hat Hs Hn)
    as (T1 & T2 & T' & H1 & H2 & H12 & H21); [| |done|].
  { by apply (updatable_node_at q T n (k :: r)). }
  { by apply (updatable_node_at q T n (j :: r')). }
  exists T1, T2, T'.
  rewrite !_update_keys by (by apply Hlast).
  rewrite (container_not_nullish _ HT).
  assert (is_container T1 = true ∧ is_container T2 = true) as [HT1 HT2].
  { destruct (q ++ k :: r) as [|x xs] eqn:Ex; [done|].
    destruct (q ++ j :: r') as [|y ys] eqn:Ey; [by destruct q|].
    cbn [update_keys] in H1, H2.
    destruct (update_loop_Ok _ _ _ _ _ H1) as (_ & ? & _).
    by destruct (update_loop_Ok _ _ _ _ _ H2) as (_ & ? & _). }
  by rewrite (container_not_nullish _ HT1), (container_not_nullish _ HT2).
Qed.

Lemma X15_independent_writes_commute_witness :
  let T := js_object [("user", js_object [("age", VStr "7")])] in
  ∃ T1 T2 T',
    _update T (PArray (["user"] ++ "name" :: ["first"])) (VStr "Ann") = Ok T1
    ∧ _update T (PArray (["user"] ++ "tags" :: ["0"])) (VStr "a") = Ok T2
    ∧ _update T1 (PArray (["user"] ++ "tags" :: ["0"])) (VStr "a") = Ok T'
    ∧ _update T2 (PArray (["user"] ++ "name" :: ["first"])) (VStr "Ann")
      = Ok T'.
Proof.
  apply (X15_independent_writes_commute
           (js_object [("user", js_object [("age", VStr "7")])])
           (js_object [("age", VStr "7")])
           ["user"] "name" "tags" ["first"] ["0"] (VStr "Ann") (VStr "a")).
  - vm_compute. reflexivity.
  - reflexivity.
  - reflexivity.
  - reflexivity.
  - reflexivity.
  - reflexivity.
  - discriminate.
Defined.

(** * What the accesses keep *)

Lemma keeps_scalars_trans a b c :
  keeps_scalars a b → keeps_scalars b c → keeps_scalars a c.
Proof. intros Hab Hbc P r HP Hr Hs. apply Hbc; [done| |done]. by apply Hab. Qed.

Lemma container_not_scalar o : is_container o = true → is_scalar o = false.
Proof. unfold is_scalar. by intros ->. Qed.

Lemma nullish_not_scalar o : is_nullish o = true → is_scalar o = false.
Proof. unfold is_scalar. intros ->. by rewrite andb_false_r. Qed.

(** Filling an empty slot keeps the scalars. *)
Lemma fill_keeps n k c x n1 :
  is_container n = true → not_length k = true →
  get_property n k = Ok c → is_nullish c = true →
  set_property n k x = Ok n1 →
  keeps_scalars n n1.
Proof.
  intros Hn Hk Hget Hnull Hset P r HP Hr Hs.
  destruct (set_property_Ok n k x n1 Hset) as [_ Hn1].
  destruct P as [|k' P].
  - injection Hr as <-. by rewrite (container_not_scalar n Hn) in Hs.
  - apply Forall_cons in HP as [Hk' HP]. cbn [reduce_keys] in *.
    rewrite (container_not_nullish n Hn) in Hr.
    rewrite (container_not_nullish n1 Hn1).
    destruct (decide (k' = k)) as [->|Hne].
    + rewrite Hget, bind_Ok, (reduce_keys_nullish c P Hnull) in Hr.
      injection Hr as <-. by rewrite (nullish_not_scalar c Hnull) in Hs.
    + rewrite (get_property_frame n n1 k' Hn Hn1
                 (set_property_isArray _ _ _ _ Hset)
                 (not_length_slot_key _ _ Hk')
                 (set_property_frame n k x n1 k' Hset
                    (not_length_slot_key _ _ Hk) Hne)).
      done.
Qed.

Lemma with_child_keeps o k c c1 :
  is_container o = true → not_length k = true →
  child_slot o k = Some c → keeps_scalars c c1 →
  keeps_scalars o (with_child o k c1).
Proof.
  intros Ho Hk Hc Hkeep P r HP Hr Hs.
  destruct (with_child_container o k c1 Ho) as [Ho1 Hc1].
  destruct P as [|k' P].
  - injection Hr as <-. by rewrite (container_not_scalar o Ho) in Hs.
  - apply Forall_cons in HP as [Hk' HP].
    destruct (decide (k' = k)) as [->|Hne].
    + rewrite (reduce_keys_step o k c P (not_length_slot_key _ _ Hk) Hc) in Hr.
      rewrite (reduce_keys_step _ k c1 P (not_length_slot_key _ _ Hk) Hc1).
      by apply Hkeep.
    + cbn [reduce_keys] in *.
      rewrite (container_not_nullish o Ho) in Hr.
      rewrite (container_not_nullish _ Ho1).
      rewrite (get_property_frame o (with_child o k c1) k' Ho Ho1
                 (with_child_isArray _ _ _) (not_length_slot_key _ _ Hk')
                 (with_child_frame o k c1 k' Hne)).
      done.
Qed.

Lemma plug_keeps p : ∀ st n n1,
  node_at st p = Some n →
  Forall (fun k => not_length k = true) p →
  keeps_scalars n n1 → keeps_scalars st (plug st p n1).
Proof.
  induction p as [|i p IH]; intros st n n1 Hn Hp Hkeep.
  - by injection Hn as ->.
  - cbn [node_at] in Hn. cbn [plug].
    destruct (child_slot st i) as [c|] eqn:Ec; [|done].
    cbn [mbind option_bind] in Hn. apply Forall_cons in Hp as [Hi Hp].
    apply (with_child_keeps st i c); [|done|done|].
    + by eapply child_slot_container.
    + by apply (IH c n n1).
Qed.

Lemma plug_container p : ∀ st n n1,
  node_at st p = Some n → is_container n1 = true →
  is_container (plug st p n1) = true.
Proof.
  destruct p as [|i p]; intros st n n1 Hn Hn1; [done|].
  cbn [node_at] in Hn. cbn [plug].
  destruct (child_slot st i) as [c|] eqn:Ec; [|done].
  by apply with_child_container, (child_slot_container st i c).
Qed.

(** Accesses below a value that is no mapping and no sequence leave the
    store as it is. *)
Lemma access_primitive_state ks : ∀ st x props k st' a,
  is_container x = false →
  access st (Inner (RPrim x) (props ++ [k])) ks = Ok (st', a) →
  st' = st.
Proof.
  induction ks as [|next ks IH]; intros st x props k st' a Hx H.
  - by injection H as <- _.
  - cbn [access trap_get] in H. unfold inner_get in H.
    rewrite last_key_snoc in H. cbn [ref_get ref_set] in H.
    destruct (get_property x k) as [c| |] eqn:Hc; [|done..].
    rewrite bind_Ok in H.
    pose proof (get_property_primitive x k c Hx Hc) as Hprim.
    destruct (is_nullish c).
    { destruct (set_property x k (empty_container next)) as [y| |] eqn:E;
        [|done..].
      by destruct (set_property_not_Ok _ _ _ _ Hx E). }
    rewrite !bind_Ok in H. cbn [fst snd ref_child] in H.
    by apply (IH st c (props ++ [k]) next st' a Hprim).
Qed.

Lemma access_keeps ks : ∀ st p n k props st' a,
  node_at st p = Some n → is_container n = true →
  Forall (fun k => not_length k = true) (p ++ k :: ks) →
  access st (Inner (RNode p) (props ++ [k])) ks = Ok (st', a) →
  keeps_scalars st st' ∧ (is_container st = true → is_container st' = true).
Proof.
  induction ks as [|next ks IH]; intros st p n k props st' a Hn Hc Hks H.
  - injection H as <- _. split; [by intros P r _ Hr _|done].
  - pose proof Hks as [Hp [Hk _]%Forall_cons]%Forall_app.
    cbn [access trap_get] in H. unfold inner_get in H.
    rewrite last_key_snoc in H. cbn [ref_get ref_set] in H.
    rewrite Hn in H.
    destruct (get_property n k) as [cur| |] eqn:Hget; [|done..].
    rewrite bind_Ok in H.
    destruct (is_nullish cur) eqn:Hnull.
    + rewrite (update_at_plug p st n
                 (fun o => set_property o k (empty_container next)) Hn) in H.
      destruct (set_property n k (empty_container next)) as [n1| |] eqn:Hset;
        [|done..].
      rewrite !bind_Ok in H. cbn [ref_get] in H.
      rewrite (node_at_plug p st n n1 Hn) in H.
      pose proof (get_after_set _ _ _ _ _ Hget Hnull Hset) as Hget1.
      rewrite Hget1, bind_Ok in H.
      unfold ref_child in H.
      rewrite empty_container_is_container in H. cbn [fst snd] in H.
      destruct (get_container_slot _ _ _ Hget1
                  (empty_container_is_container next)) as [Hslot _].
      destruct (set_property_Ok _ _ _ _ Hset) as [_ Hn1].
      destruct (IH (plug st p n1) (p ++ [k]) (empty_container next) next
                  (props ++ [k]) st' a) as [Hkeep Hcont]; [| | |done|].
      * by rewrite node_at_snoc, (node_at_plug p st n n1 Hn).
      * apply empty_container_is_container.
      * by rewrite <- (app_assoc p [k] (next :: ks)).
      * split.
        -- apply (keeps_scalars_trans st (plug st p n1) st'); [|done].
           apply (plug_keeps p st n n1 Hn Hp).
           by apply (fill_keeps n k cur (empty_container next) n1).
        -- intros _. apply Hcont. by apply (plug_container p st n n1).
    + rewrite bind_Ok in H. cbn [ref_get] in H.
      rewrite Hn, Hget, bind_Ok in H.
      cbn [fst snd] in H. unfold ref_child in H.
      destruct (is_container cur) eqn:Hcc.
      * destruct (get_container_slot _ _ _ Hget Hcc) as [Hslot _].
        apply (IH st (p ++ [k]) cur next (props ++ [k]) st' a); [| | |done].
        -- by rewrite node_at_snoc, Hn.
        -- done.
        -- by rewrite <- (app_assoc p [k] (next :: ks)).
      * pose proof (access_primitive_state ks st cur (props ++ [k]) next st' a
                      Hcc H) as ->.
        split; [by intros P r _ Hr _|done].
Qed.

(** X16: the accesses never change a stored boolean, number or string.
    On a bound mapping or sequence, whenever the property accesses of a
    chain succeed (no key being [length]), the accessor of [keysProxy]
    or [createDraftProxy] leaves a mapping or sequence in which every
    read over plain keys that found a boolean, a number or a string
    before finds the same value, whatever the default. *)
Theorem X16_access_keeps_stored_values y chain st' a P r D :
  is_container y = true →
  Forall (fun k => not_length k = true) chain →
  access y (keysProxy y) chain = Ok (st', a)
  ∨ access y (createDraftProxy y) chain = Ok (st', a) →
  Forall (fun k => plain_key k = true) P →
  _get y (PArray P) VUndef = Ok r → is_scalar r = true →
  _get st' (PArray P) D = Ok r.
Proof.
  intros Hy Hchain Hacc HP Hget Hs.
  assert (access y (Outer (RNode [])) chain = Ok (st', a)) as H.
  { unfold keysProxy, createDraftProxy, ref_of in Hacc. rewrite Hy in Hacc.
    by destruct Hacc. }
  assert (keeps_scalars y st' ∧ is_container st' = true) as [Hkeep Hst'].
  { destruct chain as [|k ks].
    - injection H as <- _. split; [by intros Q x _ Hx _|done].
    - cbn [access trap_get] in H. rewrite bind_Ok in H. cbn [fst snd] in H.
      change [k] with ([] ++ [k]) in H.
      destruct (access_keeps ks y [] y k [] st' a eq_refl Hy Hchain H)
        as [Hkeep Hcont].
      split; [done|by apply Hcont]. }
  assert (Forall (fun k => not_length k = true) P) as Hnl.
  { eapply Forall_impl; [exact HP|]. apply plain_key_not_length. }
  unfold _get in *.
  pose proof (plain_keys_textual _ HP) as Htext.
  rewrite !travel_key_list in * by (done || apply bracket_is_any || done).
  destruct (reduce_keys y P) as [v| |] eqn:Ev; [|done..].
  rewrite !bind_Ok, (or_else_same _ _ eq_refl), bind_Ok in Hget.
  assert (v = r) as ->.
  { destruct (strict_eq v VUndef || strict_eq v y); [|by injection Hget].
    injection Hget as <-. done. }
  rewrite (Hkeep P r Hnl Ev Hs), !bind_Ok, (or_else_same _ _ eq_refl), bind_Ok.
  destruct r; try done; by destruct st'.
Qed.

Lemma X16_access_keeps_stored_values_witness :
  match access (js_object [("user", js_object [("age", VStr "7")])])
          (keysProxy (js_object [("user", js_object [("age", VStr "7")])]))
          ["user"; "name"; "first"] with
  | Ok (st', _) =>
      _get st' (PArray ["user"; "age"]) (VStr "none") = Ok (VStr "7")
  | _ => False
  end.
Proof.
  destruct (access (js_object [("user", js_object [("age", VStr "7")])])
              (keysProxy (js_object [("user", js_object [("age", VStr "7")])]))
              ["user"; "name"; "first"]) as [[st' a]| |] eqn:E.
  - apply (X16_access_keeps_stored_values
             (js_object [("user", js_object [("age", VStr "7")])])
             ["user"; "name"; "first"] st' a ["user"; "age"] (VStr "7")
             (VStr "none")).
    + reflexivity.
    + repeat constructor.
    + left. exact E.
    + repeat constructor.
    + reflexivity.
    + reflexivity.
  - vm_compute in E. discriminate E.
  - vm_compute in E. discriminate E.
Defined.

(** * The in-place write on a root that is no container *)

Lemma deepSet_loop_primitive rest : ∀ c key v r,
  is_container c = false → deepSet_loop c key rest v ≠ Ok r.
Proof.
  induction rest as [|next rest IH]; intros c key v r Hc;
    cbn [deepSet_loop]; destruct (ToPropertyKey key) as [k| |]; try done;
    rewrite bind_Ok.
  - by apply set_property_not_Ok.
  - destruct (get_property c k) as [cur| |] eqn:Ecur; [|done..].
    rewrite bind_Ok.
    pose proof (get_property_primitive c k cur Hc Ecur) as Hcur.
    destruct (is_nullish cur).
    + destruct (set_property c k _) as [x| |] eqn:E; [|done..].
      by destruct (set_property_not_Ok _ _ _ _ Hc E).
    + rewrite bind_Ok, Ecur, bind_Ok.
      destruct (deepSet_loop cur next rest v) as [c'| |] eqn:E; [|done..].
      by apply IH in E.
Qed.

(** On [null] every read and every assignment throws. *)
Lemma deepSet_loop_null rest : ∀ prest k pk v,
  pkey_for k pk → Forall2 pkey_for rest prest →
  deepSet_loop VNull pk prest v = Throw TypeError.
Proof.
  intros prest k pk v [Hpk _] HF. destruct rest as [|next rest].
  - apply Forall2_nil_inv_l in HF as ->. cbn [deepSet_loop].
    by rewrite Hpk.
  - apply Forall2_cons_inv_l in HF as (pnext & prest' & Hpnext & HF & ->).
    cbn [deepSet_loop]. by rewrite Hpk.
Qed.

(** X17: the in-place write needs a container.  On the root null
    [deepSet] succeeds for no path, and for a dot-separated path of
    member names and canonical indices it throws a [TypeError]: its
    default parameter replaces undefined only, whereas [_update] on
    null writes into a new mapping, from which [_get] reads the value
    back (the keys free of [,], every assignment creating a slot of a
    mapping or a sequence).  On a boolean, a number or a string
    [deepSet] throws a [TypeError] for a path of one such key other
    than [__proto__]. *)
Theorem X17_deepSet_needs_container T V :
  is_container T = false → T ≠ VUndef →
  (T = VNull →
   (∀ p r, deepSet T p V ≠ Ok r)
   ∧ ∀ ks, ks ≠ [] → Forall (fun k => segment_key k = true) ks →
           deepSet T (join "." ks) V = Throw TypeError
           ∧ (Forall (fun k => textual_key k = true) ks →
              updatable (VObj ∅) ks = true →
              ∃ r, _update T (PString (join "." ks)) V = Ok r
                   ∧ _get r (PString (join "." ks)) VUndef = Ok V))
  ∧ (∀ k, segment_key k = true → k ≠ "__proto__" →
          deepSet T k V = Throw TypeError).
Proof.
  intros HT Hundef.
  assert (match T with VUndef => VObj ∅ | _ => T end = T) as Hobj.
  { by destruct T. }
  split; [intros HN; split|].
  - intros p r. unfold deepSet. rewrite Hobj.
    destruct (map_outcome to_pkey (split_on (Ascii.eqb ".") p))
      as [[|key rest]| |]; try done; rewrite bind_Ok.
    + by apply set_property_not_Ok.
    + by apply deepSet_loop_primitive.
  - intros ks Hne Hks. subst T. split.
    + unfold deepSet. rewrite (split_dots_join _ Hne Hks).
      destruct (map_to_pkey _ Hks) as (pks & -> & HF). rewrite bind_Ok.
      destruct ks as [|k rest]; [done|].
      apply Forall2_cons_inv_l in HF as (pk & prest & Hpk & Hrest & ->).
      by apply (deepSet_loop_null rest prest k pk V).
    + intros Htext Hup.
      destruct (roundtrip_string_path VNull ks V VUndef Hne Htext Hup
                  (or_introl eq_refl)) as (r & HU & HG).
      exists r. split; [done|]. rewrite HG. by destruct V.
  - intros k Hk Hproto. unfold deepSet. rewrite Hobj.
    assert (split_on (Ascii.eqb ".") k = [k]) as ->.
    { apply (split_dots_join [k]); [done|by constructor]. }
    destruct (map_to_pkey [k]) as (pks & -> & HF); [by constructor|].
    rewrite bind_Ok.
    apply Forall2_cons_inv_l in HF as (pk & prest & [Hpk _] & Hrest & ->).
    apply Forall2_nil_inv_l in Hrest as ->. cbn [deepSet_loop].
    rewrite Hpk, bind_Ok. apply set_property_throws; [done|].
    by apply String.eqb_neq.
Qed.

Lemma X17_deepSet_needs_container_witness :
  (∀ p r, deepSet VNull p (VStr "v") ≠ Ok r)
  ∧ deepSet VNull (join "." ["users"; "0"]) (VStr "v") = Throw TypeError
  ∧ (∃ r, _update VNull (PString (join "." ["users"; "0"])) (VStr "v") = Ok r
          ∧ _get r (PString (join "." ["users"; "0"])) VUndef = Ok (VStr "v"))
  ∧ deepSet (VNum (Number_of_N 5)) "users" (VStr "v") = Throw TypeError.
Proof.
  destruct (X17_deepSet_needs_container VNull (VStr "v") eq_refl)
    as [Hnull _]; [discriminate|].
  destruct (Hnull eq_refl) as [Hnever Hpath].
  destruct (Hpath ["users"; "0"]) as [Hthrow Hupdate];
    [discriminate|repeat constructor|].
  split; [exact Hnever|]. split; [exact Hthrow|]. split.
  - apply Hupdate; [repeat constructor|reflexivity].
  - destruct (X17_deepSet_needs_container (VNum (Number_of_N 5)) (VStr "v")
                eq_refl) as [_ Hscalar]; [discriminate|].
    apply Hscalar; [reflexivity|discriminate].
Defined.
